(** * Hearthstone-AI: the search engine (MCTS.py) and the game adapter (Game.py)

    A shallow embedding of [alphabot/Game.py] (class [YEET]) and
    [alphabot/MCTS.py] (class [MCTS]).

    - Python ints are [Z]; Python floats are modelled by exact rationals [Q]
      (rounding, infinities and NaN are outside the model); [math.sqrt] and
      the float power are parameters. The comparison of scores in the
      selection, which rounding decides, is also modelled on IEEE 754
      doubles.
    - The rule engine (fireplace) is external to the repository: its queries
      and its state-changing calls are parameters of the development, each
      call returning the mutated game together with the exception it raised,
      if any.
    - In-place mutation of the game object and of the statistics
      dictionaries is explicit state passing. *)

From Stdlib Require Import ZArith QArith Qround Lia Lqa Permutation.
From Stdlib Require Floats.
From stdpp Require Import base option list gmap sorting.

Local Open Scope Z_scope.

(** ** Exceptions *)

Inductive exn :=
| GameOver | InvalidAction | UnhandledAction
| IndexError | TypeError | NameError | ZeroDivisionError | OverflowError.

Inductive res (A : Type) :=
| Ret (x : A)
| Raise (e : exn).
Arguments Ret {A} x.
Arguments Raise {A} e.

(** ** Python sequences *)

(** [l[i]] with Python's negative indices; [None] stands for [IndexError]. *)
Definition py_index {A} (l : list A) (i : Z) : option A :=
  if 0 <=? i then l !! Z.to_nat i
  else if - Z.of_nat (length l) <=? i then l !! Z.to_nat (Z.of_nat (length l) + i)
  else None.

(** [range(n)] *)
Definition range (n : nat) : list Z := Z.of_nat <$> seq 0 n.

(** ** The game object graph *)

(** An entity of the rule engine (a card, a minion, a hero, a hero power). *)
Definition card := Z.

(** The two [Player] objects of a game. *)
Inductive pid := PlayerA | PlayerB.

Definition pid_eqb (p q : pid) : bool :=
  match p, q with
  | PlayerA, PlayerA | PlayerB, PlayerB => true
  | _, _ => false
  end.

Definition opponent (p : pid) : pid :=
  match p with PlayerA => PlayerB | PlayerB => PlayerA end.

Record Player := mkPlayer {
  hand : list card;
  deck : list card;
  field : list card;
  hero : card;
  hero_power : card;
  choice : option (list card);   (* [player.choice]: [None] or its [cards] *)
  playstate : Z
}.

(** An action as the callers build it: a tuple [(slot, target)], or the
    integer [-1] that [MCTS.search] starts its scan with. *)
Inductive pyact :=
| NoAct
| Act (a0 a1 : Z).

(** The part of the engine state that the adapter never reads is [World]. *)
Record Game {World : Type} := mkGame {
  playerA : Player;
  playerB : Player;
  current_player : pid;
  player_to_start : pid;
  turn : Z;
  ended : bool;
  current_decay : Q;
  world : World
}.
Arguments Game World : clear implicits.
Arguments mkGame {World}.

(** A feature encoding ([YEET.getState]: a 263-entry int32 vector) and a
    fingerprint (the bytes of that vector). *)
Definition state := list Z.
Definition fp := list Z.

(** ** The collaborators *)

(** The rule engine (fireplace), the two adapter methods that only read it,
    the policy/value oracle and the float functions. A state-changing call
    returns the game after the call and what it raised. *)
Record Env {World : Type} := mkEnv {
  (* queries of the rule engine *)
  requires_target : Game World -> card -> bool;
  must_choose_one : Game World -> card -> bool;
  targets : Game World -> card -> list card;
  choose_targets : Game World -> card -> list card;
  attack_targets : Game World -> card -> list card;
  play_targets : Game World -> card -> list card;
  (* state-changing calls of the rule engine *)
  card_play : card -> option card -> option card -> Game World -> Game World * option exn;
  card_attack : card -> card -> Game World -> Game World * option exn;
  power_use : card -> option card -> Game World -> Game World * option exn;
  choice_choose : card -> Game World -> Game World * option exn;
  end_turn : Game World -> Game World * option exn;
  (* [YEET.getState] and [YEET.getValidMoves] (a 21x18 grid of 0/1) *)
  getState : Game World -> state;
  getValidMoves : Game World -> Z -> Z -> bool;
  (* [nnet.predict], [math.sqrt] and [x ** y] on floats; the power raises
     [OverflowError] when its result is out of range *)
  predict : state -> (Z -> Z -> Q) * Q;
  sqrt : Q -> Q;
  pow : Q -> Q -> res Q
}.
Arguments Env World : clear implicits.
Arguments mkEnv {World}.

Section Adapter.

Context {World : Type} (E : Env World).
Local Abbreviation Game := (Game World).

Definition player_of (g : Game) (p : pid) : Player :=
  match p with PlayerA => playerA g | PlayerB => playerB g end.

Definition set_player (g : Game) (p : pid) (x : Player) : Game :=
  match p with
  | PlayerA => mkGame x (playerB g) (current_player g) (player_to_start g)
                      (turn g) (ended g) (current_decay g) (world g)
  | PlayerB => mkGame (playerA g) x (current_player g) (player_to_start g)
                      (turn g) (ended g) (current_decay g) (world g)
  end.

Definition set_ended (g : Game) (b : bool) : Game :=
  mkGame (playerA g) (playerB g) (current_player g) (player_to_start g)
         (turn g) b (current_decay g) (world g).

(** *** A state-and-exception monad over the game instance *)

Definition M (A : Type) := Game -> Game * res A.

Definition retM {A} (x : A) : M A := fun g => (g, Ret x).
Definition raiseM {A} (e : exn) : M A := fun g => (g, Raise e).
Definition bindM {A B} (c : M A) (k : A -> M B) : M B :=
  fun g => match c g with
           | (g1, Ret x) => k x g1
           | (g1, Raise e) => (g1, Raise e)
           end.
Definition getM : M Game := fun g => (g, Ret g).

(** An engine call. *)
Definition call (f : Game -> Game * option exn) : M unit :=
  fun g => match f g with
           | (g1, None) => (g1, Ret tt)
           | (g1, Some e) => (g1, Raise e)
           end.

(** [l[i]], raising [IndexError]. *)
Definition index {A} (l : list A) (i : Z) : M A :=
  match py_index l i with
  | Some x => retM x
  | None => raiseM IndexError
  end.

Notation "'let*' x ':=' c 'in' k" := (bindM c (fun x => k))
  (at level 10, x name, c at level 100, k at level 200).

(** *** [YEET.performAction] *)

(** The body of the [try] block, for the action tuple [(a0, a1)];
    [p] is the [player] bound before the block. *)
Definition performAction_body (p : pid) (a0 a1 : Z) : M unit :=
  let* g := getM in
  let player := player_of g p in
  if (0 <=? a0) && (a0 <=? 9) then
    let* c := index (hand player) a0 in
    if requires_target E g c then
      let* t := index (targets E g c) a1 in
      call (card_play E c (Some t) None)
    else if must_choose_one E g c then
      let* t := index (choose_targets E g c) a1 in
      call (card_play E c None (Some t))
    else
      call (card_play E c None None)
  else if (10 <=? a0) && (a0 <=? 16) then
    let* m := index (field player) (a0 - 10) in
    let* t := index (attack_targets E g m) a1 in
    call (card_attack E m t)
  else if a0 =? 17 then
    if requires_target E g (hero_power player) then
      let* t := index (play_targets E g (hero_power player)) a1 in
      call (power_use E (hero_power player) (Some t))
    else
      call (power_use E (hero_power player) None)
  else if a0 =? 18 then
    let* t := index (attack_targets E g (hero player)) a1 in
    call (card_attack E (hero player) t)
  else if a0 =? 19 then
    call (end_turn E)
  else
    match choice player with
    | None => if a0 =? 20 then call (end_turn E) else raiseM UnhandledAction
    | Some cards =>
        let* c := index cards a1 in
        call (choice_choose E c)
    end.

(** The [try] block on whatever the caller passed as [a]: subscripting the
    integer [-1] raises [TypeError]. *)
Definition performAction_try (p : pid) (a : pyact) : M unit :=
  match a with
  | NoAct => raiseM TypeError
  | Act a0 a1 => performAction_body p a0 a1
  end.

(** The [except IndexError] handler: [end_turn] with [GameOver] swallowed. *)
Definition recover_index (g : Game) : Game * option exn :=
  match end_turn E g with
  | (g2, Some GameOver) => (g2, None)
  | r => r
  end.

(** The whole method: the game after the call and the exception that
    leaves it, if any. *)
Definition performAction (a : pyact) (g : Game) : Game * option exn :=
  let player := current_player g in
  if ended g then (g, None)
  else
    match performAction_try player a g with
    | (g1, Ret _) => (g1, None)
    | (g1, Raise UnhandledAction) => (g1, Some UnhandledAction)
    | (g1, Raise InvalidAction) => end_turn E g1
    | (g1, Raise IndexError) => recover_index g1
    | (g1, Raise GameOver) => (g1, None)
    | (g1, Raise e) => (g1, Some e)
    end.

(** *** [YEET.getNextState] *)

Definition getNextState (player : Z) (action : pyact) (g : Game)
  : Game * res (state * Z) :=
  match performAction action g with
  | (g1, None) | (g1, Some GameOver) =>
      let next_state := getState E g1 in
      match action with
      | NoAct => (g1, Raise TypeError)
      | Act a0 _ =>
          if negb (a0 =? 19) then (g1, Ret (next_state, player))
          else (g1, Ret (next_state, - player))
      end
  | (g1, Some e) => (g1, Raise e)
  end.

(** *** [YEET.getGameEnded] *)

(** The draw value [0.0001]. *)
Definition draw_value : Q := 1 # 10000.

Definition getGameEnded (g : Game) : Game * Q :=
  let p1 := player_of g (player_to_start g) in
  if playstate p1 =? 4 then (g, 1%Q)
  else if playstate p1 =? 5 then (g, (-1)%Q)
  else if playstate p1 =? 6 then (g, draw_value)
  else if 180 <? turn g then (set_ended g true, draw_value)
  else (g, 0%Q).

(** *** [YEET.stringRepresentation] *)

(** The four little-endian bytes of an int32 entry. *)
Definition int32_bytes (z : Z) : list Z :=
  let u := z mod 4294967296 in
  [u mod 256; (u / 256) mod 256; (u / 65536) mod 256; (u / 16777216) mod 256].

(** [state.tostring()] *)
Definition stringRepresentation (s : state) : fp := s ≫= int32_bytes.

End Adapter.

(** ** The random source *)

(** The raw draws the generator will deliver, in order (zeros once the list
    is used up). *)
Definition Rng := list nat.

(** [random._randbelow(n)] *)
Definition randbelow (n : nat) (r : Rng) : nat * Rng :=
  match r with
  | [] => (0%nat, [])
  | x :: r' => ((x mod n)%nat, r')
  end.

(** [x[i], x[j] = x[j], x[i]] *)
Definition swap {A} (l : list A) (i j : nat) : list A :=
  match l !! i, l !! j with
  | Some x, Some y => <[j := x]> (<[i := y]> l)
  | _, _ => l
  end.

(** [random.shuffle]: for [i] from [len(x) - 1] down to [1], swap [x[i]]
    with [x[randbelow(i + 1)]]. *)
Fixpoint shuffle_from {A} (i : nat) (l : list A) (r : Rng) : list A * Rng :=
  match i with
  | O => (l, r)
  | S i' =>
      let (j, r') := randbelow (S i) r in
      shuffle_from i' (swap l i j) r'
  end.

Definition shuffle {A} (l : list A) (r : Rng) : list A * Rng :=
  shuffle_from (length l - 1) l r.

(** [random.choice(seq)]: [None] stands for [IndexError] on an empty
    sequence. *)
Definition random_choice {A} (l : list A) (r : Rng) : option (A * Rng) :=
  match l with
  | [] => None
  | _ => let (i, r') := randbelow (length l) r in
         match l !! i with
         | Some x => Some (x, r')
         | None => None
         end
  end.

(** [sorted(l)] on entity ids. *)
Definition sorted (l : list card) : list card := merge_sort Z.le l.

(** ** The search engine ([MCTS.py]) *)

Global Instance pyact_eq_dec : EqDecision pyact.
Proof. solve_decision. Defined.

Global Instance pyact_countable : Countable pyact.
Proof.
  refine (inj_countable'
            (fun a => match a with NoAct => None | Act a0 a1 => Some (a0, a1) end)
            (fun o => match o with None => NoAct | Some (a0, a1) => Act a0 a1 end) _).
  intros []; reflexivity.
Defined.

(** [EPS = 1e-8] *)
Definition EPS : Q := 1 # 100000000.

(** [args] *)
Record Args := mkArgs {
  numMCTSSims : nat;
  cpuct : Q
}.

(** The statistics dictionaries of an [MCTS] object. *)
Record MCTS := mkMCTS {
  Qsa : gmap (fp * pyact) Q;       (* Q values for s,a *)
  Nsa : gmap (fp * pyact) Z;       (* #times edge s,a was visited *)
  Ns : gmap fp Z;                  (* #times board s was visited *)
  Ps : gmap fp (Z -> Z -> Q);      (* initial policy *)
  Es : gmap fp Q;                  (* getGameEnded for board s *)
  Vs : gmap fp (Z -> Z -> bool)    (* getValidMoves for board s *)
}.

(** [MCTS.__init__] *)
Definition MCTS_init : MCTS := mkMCTS ∅ ∅ ∅ ∅ ∅ ∅.

(** [k in d] *)
Definition mem `{Countable K} {V} (d : gmap K V) (k : K) : bool :=
  match d !! k with Some _ => true | None => false end.

(** How a run of the search ends: normally, by an exception that leaves
    it, or with a loop still running when the fuel is used up. *)
Inductive outcome (A : Type) :=
| Done (x : A)
| Failed (e : exn)
| OutOfFuel.
Arguments Done {A} x.
Arguments Failed {A} e.
Arguments OutOfFuel {A}.

(** [for a in range(21) for b in range(18)] *)
Definition grid : list (Z * Z) := a ← range 21; b ← range 18; [(a, b)].

(** [np.sum] of a 21x18 array. *)
Definition grid_sum (f : Z -> Z -> Q) : Q :=
  fold_left (fun acc ab => (acc + f ab.1 ab.2)%Q) grid 0%Q.

(** An entry of the mask as the number numpy multiplies with. *)
Definition mask_val (b : bool) : Q := if b then 1%Q else 0%Q.

(** [u > cur_best], where [None] is [-float('inf')]. *)
Definition above (u : Q) (cur_best : option Q) : bool :=
  match cur_best with
  | None => true
  | Some c => negb (Qle_bool u c)
  end.



(** [sum] of a list of floats. *)
Definition Qsum (l : list Q) : Q := fold_left Qplus l 0%Q.


Section Search.

Context {World : Type} (E : Env World) (args : Args).
Local Abbreviation Game := (Game World).

(** *** [MCTS.cloneAndRandomize] *)

(** The deep copy is the value itself; the two shuffles act on the copy. *)
Definition cloneAndRandomize (game : Game) (r : Rng) : Game * Rng :=
  let game_copy := game in
  let enemy := opponent (current_player game_copy) in
  let e := player_of game_copy enemy in
  let (h, r1) := shuffle (hand e) r in
  let (d, r2) := shuffle (deck e) r1 in
  (set_player game_copy enemy
     (mkPlayer h d (field e) (hero e) (hero_power e) (choice e) (playstate e)),
   r2).

(** *** [MCTS.search]: selection *)

(** The upper confidence bound of the edge [(s, (a, b))]. The dictionaries
    are read at keys the search has inserted before ([Ps] and [Ns] at
    expansion, [Qsa] and [Nsa] together at backpropagation). *)
Definition ucb (m : MCTS) (s : fp) (a b : Z) : Q :=
  let P := default (fun _ _ => 0%Q) (Ps m !! s) in
  let n := default 0 (Ns m !! s) in
  match Qsa m !! (s, Act a b) with
  | Some q =>
      (q + cpuct args * P a b * sqrt E (inject_Z n)
           / (1 + inject_Z (default 0%Z (Nsa m !! (s, Act a b)))))%Q
  | None => (cpuct args * P a b * sqrt E (inject_Z n + EPS))%Q
  end.

(** One turn of the double loop over the action grid. *)
Definition scan_step (m : MCTS) (s : fp) (valids : Z -> Z -> bool)
    (acc : option Q * pyact) (ab : Z * Z) : option Q * pyact :=
  let '(a, b) := ab in
  if valids a b then
    let u := ucb m s a b in
    if above u acc.1 then (Some u, Act a b) else acc
  else acc.

(** [cur_best] and [best_act] after the scan. *)
Definition scan (m : MCTS) (s : fp) (valids : Z -> Z -> bool) : option Q * pyact :=
  fold_left (scan_step m s valids) grid (None, NoAct).

Definition path_t := list (fp * pyact * pid).

(** The [# Select] loop. It returns the clone, the current fingerprint,
    [next_s] and the path. *)
Fixpoint select (fuel : nat) (m : MCTS) (g : Game) (s : fp) (next_s : state)
    (path : path_t) : outcome (Game * fp * state * path_t) :=
  if negb (mem (Es m) s) && mem (Ps m) s && negb (ended g) then
    match fuel with
    | O => OutOfFuel
    | S fuel' =>
        let valids := getValidMoves E g in
        let best_act := (scan m s valids).2 in
        let player := current_player g in
        match getNextState E 1 best_act g with
        | (g1, Raise GameOver) => Done (g1, s, next_s, path)
        | (g1, Raise e) => Failed e
        | (g1, Ret (next_s', next_player)) =>
            select fuel' m g1 (stringRepresentation next_s') next_s'
                   (path ++ [(s, best_act, player)])
        end
    end
  else Done (g, s, next_s, path).

(** [if game_copy.ended: self.Es[s] = self.game.getGameEnded(game_copy)] *)
Definition record_end (m : MCTS) (g : Game) (s : fp) : MCTS * Game :=
  if ended g then
    let (g1, r) := getGameEnded g in
    (mkMCTS (Qsa m) (Nsa m) (Ns m) (Ps m) (<[s := r]> (Es m)) (Vs m), g1)
  else (m, g).

(** *** [MCTS.search]: expansion *)

(** [self.Ps[s]*valids + valids*game_copy.current_decay] *)
Definition masked (P : Z -> Z -> Q) (valids : Z -> Z -> bool) (decay : Q)
  : Z -> Z -> Q :=
  fun a b => (P a b * mask_val (valids a b) + mask_val (valids a b) * decay)%Q.

(** [self.Ps[s] /= np.sum(self.Ps[s])] *)
Definition renormalize (P : Z -> Z -> Q) : Z -> Z -> Q :=
  let sum_Ps_s := grid_sum P in
  fun a b => (P a b / sum_Ps_s)%Q.

(** The [# Expand] block; [v] is unbound ([None]) before it. *)
Definition expand (m : MCTS) (g : Game) (s : fp) (next_s : state)
  : MCTS * option Q :=
  if negb (mem (Es m) s) && negb (mem (Ps m) s) then
    let (P, v) := predict E next_s in
    let valids := getValidMoves E g in
    let P' := renormalize (masked P valids (current_decay g)) in
    let m' := mkMCTS (Qsa m) (Nsa m) (<[s := 0]> (Ns m)) (<[s := P']> (Ps m))
                     (Es m) (<[s := valids]> (Vs m)) in
    if negb (pid_eqb (current_player g) (player_to_start g))
    then (m', Some (- v)%Q)
    else (m', Some v)
  else (m, None).

(** *** [MCTS.search]: rollout *)

(** [np.argwhere(valids)]: the legal actions in row-major order. *)
Definition argwhere (valids : Z -> Z -> bool) : list pyact :=
  (fun ab => Act ab.1 ab.2) <$> filter (fun ab => valids ab.1 ab.2 = true) grid.

(** The [# Simulate] loop. It returns the clone, the current fingerprint
    and the random source ([next_s] is not read after the loop). *)
Fixpoint simulate (fuel : nat) (m : MCTS) (g : Game) (s : fp) (r : Rng)
  : outcome (Game * fp * Rng) :=
  if negb (mem (Es m) s) && negb (ended g) then
    match fuel with
    | O => OutOfFuel
    | S fuel' =>
        let choices := argwhere (getValidMoves E g) in
        match random_choice choices r with
        | None => Failed IndexError
        | Some (act, r1) =>
            match getNextState E 1 act g with
            | (g1, Raise GameOver) => Done (g1, s, r1)
            | (g1, Raise e) => Failed e
            | (g1, Ret (next_s, next_player)) =>
                simulate fuel' m g1 (stringRepresentation next_s) r1
            end
        end
    end
  else Done (g, s, r).

(** [if s not in self.Es and game_copy.ended:
       v = 0.7*v + 0.3*self.game.getGameEnded(game_copy)] *)
Definition blend (m : MCTS) (g : Game) (s : fp) (v : option Q)
  : res (Game * option Q) :=
  if negb (mem (Es m) s) && ended g then
    match v with
    | None => Raise NameError
    | Some x =>
        let (g1, r) := getGameEnded g in
        Ret (g1, Some ((7 # 10) * x + (3 # 10) * r)%Q)
    end
  else Ret (g, v).

(** *** [MCTS.search]: backpropagation *)

(** The body of [for ele in path]; [root] is [game_copy.player_to_start]. *)
Definition backprop_step (root : pid) (v : Q) (m : MCTS) (ele : fp * pyact * pid)
  : MCTS :=
  let '(s, a, player) := ele in
  let m1 :=
    match Nsa m !! (s, a) with
    | None =>
        mkMCTS (<[(s, a) := 0%Q]> (Qsa m)) (<[(s, a) := 1]> (Nsa m))
               (Ns m) (Ps m) (Es m) (Vs m)
    | Some n =>
        mkMCTS (Qsa m) (<[(s, a) := n + 1]> (Nsa m)) (Ns m) (Ps m) (Es m) (Vs m)
    end in
  let n := inject_Z (default 0 (Nsa m1 !! (s, a))) in
  let q := default 0%Q (Qsa m1 !! (s, a)) in
  let q' :=
    if pid_eqb player root then ((n * q + v) / (n + 1))%Q
    else ((n * q - v) / (n + 1))%Q in
  mkMCTS (<[(s, a) := q']> (Qsa m1)) (Nsa m1) (Ns m1) (Ps m1) (Es m1) (Vs m1).

(** The [# Backpropagate] block; reading an unbound [v] raises. *)
Definition backpropagate (m : MCTS) (g : Game) (s : fp) (v : option Q)
    (path : path_t) : res MCTS :=
  let v := match Es m !! s with Some x => Some x | None => v end in
  match path, v with
  | [], _ => Ret m
  | _ :: _, None => Raise NameError
  | _ :: _, Some x => Ret (fold_left (backprop_step (player_to_start g) x) path m)
  end.

(** *** [MCTS.search] *)

(** One simulation on the statistics [m], from the real game [game] and
    the encoding [state0] of the root. *)
Definition search (fuel : nat) (m : MCTS) (game : Game) (r : Rng)
    (state0 : state) (create_copy : bool) : outcome (MCTS * Rng) :=
  if create_copy then
    let (game_copy, r1) := cloneAndRandomize game r in
    let next_s := state0 in
    let s := stringRepresentation state0 in
    match select fuel m game_copy s next_s [] with
    | OutOfFuel => OutOfFuel
    | Failed e => Failed e
    | Done (g1, s1, next_s1, path) =>
        let (m1, g2) := record_end m g1 s1 in
        let (m2, v) := expand m1 g2 s1 next_s1 in
        match simulate fuel m2 g2 s1 r1 with
        | OutOfFuel => OutOfFuel
        | Failed e => Failed e
        | Done (g3, s2, r2) =>
            match blend m2 g3 s2 v with
            | Raise e => Failed e
            | Ret (g4, v1) =>
                match backpropagate m2 g4 s2 v1 path with
                | Raise e => Failed e
                | Ret m3 => Done (m3, r2)
                end
            end
        end
    end
  else Failed NameError.

(** *** [MCTS.getActionProb] *)

(** [for i in range(k): self.search(state, create_copy=True)] *)
Fixpoint run_sims (k : nat) (fuel : nat) (m : MCTS) (game : Game) (r : Rng)
    (state0 : state) : outcome (MCTS * Rng) :=
  match k with
  | O => Done (m, r)
  | S k' =>
      match search fuel m game r state0 true with
      | Done (m1, r1) => run_sims k' fuel m1 game r1 state0
      | Failed e => Failed e
      | OutOfFuel => OutOfFuel
      end
  end.




End Search.

(** ** The scores as the code computes them *)

(** The model of the search carries the statistics as rationals, which is
    exact for their algebra but not for the test [u > cur_best] of the
    scan: two doubles can be equal where the rationals differ, and a double
    can be NaN. For the scan the scores are therefore also given as the
    code computes them, in IEEE 754 binary64 (Python's [float] and numpy's
    [float64]), with the rounding of every operation. *)

(** The statistics as the code holds them. *)
Record Doubles := mkDoubles {
  dQsa : gmap (fp * pyact) PrimFloat.float;
  dNsa : gmap (fp * pyact) Z;
  dNs : gmap fp Z;
  dPs : gmap fp (Z -> Z -> PrimFloat.float)
}.

Section SearchDoubles.

Import PrimFloat.
Local Open Scope float_scope.

(** [float(z)] for an integer below 2^1024: the nearest double, ties to
    even. *)
Definition of_int (z : Z) : float :=
  FloatOps.SF2Prim (SpecFloat.binary_normalize FloatOps.prec FloatOps.emax z 0 false).

(** The double that the literal [1e-8] denotes. *)
Definition EPS_double : float := 0x1.5798ee2308c3ap-27.

Variables (cpuct : float) (d : Doubles) (s : fp) (valids : Z -> Z -> bool).

(** The upper confidence bound of the edge [(s, (a, b))], with the
    dictionaries read as in [ucb]. *)
Definition ucb_double (a b : Z) : float :=
  let P := default (fun _ _ => 0) (dPs d !! s) in
  let n := default 0%Z (dNs d !! s) in
  match dQsa d !! (s, Act a b) with
  | Some q =>
      q + cpuct * P a b * sqrt (of_int n)
          / of_int (1 + default 0%Z (dNsa d !! (s, Act a b)))
  | None => cpuct * P a b * sqrt (of_int n + EPS_double)
  end.

(** One turn of the double loop over the action grid: [if u > cur_best]. *)
Definition scan_step_double (acc : float * pyact) (ab : Z * Z) : float * pyact :=
  let '(a, b) := ab in
  if valids a b then
    let u := ucb_double a b in
    if acc.1 <? u then (u, Act a b) else acc
  else acc.

(** [cur_best] and [best_act] after the scan, from [-float('inf')] and
    [-1]. *)
Definition scan_double : float * pyact :=
  fold_left scan_step_double grid (neg_infinity, NoAct).

End SearchDoubles.

(** ** A small rule engine to run the code on *)

(** Two players and no board. Playing a card is always rejected by the
    engine; ending the turn passes the move, and the third turn ends the
    game with a win for [PlayerA]. The mask offers the first hand card (if
    there is one) and the end of the turn; the oracle puts all its mass on
    the first hand card and values every state at -1/2. *)
Module Demo.

Definition G := Game unit.

Definition with_playstate (p : Player) (ps : Z) : Player :=
  mkPlayer (hand p) (deck p) (field p) (hero p) (hero_power p) (choice p) ps.

Definition demo_end_turn (g : G) : G * option exn :=
  let t := turn g + 1 in
  if 3 <=? t then
    (mkGame (with_playstate (playerA g) 4) (with_playstate (playerB g) 5)
            (opponent (current_player g)) (player_to_start g) t true
            (current_decay g) tt,
     Some GameOver)
  else
    (mkGame (playerA g) (playerB g) (opponent (current_player g))
            (player_to_start g) t (ended g) (current_decay g) tt,
     None).

Definition demo_getState (g : G) : state :=
  [turn g; match current_player g with PlayerA => 1 | PlayerB => 0 end].

Definition demo_getValidMoves (g : G) (a b : Z) : bool :=
  ((a =? 19) && (b =? 1))
  || ((a =? 0) && (b =? 0)
      && match hand (player_of g (current_player g)) with [] => false | _ => true end).

(** The square root to eight decimal places. *)
Definition demo_sqrt (x : Q) : Q :=
  Z.sqrt (Qfloor (x * 10000000000000000)) # 100000000.

Definition demo : Env unit :=
  mkEnv (fun _ _ => false) (fun _ _ => false)
        (fun _ _ => []) (fun _ _ => []) (fun _ _ => []) (fun _ _ => [])
        (fun _ _ _ g => (g, Some InvalidAction))
        (fun _ _ g => (g, Some InvalidAction))
        (fun _ _ g => (g, Some InvalidAction))
        (fun _ g => (g, Some InvalidAction))
        demo_end_turn
        demo_getState
        demo_getValidMoves
        (fun _ => (fun a b => if (a =? 0) && (b =? 0) then 1%Q else 0%Q, (- (1 # 2))%Q))
        demo_sqrt
        (fun x _ => Ret x).

Definition player0 (h d : list card) : Player := mkPlayer h d [] 100 101 None 1.

(** A fresh game: first turn, [PlayerA] to move. *)
Definition game0 (hA dA hB dB : list card) : G :=
  mkGame (player0 hA dA) (player0 hB dB) PlayerA PlayerA 1 false 1%Q tt.

(** No cards in hand: ending the turn is the only legal move. *)
Definition bare : G := game0 [] [] [] [].

(** One card in every hand. *)
Definition dealt : G := game0 [7] [8; 9] [17; 18; 19] [20; 21].

(** The same position at turn 181. *)
Definition late : G :=
  mkGame (player0 [] []) (player0 [] []) PlayerA PlayerA 181 false 1%Q tt.

(** [dealt] after [PlayerA] has ended the turn. *)
Definition passed : G :=
  mkGame (player0 [7] [8; 9]) (player0 [17; 18; 19] [20; 21])
         PlayerB PlayerA 2 false 1%Q tt.


Definition args2 : Args := mkArgs 2 10.

(** The fingerprint of the root of a game and of the state one turn later. *)
Definition root (g : G) : fp := stringRepresentation (demo_getState g).
Definition second (g : G) : fp := stringRepresentation [turn g + 1; 0].

(** [k] simulations on a fresh [MCTS] object, and what they leave. *)
Definition sims (g : G) (k : nat) : outcome (MCTS * Rng) :=
  run_sims demo args2 k 10 MCTS_init g [] (demo_getState g).

Definition store_after (g : G) (k : nat) : MCTS :=
  match sims g k with Done (m, _) => m | _ => MCTS_init end.

Definition rng_after (g : G) (k : nat) : Rng :=
  match sims g k with Done (_, r) => r | _ => [] end.

End Demo.

(** The engine of [Demo] with two rules of the real engine: the turn cannot
    be ended while a player has an open choice ([end_turn] then raises
    [InvalidAction]), and a player with an open choice is offered the cards
    of the choice and nothing else. *)
Module Strict.

Import Demo.

Definition open_choice (g : G) : bool :=
  match choice (playerA g), choice (playerB g) with
  | None, None => false
  | _, _ => true
  end.

Definition strict_end_turn (g : G) : G * option exn :=
  if open_choice g then (g, Some InvalidAction) else demo_end_turn g.

(** The mask of [Demo], and the cards of the choice when the player to
    move has one to make. *)
Definition strict_getValidMoves (g : G) (a b : Z) : bool :=
  match choice (player_of g (current_player g)) with
  | Some cards => (a =? 20) && (0 <=? b) && (b <? Z.of_nat (length cards))
  | None => demo_getValidMoves g a b
  end.

Definition strict : Env unit :=
  mkEnv (fun _ _ => false) (fun _ _ => false)
        (fun _ _ => []) (fun _ _ => []) (fun _ _ => []) (fun _ _ => [])
        (fun _ _ _ g => (g, Some InvalidAction))
        (fun _ _ g => (g, Some InvalidAction))
        (fun _ _ g => (g, Some InvalidAction))
        (fun _ g => (g, Some InvalidAction))
        strict_end_turn
        demo_getState
        strict_getValidMoves
        (fun _ => (fun a b => if (a =? 0) && (b =? 0) then 1%Q else 0%Q, (- (1 # 2))%Q))
        demo_sqrt
        (fun x _ => Ret x).

(** The game [dealt] while the opponent still has a choice between two
    cards to make. *)
Definition waiting : G :=
  mkGame (player0 [7] [8; 9])
         (mkPlayer [17; 18; 19] [20; 21] [] 100 101 (Some [5; 6]) 1)
         PlayerA PlayerA 1 false 1%Q tt.


End Strict.

(** The engine of [Demo] with an oracle whose prior is negative on the
    first hand card. *)
Module Skewed.

Import Demo.


End Skewed.

(** The engine of [Demo] with a power that is out of range, as that of a
    double is, for a base of at least 2 and an exponent of at least 1024. *)
Module Overflow.

Import Demo.



Definition args3 : Args := mkArgs 3 10.

End Overflow.

(** An engine whose feature vector tells only whose turn it is. Ending the
    turn passes the move to the other player, who draws the top card of the
    deck; the fifth turn ends the game with a loss for [PlayerA]. Playing a
    card is rejected, the mask is that of [Demo], and the oracle puts all
    its mass on the end of the turn and values every state at 1/2. *)
Module Coarse.

Import Demo.





(** First turn, [PlayerA] to move with an empty hand and one card in the
    deck: ending the turn is the only legal move. *)
Definition start : G := game0 [] [7] [] [].


Definition args3 : Args := mkArgs 3 10.

End Coarse.

(** Statistics in doubles at a node with three legal actions: the priors of
    (0, 0) and (0, 1) are two neighbouring doubles, the second the larger,
    and the end of the turn (19, 1) has been visited once with the value
    -1/2. Two more stores hold a NaN and an infinity. *)
Module Tie.

Import PrimFloat.
Local Open Scope float_scope.

Definition node : fp := [1%Z; 0%Z; 0%Z; 0%Z].

Definition prior (a b : Z) : float :=
  if (a =? 0)%Z && (b =? 0)%Z then 0x1.0624dd2f1a9fcp-10
  else if (a =? 0)%Z && (b =? 1)%Z then 0x1.0624dd2f1a9fdp-10
  else if (a =? 19)%Z && (b =? 1)%Z then 0x1p-1
  else 0.

Definition legal (a b : Z) : bool :=
  ((a =? 0)%Z && ((b =? 0)%Z || (b =? 1)%Z)) || ((a =? 19)%Z && (b =? 1)%Z).

Definition store : Doubles :=
  mkDoubles {[ (node, Act 19 1) := (-0x1p-1) ]} {[ (node, Act 19 1) := 1%Z ]}
            {[ node := 0%Z ]} {[ node := prior ]}.

Definition cpuct10 : float := 10.

(** The same node when the stored priors are NaN. *)
Definition store_nan : Doubles :=
  mkDoubles ∅ ∅ {[ node := 0%Z ]} {[ node := fun _ _ => nan ]}.

(** The same node when the end of the turn is the only legal action and the
    value stored for it is [-inf]. *)
Definition only_end_turn (a b : Z) : bool := (a =? 19)%Z && (b =? 1)%Z.

Definition store_inf : Doubles :=
  mkDoubles {[ (node, Act 19 1) := neg_infinity ]} {[ (node, Act 19 1) := 1%Z ]}
            {[ node := 0%Z ]} {[ node := prior ]}.

End Tie.

(** * Properties *)

(** ** The adapter *)

Section AdapterFacts.

Context {World : Type} (E : Env World).
Local Abbreviation Game := (Game World).

Lemma performAction_not_ended a (g : Game) :
  ended g = false ->
  performAction E a g =
    match performAction_try E (current_player g) a g with
    | (g1, Ret _) => (g1, None)
    | (g1, Raise UnhandledAction) => (g1, Some UnhandledAction)
    | (g1, Raise InvalidAction) => end_turn E g1
    | (g1, Raise IndexError) => recover_index E g1
    | (g1, Raise GameOver) => (g1, None)
    | (g1, Raise e) => (g1, Some e)
    end.
Proof. intros H. unfold performAction. rewrite H. reflexivity. Qed.

Lemma index_None {A} (l : list A) i (g : Game) :
  py_index l i = None -> index l i g = (g, Raise IndexError).
Proof. intros H. unfold index. rewrite H. reflexivity. Qed.

(** What [performAction] hands on of the exception that the recovering
    [end_turn] raised: the handler of [IndexError] swallows [GameOver], the
    handler of [InvalidAction] swallows nothing. *)
Definition handed_on (rejection : exn) (e2 : option exn) : option exn :=
  match rejection, e2 with
  | IndexError, Some GameOver => None
  | _, _ => e2
  end.

(** C9, as the code has it: when the attempt to apply an action raises
    [InvalidAction] or [IndexError], [performAction] neither hands that
    exception on nor restores the game: it calls [end_turn] on the game the
    attempt left, and leaves the game that call leaves together with the
    exception that call raised ([GameOver] swallowed after an
    [IndexError]). So it returns normally when [end_turn] returns, and an
    exception of [end_turn] leaves it. The attempt raises [IndexError],
    before any engine call, when the slot or the target is out of range,
    and [InvalidAction] when the engine refuses the play. *)
Theorem performAction_rejected_ends_turn a0 a1 (g : Game) :
  ended g = false ->
  let player := player_of g (current_player g) in
  let attempt := performAction_try E (current_player g) (Act a0 a1) g in
  (forall rejection g1 g2 e2,
      attempt = (g1, Raise rejection) ->
      rejection = InvalidAction \/ rejection = IndexError ->
      end_turn E g1 = (g2, e2) ->
      performAction E (Act a0 a1) g = (g2, handed_on rejection e2)
      /\ (e2 = None -> performAction E (Act a0 a1) g = (g2, None))
      /\ (g2 <> g -> (performAction E (Act a0 a1) g).1 <> g))
  /\ (0 <= a0 <= 9 -> py_index (hand player) a0 = None ->
      attempt = (g, Raise IndexError))
  /\ (10 <= a0 <= 16 -> py_index (field player) (a0 - 10) = None ->
      attempt = (g, Raise IndexError))
  /\ (forall c, 0 <= a0 <= 9 -> py_index (hand player) a0 = Some c ->
      requires_target E g c = true -> py_index (targets E g c) a1 = None ->
      attempt = (g, Raise IndexError))
  /\ (forall c g1, 0 <= a0 <= 9 -> py_index (hand player) a0 = Some c ->
      requires_target E g c = false -> must_choose_one E g c = false ->
      card_play E c None None g = (g1, Some InvalidAction) ->
      attempt = (g1, Raise InvalidAction)).
Proof.
  intros Hend player attempt. subst attempt.
  assert (Hhand : 0 <= a0 <= 9 -> ((0 <=? a0) && (a0 <=? 9)) = true)
    by (intros; apply andb_true_iff; split; apply Z.leb_le; lia).
  split; [|split; [|split; [|split]]].
  - intros rejection g1 g2 e2 Htry Hrej Hturn.
    assert (Hp : performAction E (Act a0 a1) g = (g2, handed_on rejection e2)).
    { rewrite performAction_not_ended by done. rewrite Htry.
      destruct Hrej as [-> | ->].
      - rewrite Hturn. by destruct e2 as [[]|].
      - unfold recover_index. rewrite Hturn. by destruct e2 as [[]|]. }
    split; [exact Hp|]. split.
    + intros ->. rewrite Hp. by destruct rejection.
    + intros Hne. by rewrite Hp.
  - intros Hrange Hidx. cbn [performAction_try].
    unfold performAction_body, bindM, getM. fold player.
    rewrite (Hhand Hrange). by rewrite (index_None _ _ _ Hidx).
  - intros Hrange Hidx. cbn [performAction_try].
    unfold performAction_body, bindM, getM. fold player.
    replace ((0 <=? a0) && (a0 <=? 9)) with false
      by (symmetry; apply andb_false_iff; right; apply Z.leb_gt; lia).
    replace ((10 <=? a0) && (a0 <=? 16)) with true
      by (symmetry; apply andb_true_iff; split; apply Z.leb_le; lia).
    by rewrite (index_None _ _ _ Hidx).
  - intros c Hrange Hc Hreq Hidx. cbn [performAction_try].
    unfold performAction_body, bindM, getM. fold player.
    rewrite (Hhand Hrange). unfold index at 1. rewrite Hc. cbn [retM].
    rewrite Hreq. by rewrite (index_None _ _ _ Hidx).
  - intros c g1 Hrange Hc Hreq Hchoose Hplay. cbn [performAction_try].
    unfold performAction_body, bindM, getM. fold player.
    rewrite (Hhand Hrange). unfold index at 1. rewrite Hc. cbn [retM].
    rewrite Hreq, Hchoose. unfold call. by rewrite Hplay.
Qed.

(** C8: for a player id [1] or [-1], a call of [getNextState] that returns
    gives back the negated id exactly when the slot of the action is 19,
    and the id itself for every other slot. *)
Theorem getNextState_next_player (player a0 a1 : Z) (g : Game) :
  player = 1 \/ player = -1 ->
  (forall e, (performAction E (Act a0 a1) g).2 = Some e -> e = GameOver) ->
  exists g1 next_player,
    getNextState E player (Act a0 a1) g = (g1, Ret (getState E g1, next_player))
    /\ g1 = (performAction E (Act a0 a1) g).1
    /\ (next_player = - player <-> a0 = 19)
    /\ (a0 <> 19 -> next_player = player).
Proof.
  intros Hp Hexn. unfold getNextState.
  destruct (performAction E (Act a0 a1) g) as [g1 [e|]] eqn:Hperf; cbn in Hexn.
  - rewrite (Hexn e eq_refl).
    destruct (Z.eqb_spec a0 19) as [->|Hne]; cbn; eexists _, _;
      (split; [reflexivity|]); (split; [reflexivity|]); split; try lia;
      intuition lia.
  - destruct (Z.eqb_spec a0 19) as [->|Hne]; cbn; eexists _, _;
      (split; [reflexivity|]); (split; [reflexivity|]); split; try lia;
      intuition lia.
Qed.

(** C10: past turn 180 with a starting player whose playstate is neither
    won (4), lost (5) nor tied (6), [getGameEnded] returns the draw value
    1/10000, which is not the value 0 of a game that goes on, and sets the
    [ended] flag of the instance, leaving every other field as it was: on
    an instance that was not flagged the call changes the instance. In
    every other case the instance is left as it was and the value is 1, -1,
    1/10000 or 0 by the playstate. *)
Theorem getGameEnded_frame (g : Game) :
  let ps := playstate (player_of g (player_to_start g)) in
  let after := (getGameEnded g).1 in
  let value := (getGameEnded g).2 in
  (180 < turn g -> ps <> 4 -> ps <> 5 -> ps <> 6 ->
   value = (1 # 10000)%Q /\ ~ (value == 0)%Q
   /\ ended after = true
   /\ (ended g = false -> after <> g)
   /\ playerA after = playerA g /\ playerB after = playerB g
   /\ current_player after = current_player g
   /\ player_to_start after = player_to_start g
   /\ turn after = turn g /\ current_decay after = current_decay g
   /\ world after = world g)
  /\ (~ (180 < turn g /\ ps <> 4 /\ ps <> 5 /\ ps <> 6) ->
      after = g
      /\ value = (if ps =? 4 then 1 else if ps =? 5 then -1
                  else if ps =? 6 then 1 # 10000 else 0)%Q).
Proof.
  intros ps after value. subst after value. unfold getGameEnded. fold ps. split.
  - intros Ht H4 H5 H6.
    destruct (Z.eqb_spec ps 4); [done|]. destruct (Z.eqb_spec ps 5); [done|].
    destruct (Z.eqb_spec ps 6); [done|]. destruct (Z.ltb_spec 180 (turn g)); [|lia].
    cbn [fst snd set_ended ended playerA playerB current_player player_to_start
         turn current_decay world].
    split; [reflexivity|]. split; [by intros Hv|]. split; [done|].
    split; [|by repeat split].
    intros He Heq. apply (f_equal ended) in Heq. cbn in Heq. congruence.
  - intros Hn.
    destruct (Z.eqb_spec ps 4); [done|]. destruct (Z.eqb_spec ps 5); [done|].
    destruct (Z.eqb_spec ps 6); [done|]. destruct (Z.ltb_spec 180 (turn g)); [|done].
    exfalso. apply Hn. done.
Qed.

End AdapterFacts.

(** ** The determinizer *)

Section Shuffle.

Context {A : Type}.
Implicit Types l : list A.

Lemma insert_head_perm l j x y :
  l !! j = Some y -> y :: <[j := x]> l ≡ₚ x :: l.
Proof.
  revert j. induction l as [|b l IH]; intros [|j] H; simplify_eq/=.
  - apply perm_swap.
  - rewrite perm_swap, (IH j H). apply perm_swap.
Qed.

Lemma swap_perm l i j : swap l i j ≡ₚ l.
Proof.
  unfold swap. destruct (l !! i) as [x|] eqn:Hi; [|done].
  destruct (l !! j) as [y|] eqn:Hj; [|done].
  revert i j Hi Hj. induction l as [|b l IH]; intros [|i] [|j] Hi Hj;
    simplify_eq/=; try done.
  - by apply insert_head_perm.
  - by apply insert_head_perm.
  - by rewrite IH.
Qed.

Lemma swap_length l i j : length (swap l i j) = length l.
Proof.
  unfold swap. destruct (l !! i); [|done]. destruct (l !! j); [|done].
  by rewrite !length_insert.
Qed.

Lemma shuffle_from_perm i l r : (shuffle_from i l r).1 ≡ₚ l.
Proof.
  revert l r. induction i as [|i IH]; intros l r; [done|].
  cbn [shuffle_from]. destruct (randbelow (S (S i)) r) as [j r'].
  rewrite IH. apply swap_perm.
Qed.

Lemma shuffle_perm l r : (shuffle l r).1 ≡ₚ l.
Proof. apply shuffle_from_perm. Qed.

End Shuffle.

Lemma sorted_perm (l1 l2 : list card) : l1 ≡ₚ l2 -> sorted l1 = sorted l2.
Proof.
  intros H. unfold sorted.
  apply (Sorted_unique Z.le); try apply Sorted_merge_sort; try apply _.
  by rewrite !merge_sort_Permutation.
Qed.

Section Determinizer.

Context {World : Type}.
Local Abbreviation Game := (Game World).

(** C7: the clone holds the opponent's hand and deck as permutations of the
    original ones, so that the sorted concatenation of hand and deck is the
    same; the acting player's record, the rest of the opponent's record and
    every other field of the game are those of the original. *)
Theorem cloneAndRandomize_preserves_cards (game : Game) (r : Rng) :
  let clone := (cloneAndRandomize game r).1 in
  let me := current_player game in
  let opp := opponent me in
  sorted (hand (player_of clone opp) ++ deck (player_of clone opp))
    = sorted (hand (player_of game opp) ++ deck (player_of game opp))
  /\ hand (player_of clone opp) ≡ₚ hand (player_of game opp)
  /\ deck (player_of clone opp) ≡ₚ deck (player_of game opp)
  /\ player_of clone me = player_of game me
  /\ (field (player_of clone opp), hero (player_of clone opp),
      hero_power (player_of clone opp), choice (player_of clone opp),
      playstate (player_of clone opp))
     = (field (player_of game opp), hero (player_of game opp),
        hero_power (player_of game opp), choice (player_of game opp),
        playstate (player_of game opp))
  /\ (current_player clone, player_to_start clone, turn clone, ended clone,
      current_decay clone, world clone)
     = (current_player game, player_to_start game, turn game, ended game,
        current_decay game, world game).
Proof.
  intros clone me opp. subst clone. unfold cloneAndRandomize. fold me. fold opp.
  pose proof (shuffle_perm (hand (player_of game opp)) r) as Hh.
  destruct (shuffle (hand (player_of game opp)) r) as [h r1]. 
  pose proof (shuffle_perm (deck (player_of game opp)) r1) as Hd.
  destruct (shuffle (deck (player_of game opp)) r1) as [d r2].
  cbn [fst] in *.
  assert (Hopp : player_of (set_player game opp
              (mkPlayer h d (field (player_of game opp)) (hero (player_of game opp))
                 (hero_power (player_of game opp)) (choice (player_of game opp))
                 (playstate (player_of game opp)))) opp
             = mkPlayer h d (field (player_of game opp)) (hero (player_of game opp))
                 (hero_power (player_of game opp)) (choice (player_of game opp))
                 (playstate (player_of game opp)))
    by (destruct opp; reflexivity).
  rewrite Hopp. cbn [hand deck field hero hero_power choice playstate].
  repeat split; try done.
  - apply sorted_perm. by rewrite Hh, Hd.
  - subst opp. destruct me; reflexivity.
  - destruct opp; reflexivity.
Qed.

End Determinizer.

(** ** The action grid *)

Lemma elem_of_range n z : z ∈ range n <-> 0 <= z < Z.of_nat n.
Proof.
  unfold range. rewrite list_elem_of_fmap. split.
  - intros (k & -> & Hk). apply elem_of_seq in Hk. lia.
  - intros H. exists (Z.to_nat z). split; [lia|]. apply elem_of_seq. lia.
Qed.

Lemma elem_of_grid a b : (a, b) ∈ grid <-> 0 <= a < 21 /\ 0 <= b < 18.
Proof.
  unfold grid. rewrite list_elem_of_bind. split.
  - intros (a' & Hb & Ha). apply list_elem_of_bind in Hb as (b' & Hab & Hb).
    apply list_elem_of_singleton in Hab. simplify_eq.
    apply elem_of_range in Ha, Hb. lia.
  - intros [Ha Hb]. exists a. split; [|apply elem_of_range; lia].
    apply list_elem_of_bind. exists b. split; [apply list_elem_of_singleton; done|].
    apply elem_of_range; lia.
Qed.

(** The position of an action in the scan. *)
Definition scan_key (ab : Z * Z) : Z := 18 * ab.1 + ab.2.

Lemma grid_row_major : Sorted (fun x y => scan_key x < scan_key y) grid.
Proof.
  apply (bool_decide_unpack (Sorted (fun x y => scan_key x < scan_key y) grid)).
  vm_compute. reflexivity.
Qed.

Lemma grid_split_before l1 x l2 y :
  grid = l1 ++ x :: l2 -> y ∈ grid -> scan_key y < scan_key x -> y ∈ l1.
Proof.
  intros Hg Hy Hlt.
  pose proof grid_row_major as Hs. rewrite Hg in Hs.
  assert (Transitive (fun x y : Z * Z => scan_key x < scan_key y))
    by (intros ? ? ?; lia).
  apply (Sorted_StronglySorted _) in Hs.
  apply StronglySorted_app in Hs as (_ & _ & Hs2).
  apply StronglySorted_cons in Hs2 as [Hall _].
  rewrite Hg in Hy. apply elem_of_app in Hy as [Hy|Hy]; [done|].
  apply elem_of_cons in Hy as [->|Hy]; [lia|].
  rewrite Forall_forall in Hall. specialize (Hall _ Hy). lia.
Qed.

(** ** Selection *)

Section Selection.

Context {World : Type} (E : Env World) (args : Args).
Variables (m : MCTS) (s : fp) (valids : Z -> Z -> bool).

Local Abbreviation U := (ucb E args m s).

Lemma above_Some u c : above u (Some c) = true <-> (c < u)%Q.
Proof.
  unfold above. rewrite negb_true_iff, <- not_true_iff_false, Qle_bool_iff.
  split; [apply Qnot_le_lt | apply Qlt_not_le].
Qed.

(** What the scan has found after a prefix [l] of the grid. *)
Definition scan_inv (l : list (Z * Z)) (r : option Q * pyact) : Prop :=
  (r = (None, NoAct) /\ forall a b, (a, b) ∈ l -> valids a b = false)
  \/ (exists l1 a b l2,
        l = l1 ++ (a, b) :: l2 /\ valids a b = true
        /\ r = (Some (U a b), Act a b)
        /\ (forall a' b', (a', b') ∈ l1 -> valids a' b' = true -> (U a' b' < U a b)%Q)
        /\ (forall a' b', (a', b') ∈ l2 -> valids a' b' = true -> (U a' b' <= U a b)%Q)).

Lemma scan_inv_fold l :
  scan_inv l (fold_left (scan_step E args m s valids) l (None, NoAct)).
Proof.
  induction l as [|[a b] l IH] using rev_ind.
  - left. split; [done|]. intros a b H. by apply elem_of_nil in H.
  - rewrite fold_left_app. cbn [fold_left].
    set (r := fold_left _ l _) in *. unfold scan_step.
    destruct (valids a b) eqn:Hv.
    + destruct IH as [[-> Hnone] | (l1 & a1 & b1 & l2 & -> & Hv1 & -> & Hlt & Hle)].
      * right. exists l, a, b, []. cbn. repeat split; try done.
        -- intros a' b' Hin Hv'. rewrite (Hnone _ _ Hin) in Hv'. done.
        -- intros a' b' Hin. by apply elem_of_nil in Hin.
      * cbn [fst]. destruct (above (U a b) (Some (U a1 b1))) eqn:Hab.
        -- apply above_Some in Hab. right. exists (l1 ++ (a1, b1) :: l2), a, b, [].
           repeat split; try done.
           ++ intros a' b' Hin Hv'. apply elem_of_app in Hin as [Hin|Hin].
              ** eapply Qlt_trans; [by apply Hlt|done].
              ** apply elem_of_cons in Hin as [Heq|Hin]; [by simplify_eq|].
                 eapply Qle_lt_trans; [by apply Hle|done].
           ++ intros a' b' Hin. by apply elem_of_nil in Hin.
        -- right. exists l1, a1, b1, (l2 ++ [(a, b)]).
           repeat split; try done.
           ++ by rewrite <- app_assoc.
           ++ intros a' b' Hin Hv'. apply elem_of_app in Hin as [Hin|Hin].
              ** by apply Hle.
              ** apply list_elem_of_singleton in Hin. simplify_eq.
                 apply Qnot_lt_le. intros Hc. apply above_Some in Hc. congruence.
    + destruct IH as [[-> Hnone] | (l1 & a1 & b1 & l2 & -> & Hv1 & -> & Hlt & Hle)].
      * left. split; [done|]. intros a' b' Hin.
        apply elem_of_app in Hin as [Hin|Hin]; [by apply Hnone|].
        apply list_elem_of_singleton in Hin. by simplify_eq.
      * right. exists l1, a1, b1, (l2 ++ [(a, b)]). repeat split; try done.
        -- by rewrite <- app_assoc.
        -- intros a' b' Hin Hv'. apply elem_of_app in Hin as [Hin|Hin].
           ++ by apply Hle.
           ++ apply list_elem_of_singleton in Hin. simplify_eq. congruence.
Qed.

End Selection.

(** ** Selection on the scores the code computes *)

Section DoubleOrder.

Import SpecFloat.

Local Ltac order_cases :=
  unfold SFeqb, SFltb, SFleb, SFcompare;
  repeat match goal with
         | x : spec_float |- _ => destruct x as [[]|[]| |[] ? ?]
         end;
  try done;
  repeat match goal with
         | |- context [Z.compare ?a ?b] => destruct (Z.compare_spec a b)
         | |- context [Pos.compare_cont Eq ?a ?b] =>
             change (Pos.compare_cont Eq a b) with (Pos.compare a b);
             destruct (Pos.compare_spec a b)
         end;
  cbn; try done; try lia; auto.

Lemma SFltb_trans x y z :
  SFltb x y = true -> SFltb y z = true -> SFltb x z = true.
Proof. order_cases. Qed.

Lemma SFltb_leb_trans x y z :
  SFltb x y = true -> SFleb y z = true -> SFltb x z = true.
Proof. order_cases. Qed.

Lemma SFltb_leb x y : SFltb x y = true -> SFleb x y = true.
Proof. order_cases. Qed.

Lemma SFltb_not_leb x y : SFltb x y = true -> SFleb y x = false.
Proof. order_cases. Qed.

Lemma SFleb_false x y n :
  SFltb n x = true -> SFleb x y = false ->
  SFltb y x = true \/ SFeqb y y = false.
Proof. order_cases. Qed.

End DoubleOrder.

Section SelectionDoubles.

Import PrimFloat.
Local Open Scope float_scope.

Lemma lt_trans x y z : (x <? y) = true -> (y <? z) = true -> (x <? z) = true.
Proof. rewrite !FloatAxioms.ltb_spec. apply SFltb_trans. Qed.

Lemma lt_le_trans x y z : (x <? y) = true -> (y <=? z) = true -> (x <? z) = true.
Proof. rewrite !FloatAxioms.ltb_spec, FloatAxioms.leb_spec. apply SFltb_leb_trans. Qed.

Lemma lt_le x y : (x <? y) = true -> (x <=? y) = true.
Proof. rewrite FloatAxioms.ltb_spec, FloatAxioms.leb_spec. apply SFltb_leb. Qed.

Lemma lt_not_le x y : (x <? y) = true -> (y <=? x) = false.
Proof. rewrite FloatAxioms.ltb_spec, FloatAxioms.leb_spec. apply SFltb_not_leb. Qed.

Lemma not_le_lt_or_nan x y n :
  (n <? x) = true -> (x <=? y) = false -> (y <? x) = true \/ (y =? y) = false.
Proof.
  rewrite !FloatAxioms.ltb_spec, FloatAxioms.leb_spec, FloatAxioms.eqb_spec.
  apply SFleb_false.
Qed.

Variables (cpuct : float) (d : Doubles) (s : fp) (valids : Z -> Z -> bool).

Local Abbreviation U := (ucb_double cpuct d s).
Local Abbreviation scan_step_double := (scan_step_double cpuct d s valids).
Local Abbreviation scan_double := (scan_double cpuct d s valids).

(** What the scan has found after a prefix [l] of the grid. *)
Definition scan_double_inv (l : list (Z * Z)) (r : float * pyact) : Prop :=
  (r = (neg_infinity, NoAct)
   /\ forall a b, (a, b) ∈ l -> valids a b = true ->
        (neg_infinity <? U a b) = false)
  \/ (exists l1 a b l2,
        l = l1 ++ (a, b) :: l2 /\ valids a b = true
        /\ r = (U a b, Act a b)
        /\ (neg_infinity <? U a b) = true
        /\ (forall a' b', (a', b') ∈ l1 -> valids a' b' = true ->
              (U a b <=? U a' b') = false)
        /\ (forall a' b', (a', b') ∈ l2 -> valids a' b' = true ->
              (U a b <? U a' b') = false)).

Lemma scan_double_inv_fold l :
  scan_double_inv l (fold_left scan_step_double l (neg_infinity, NoAct)).
Proof.
  induction l as [|[a b] l IH] using rev_ind.
  - left. split; [done|]. intros a b H. by apply elem_of_nil in H.
  - rewrite fold_left_app. cbn [fold_left].
    set (r := fold_left _ l _) in *. unfold scan_step_double.
    destruct (valids a b) eqn:Hv.
    + destruct IH as [[-> Hnone]
                     | (l1 & a1 & b1 & l2 & -> & Hv1 & -> & Hinf & Hlt & Hle)];
        cbn [fst].
      * destruct (neg_infinity <? U a b) eqn:Hab.
        -- right. exists l, a, b, []. repeat split; try done.
           ++ intros a' b' Hin Hv'.
              destruct (U a b <=? U a' b') eqn:Hc; [|done].
              specialize (Hnone a' b' Hin Hv').
              by rewrite (lt_le_trans _ _ _ Hab Hc) in Hnone.
           ++ intros a' b' Hin. by apply elem_of_nil in Hin.
        -- left. split; [done|]. intros a' b' Hin Hv'.
           apply elem_of_app in Hin as [Hin|Hin]; [by apply Hnone|].
           apply list_elem_of_singleton in Hin. by simplify_eq.
      * destruct (U a1 b1 <? U a b) eqn:Hab.
        -- right. exists (l1 ++ (a1, b1) :: l2), a, b, [].
           repeat split; try done.
           ++ by eapply lt_trans.
           ++ intros a' b' Hin Hv'.
              destruct (U a b <=? U a' b') eqn:Hc; [|done].
              pose proof (lt_le_trans _ _ _ Hab Hc) as Hbig.
              apply elem_of_app in Hin as [Hin|Hin].
              ** specialize (Hlt a' b' Hin Hv').
                 by rewrite (lt_le _ _ Hbig) in Hlt.
              ** apply elem_of_cons in Hin as [Heq|Hin].
                 { simplify_eq. by rewrite (lt_not_le _ _ Hab) in Hc. }
                 specialize (Hle a' b' Hin Hv'). by rewrite Hbig in Hle.
           ++ intros a' b' Hin. by apply elem_of_nil in Hin.
        -- right. exists l1, a1, b1, (l2 ++ [(a, b)]).
           repeat split; try done.
           ++ by rewrite <- app_assoc.
           ++ intros a' b' Hin Hv'. apply elem_of_app in Hin as [Hin|Hin].
              ** by apply Hle.
              ** apply list_elem_of_singleton in Hin. by simplify_eq.
    + destruct IH as [[-> Hnone]
                     | (l1 & a1 & b1 & l2 & -> & Hv1 & -> & Hinf & Hlt & Hle)].
      * left. split; [done|]. intros a' b' Hin Hv'.
        apply elem_of_app in Hin as [Hin|Hin]; [by apply Hnone|].
        apply list_elem_of_singleton in Hin. simplify_eq. congruence.
      * right. exists l1, a1, b1, (l2 ++ [(a, b)]). repeat split; try done.
        -- by rewrite <- app_assoc.
        -- intros a' b' Hin Hv'. apply elem_of_app in Hin as [Hin|Hin].
           ++ by apply Hle.
           ++ apply list_elem_of_singleton in Hin. simplify_eq. congruence.
Qed.

(** C3, as the code has it: the score of a legal action is
    [Q + cpuct*P*sqrt(N)/(1+Nsa)] on a visited edge and
    [cpuct*P*sqrt(N + EPS)] otherwise, in doubles. When some legal action
    of the 21x18 grid has a score above [-inf], the scan ends on a legal
    action whose score no legal action exceeds, and every legal action met
    earlier in the row-major scan has a strictly smaller score (or a score
    that is NaN): among the legal actions of maximal score the first one is
    picked. When no legal action has a score above [-inf] (none is legal,
    or all the scores are NaN or [-inf]) the scan keeps its initial [-1]. *)
Theorem scan_picks_first_maximum :
  let legal a b := (0 <= a < 21)%Z /\ (0 <= b < 18)%Z /\ valids a b = true in
  (forall a b,
      U a b =
        let P := default (fun _ _ => 0) (dPs d !! s) in
        let n := default 0%Z (dNs d !! s) in
        match dQsa d !! (s, Act a b) with
        | Some q =>
            q + cpuct * P a b * sqrt (of_int n)
                / of_int (1 + default 0%Z (dNsa d !! (s, Act a b)))
        | None => cpuct * P a b * sqrt (of_int n + EPS_double)
        end)
  /\ ((forall a b, legal a b -> (neg_infinity <? U a b) = false) ->
      scan_double = (neg_infinity, NoAct))
  /\ (forall a0 b0, legal a0 b0 -> (neg_infinity <? U a0 b0) = true ->
      exists a b,
        scan_double = (U a b, Act a b)
        /\ legal a b /\ (neg_infinity <? U a b) = true
        /\ forall a' b', legal a' b' ->
             (U a b <? U a' b') = false
             /\ ((18 * a' + b' < 18 * a + b)%Z ->
                 (U a b <=? U a' b') = false
                 /\ ((U a' b' <? U a b) = true \/ (U a' b' =? U a' b') = false))).
Proof.
  intros legal. split; [reflexivity|].
  assert (Hinv : scan_double_inv grid scan_double)
    by exact (scan_double_inv_fold grid).
  split.
  - intros Hnone.
    destruct Hinv as [[-> _] | (l1 & a & b & l2 & Hg & Hv & _ & Hinf & _)]; [done|].
    assert ((a, b) ∈ grid) as Hin
      by (rewrite Hg; apply elem_of_app; right; apply elem_of_cons; by left).
    apply elem_of_grid in Hin as [Ha Hb]. by rewrite Hnone in Hinf.
  - intros a0 b0 (Ha0 & Hb0 & Hv0) Hinf0.
    destruct Hinv as [[_ Hnone]
                     | (l1 & a & b & l2 & Hg & Hv & -> & Hinf & Hlt & Hle)].
    { rewrite Hnone in Hinf0; [done| |done]. by apply elem_of_grid. }
    assert ((a, b) ∈ grid) as Hin
      by (rewrite Hg; apply elem_of_app; right; apply elem_of_cons; by left).
    apply elem_of_grid in Hin as [Ha Hb].
    exists a, b. split; [done|]. split; [done|]. split; [done|].
    intros a' b' (Ha' & Hb' & Hv').
    assert ((a', b') ∈ grid) as Hin' by (by apply elem_of_grid).
    split.
    + rewrite Hg in Hin'. apply elem_of_app in Hin' as [Hin'|Hin'].
      * destruct (U a b <? U a' b') eqn:Hc; [|done].
        specialize (Hlt a' b' Hin' Hv'). by rewrite (lt_le _ _ Hc) in Hlt.
      * apply elem_of_cons in Hin' as [Heq|Hin']; [|by apply Hle].
        simplify_eq. destruct (U a b <? U a b) eqn:Hc; [|done].
        pose proof (lt_not_le _ _ Hc) as Hn. by rewrite (lt_le _ _ Hc) in Hn.
    + intros Hkey.
      assert (Hle' : (U a b <=? U a' b') = false).
      { apply Hlt; [|done].
        apply (grid_split_before l1 (a, b) l2); [done|done|].
        unfold scan_key; cbn; lia. }
      split; [exact Hle'|]. by eapply not_le_lt_or_nan.
Qed.

End SelectionDoubles.

(** The rational scan of the search model picks the action the code picks
    whenever the rational scores of the legal actions are ordered as their
    doubles are and no double is NaN or [-inf]. *)
Lemma scan_as_on_doubles {World : Type} (E : Env World) (args : Args) (m : MCTS)
    (cpuct : PrimFloat.float) (d : Doubles) (s : fp) (valids : Z -> Z -> bool) :
  (forall a b, (a, b) ∈ grid -> valids a b = true ->
     PrimFloat.ltb PrimFloat.neg_infinity (ucb_double cpuct d s a b) = true) ->
  (forall a b a' b', (a, b) ∈ grid -> (a', b') ∈ grid ->
     valids a b = true -> valids a' b' = true ->
     (PrimFloat.ltb (ucb_double cpuct d s a b) (ucb_double cpuct d s a' b') = true
      <-> (ucb E args m s a b < ucb E args m s a' b')%Q)) ->
  (scan E args m s valids).2 = (scan_double cpuct d s valids).2.
Proof.
  intros Hinf Hord. unfold scan, scan_double.
  assert (H : forall l, (forall ab, ab ∈ l -> ab ∈ grid) ->
            let rq := fold_left (scan_step E args m s valids) l (None, NoAct) in
            let rd := fold_left (scan_step_double cpuct d s valids) l
                        (PrimFloat.neg_infinity, NoAct) in
            (rq = (None, NoAct) /\ rd = (PrimFloat.neg_infinity, NoAct))
            \/ (exists a b, (a, b) ∈ grid /\ valids a b = true
                  /\ rq = (Some (ucb E args m s a b), Act a b)
                  /\ rd = (ucb_double cpuct d s a b, Act a b))).
  { induction l as [|[a b] l IH] using rev_ind; intros Hl; [by left|].
    rewrite !fold_left_app. cbn [fold_left].
    assert (Hab : (a, b) ∈ grid)
      by (apply Hl, elem_of_app; right; by apply list_elem_of_singleton).
    destruct IH as [[-> ->] | (a1 & b1 & Hin1 & Hv1 & -> & ->)].
    { intros ab Hin. apply Hl, elem_of_app. by left. }
    - unfold scan_step, scan_step_double. destruct (valids a b) eqn:Hv; [|by left].
      cbn [fst above]. rewrite (Hinf a b Hab Hv). right. by exists a, b.
    - unfold scan_step, scan_step_double. destruct (valids a b) eqn:Hv.
      2:{ right. by exists a1, b1. }
      cbn [fst].
      destruct (PrimFloat.ltb (ucb_double cpuct d s a1 b1) (ucb_double cpuct d s a b))
        eqn:Hlt.
      + apply (Hord a1 b1 a b Hin1 Hab Hv1 Hv) in Hlt.
        apply above_Some in Hlt. rewrite Hlt. right. by exists a, b.
      + destruct (above (ucb E args m s a b) (Some (ucb E args m s a1 b1))) eqn:Hq.
        * apply above_Some, (Hord a1 b1 a b Hin1 Hab Hv1 Hv) in Hq. congruence.
        * right. by exists a1, b1. }
  destruct (H grid) as [[-> ->] | (a & b & _ & _ & -> & ->)]; done.
Qed.

(** ** Sums over the grid *)

Section Sums.

Context {A : Type}.
Implicit Types (f g : A -> Q) (l : list A).

Local Abbreviation sum_from f l a0 := (fold_left (fun acc x => (acc + f x)%Q) l a0).







End Sums.

(** ** Expansion *)

Section Expansion.

Context {World : Type} (E : Env World).
Local Abbreviation Game := (Game World).












End Expansion.

(** ** Backpropagation *)

Section Backprop.

Implicit Types (m : MCTS) (s : fp) (a : pyact) (p root : pid) (v : Q).

(** The value an entry adds: [+v] for the root-perspective player. *)
Definition signed (p root : pid) (v : Q) : Q :=
  if pid_eqb p root then v else (- v)%Q.

Lemma backprop_step_first m s a p root v :
  Nsa m !! (s, a) = None ->
  let m' := backprop_step root v m (s, a, p) in
  Nsa m' !! (s, a) = Some 1
  /\ exists q, Qsa m' !! (s, a) = Some q /\ (q == signed p root v / 2)%Q.
Proof.
  intros HN. unfold backprop_step. rewrite HN. cbn [Nsa Qsa].
  rewrite !lookup_insert_eq. cbn [default from_option id].
  split; [reflexivity|].
  eexists. split; [reflexivity|]. unfold signed. change (inject_Z 1) with 1%Q.
  destruct (pid_eqb p root); field.
Qed.

Lemma backprop_step_again m s a p root v n q :
  Nsa m !! (s, a) = Some n -> Qsa m !! (s, a) = Some q -> 0 < n ->
  let m' := backprop_step root v m (s, a, p) in
  Nsa m' !! (s, a) = Some (n + 1)
  /\ exists q', Qsa m' !! (s, a) = Some q'
       /\ (q' * (inject_Z (n + 1) + 1) == inject_Z (n + 1) * q + signed p root v)%Q.
Proof.
  intros HN HQ Hn. unfold backprop_step. rewrite HN. cbn [Nsa Qsa].
  rewrite !lookup_insert_eq, HQ. cbn [default from_option id].
  split; [reflexivity|].
  eexists. split; [reflexivity|]. unfold signed.
  assert (Hpos : (0 < inject_Z (n + 1) + 1)%Q).
  { assert (0 < inject_Z (n + 1))%Q; [|lra].
    change 0%Q with (inject_Z 0). rewrite <- Zlt_Qlt. lia. }
  destruct (pid_eqb p root); field; lra.
Qed.

Lemma backprop_step_other m e root v k :
  k <> (e.1.1, e.1.2) ->
  Nsa (backprop_step root v m e) !! k = Nsa m !! k
  /\ Qsa (backprop_step root v m e) !! k = Qsa m !! k.
Proof.
  destruct e as [[s a] p]. cbn [fst snd]. intros Hk. unfold backprop_step.
  destruct (Nsa m !! (s, a)); cbn [Nsa Qsa];
    rewrite ?lookup_insert_ne by congruence; done.
Qed.

Lemma backprop_step_frame m e root v :
  Ns (backprop_step root v m e) = Ns m
  /\ Ps (backprop_step root v m e) = Ps m
  /\ Es (backprop_step root v m e) = Es m
  /\ Vs (backprop_step root v m e) = Vs m.
Proof.
  destruct e as [[s a] p]. unfold backprop_step.
  destruct (Nsa m !! (s, a)); done.
Qed.

Lemma backprop_fold_frame path m root v :
  let m' := fold_left (backprop_step root v) path m in
  Ns m' = Ns m /\ Ps m' = Ps m /\ Es m' = Es m /\ Vs m' = Vs m.
Proof.
  revert m. induction path as [|e path IH]; intros m; [done|]. cbn.
  destruct (IH (backprop_step root v m e)) as (-> & -> & -> & ->).
  apply backprop_step_frame.
Qed.

(** Every stored edge count is at least one. *)
Definition counts_positive m : Prop :=
  forall k n, Nsa m !! k = Some n -> 0 < n.

Lemma backprop_step_positive m e root v :
  counts_positive m -> counts_positive (backprop_step root v m e).
Proof.
  destruct e as [[s a] p]. intros H k n. unfold backprop_step.
  destruct (Nsa m !! (s, a)) as [n0|] eqn:HN; cbn [Nsa].
  - destruct (decide (k = (s, a))) as [->|Hne].
    + rewrite lookup_insert_eq. intros [= <-]. specialize (H _ _ HN). lia.
    + rewrite lookup_insert_ne by done. apply H.
  - destruct (decide (k = (s, a))) as [->|Hne].
    + rewrite lookup_insert_eq. intros [= <-]. lia.
    + rewrite lookup_insert_ne by done. apply H.
Qed.

Lemma backprop_fold_positive path m root v :
  counts_positive m -> counts_positive (fold_left (backprop_step root v) path m).
Proof.
  revert m. induction path as [|e path IH]; intros m H; [done|]. cbn.
  apply IH. by apply backprop_step_positive.
Qed.

(** The stored value after [vs] has been backpropagated, one value a
    simulation, through an edge that was new: the count is the number of
    values and the stored value is their sum divided by the count plus one. *)
Lemma backprop_running_value m s a p root (vs : list Q) :
  Nsa m !! (s, a) = None -> vs <> [] ->
  let m' := fold_left (fun m v => backprop_step root v m (s, a, p)) vs m in
  Nsa m' !! (s, a) = Some (Z.of_nat (length vs))
  /\ exists q, Qsa m' !! (s, a) = Some q
       /\ (q * (inject_Z (Z.of_nat (length vs)) + 1)
           == Qsum ((signed p root) <$> vs))%Q.
Proof.
  intros HN Hne. induction vs as [|v vs IH] using rev_ind; [done|].
  rewrite fold_left_app. cbn [fold_left]. rewrite length_app. cbn [length].
  assert (Hsum : (Qsum (signed p root <$> vs ++ [v])
                  == Qsum (signed p root <$> vs) + signed p root v)%Q).
  { unfold Qsum. rewrite fmap_app, fold_left_app. cbn. reflexivity. }
  destruct vs as [|v0 vs0].
  - cbn [fold_left length]. destruct (backprop_step_first m s a p root v HN) as [H1 (q & Hq & Hq2)].
    split; [exact H1|]. exists q. split; [exact Hq|]. rewrite Hsum, Hq2. cbn. field.
  - destruct IH as [HN' (q & HQ' & Hinv)]; [done|].
    set (m1 := fold_left _ (v0 :: vs0) m) in *.
    destruct (backprop_step_again m1 s a p root v _ q HN' HQ') as [H1 (q' & Hq' & Hq2)].
    { cbn [length]. lia. }
    split.
    + rewrite H1. f_equal. lia.
    + exists q'. split; [exact Hq'|]. rewrite Hsum, <- Hinv.
      replace (Z.of_nat (length (v0 :: vs0) + 1)) with (Z.of_nat (length (v0 :: vs0)) + 1)
        by lia.
      rewrite Hq2, inject_Z_plus. change (inject_Z 1) with 1%Q. ring.
Qed.

End Backprop.

(** ** One simulation *)

Section SearchFacts.

Context {World : Type} (E : Env World) (args : Args).
Local Abbreviation Game := (Game World).
Implicit Types (m : MCTS) (g : Game) (s : fp) (r : Rng).

(** *** What each phase writes *)

Lemma record_end_frame m g s :
  let m' := (record_end m g s).1 in
  Qsa m' = Qsa m /\ Nsa m' = Nsa m /\ Ns m' = Ns m /\ Ps m' = Ps m.
Proof.
  unfold record_end. destruct (ended g); [|done].
  destruct (getGameEnded g); done.
Qed.

Lemma expand_frame m g s next_s :
  let m' := (expand E m g s next_s).1 in
  Qsa m' = Qsa m /\ Nsa m' = Nsa m /\ Es m' = Es m
  /\ (Ns m' = Ns m \/ Ns m' = <[s := 0]> (Ns m)).
Proof.
  unfold expand. destruct (_ && _); [|by auto].
  destruct (predict E next_s). destruct (negb _); cbn; auto.
Qed.

Lemma backpropagate_frame m g s v path m' :
  backpropagate m g s v path = Ret m' ->
  Ns m' = Ns m /\ Ps m' = Ps m /\ Es m' = Es m /\ Vs m' = Vs m.
Proof.
  unfold backpropagate. destruct path as [|e path]; [by intros [= <-]|].
  destruct (match Es m !! s with Some x => Some x | None => v end); [|done].
  intros [= <-]. apply (backprop_fold_frame (e :: path)).
Qed.

Lemma backpropagate_positive m g s v path m' :
  backpropagate m g s v path = Ret m' -> counts_positive m -> counts_positive m'.
Proof.
  unfold backpropagate. destruct path as [|e path]; [by intros [= <-]|].
  destruct (match Es m !! s with Some x => Some x | None => v end); [|done].
  intros [= <-]. apply (backprop_fold_positive (e :: path)).
Qed.

(** The phases of a simulation that ended normally. *)
Lemma search_Done fuel m game r state0 create_copy m' r' :
  search E args fuel m game r state0 create_copy = Done (m', r') ->
  exists g1 s1 next_s1 path g3 s2 g4 v1,
    let m1 := (record_end m g1 s1).1 in
    let g2 := (record_end m g1 s1).2 in
    let m2 := (expand E m1 g2 s1 next_s1).1 in
    select E args fuel m (cloneAndRandomize game r).1
           (stringRepresentation state0) state0 [] = Done (g1, s1, next_s1, path)
    /\ simulate E fuel m2 g2 s1 (cloneAndRandomize game r).2 = Done (g3, s2, r')
    /\ backpropagate m2 g4 s2 v1 path = Ret m'.
Proof.
  unfold search. destruct create_copy; [|done].
  destruct (cloneAndRandomize game r) as [game_copy r1].
  destruct (select _ _ _ _ _ _ _ _) as [[[[g1 s1] next_s1] path]| |] eqn:Hsel; try done.
  destruct (record_end m g1 s1) as [m1 g2] eqn:Hrec.
  destruct (expand E m1 g2 s1 next_s1) as [m2 v] eqn:Hexp.
  destruct (simulate _ _ _ _ _ _) as [[[g3 s2] r2]| |] eqn:Hsim; try done.
  destruct (blend m2 g3 s2 v) as [[g4 v1]|] eqn:Hbl; try done.
  destruct (backpropagate m2 g4 s2 v1 path) as [m3|] eqn:Hbp; try done.
  intros [= <- <-]. exists g1, s1, next_s1, path, g3, s2, g4, v1. cbn.
  rewrite Hrec. cbn [fst snd]. rewrite Hexp. cbn [fst]. done.
Qed.

Lemma search_Ns fuel m game r state0 create_copy m' r' k :
  search E args fuel m game r state0 create_copy = Done (m', r') ->
  Ns m' !! k = Ns m !! k \/ Ns m' !! k = Some 0.
Proof.
  intros H. apply search_Done in H
    as (g1 & s1 & next_s1 & path & g3 & s2 & g4 & v1 & _ & _ & Hbp).
  apply backpropagate_frame in Hbp as (-> & _).
  destruct (expand_frame (record_end m g1 s1).1 (record_end m g1 s1).2 s1 next_s1)
    as (_ & _ & _ & [-> | ->]);
    destruct (record_end_frame m g1 s1) as (_ & _ & -> & _).
  - by left.
  - destruct (decide (s1 = k)) as [->|Hne].
    + right. apply lookup_insert_eq.
    + left. by rewrite lookup_insert_ne.
Qed.

Lemma search_positive fuel m game r state0 create_copy m' r' :
  search E args fuel m game r state0 create_copy = Done (m', r') ->
  counts_positive m -> counts_positive m'.
Proof.
  intros H Hpos. apply search_Done in H
    as (g1 & s1 & next_s1 & path & g3 & s2 & g4 & v1 & _ & _ & Hbp).
  apply backpropagate_positive in Hbp; [done|].
  intros k n.
  destruct (expand_frame (record_end m g1 s1).1 (record_end m g1 s1).2 s1 next_s1)
    as (_ & -> & _).
  destruct (record_end_frame m g1 s1) as (_ & -> & _). apply Hpos.
Qed.


(** Every stored node count is zero. *)
Definition node_counts_zero m : Prop :=
  forall k n, Ns m !! k = Some n -> n = 0.

Lemma run_sims_Ns k fuel m game r state0 m' r' :
  run_sims E args k fuel m game r state0 = Done (m', r') ->
  node_counts_zero m -> node_counts_zero m'.
Proof.
  revert m r. induction k as [|k IH]; intros m r; cbn [run_sims].
  - by intros [= <- <-].
  - destruct (search E args fuel m game r state0 true) as [[m1 r1]| |] eqn:Hs;
      try done.
    intros H Hz. eapply IH; [exact H|]. intros key n Hn.
    destruct (search_Ns _ _ _ _ _ _ _ _ key Hs) as [Heq|Heq];
      rewrite Heq in Hn; [by eapply Hz | congruence].
Qed.

(** C1 (the code departs from it): the only value [search] ever writes into
    [Ns] is the [0] of the expansion, so after any number of simulations on
    a fresh [MCTS] object every stored node count, the root's included, is
    zero, and not the number of simulations. *)
Theorem root_visit_count_stays_zero k fuel game r state0 m' r' key n :
  run_sims E args k fuel MCTS_init game r state0 = Done (m', r') ->
  Ns m' !! key = Some n -> n = 0.
Proof.
  intros H. eapply run_sims_Ns; [exact H|]. intros k0 n0. cbn.
  by rewrite lookup_empty.
Qed.

End SearchFacts.

(** ** Exceptions of the rule engine *)

Section EngineExceptions.

Context {World : Type} (E : Env World) (args : Args).
Local Abbreviation Game := (Game World).
Implicit Types (m : MCTS) (g : Game) (s : fp) (r : Rng).


Lemma getNextState_NoAct player g :
  (getNextState E player NoAct g).2 = Raise TypeError.
Proof.
  unfold getNextState, performAction. by destruct (ended g).
Qed.










End EngineExceptions.

(** ** The policy vector *)

Section Argmax.

Implicit Types (l pre : list Z).



End Argmax.

Section QsumFacts.

Implicit Types (l : list Q).









End QsumFacts.




(** A comprehension whose expression may raise. *)
Section ResMap.

Context {A B : Type} (f : A -> res B).




End ResMap.


Section Policy.

Context {World : Type} (E : Env World) (args : Args).
Local Abbreviation Game := (Game World).











(** *** The actions behind the edge counts *)

Variables (game : Game) (state0 : state).










End Policy.

(** ** The first visit of an edge *)

(** C2 (the code departs from it in the value): backpropagating [v] along
    a one-entry path through an edge that is new sets the edge count to 1,
    as the claim says, but stores half of the signed value: the count is
    incremented before the incremental-mean formula uses it. *)
Theorem backpropagate_first_visit_halves {World : Type} (m : MCTS)
    (g : Game World) (s_end s : fp) (a : pyact) (p : pid) (v : Q) :
  Es m !! s_end = None -> Nsa m !! (s, a) = None ->
  exists m' q,
    backpropagate m g s_end (Some v) [(s, a, p)] = Ret m'
    /\ Nsa m' !! (s, a) = Some 1
    /\ Qsa m' !! (s, a) = Some q
    /\ (q == signed p (player_to_start g) v / 2)%Q.
Proof.
  intros HEs HN. unfold backpropagate. rewrite HEs. cbn [fold_left].
  destruct (backprop_step_first m s a p (player_to_start g) v HN)
    as [H1 (q & Hq & Hq2)].
  eexists _, q. split; [reflexivity|]. split; [exact H1|]. split; [exact Hq|].
  exact Hq2.
Qed.

(** ** The code on the small engine *)

Section Concrete.

Import Demo.

Lemma sims_bare_1 : sims bare 1 = Done (store_after bare 1, rng_after bare 1).
Proof. vm_compute. reflexivity. Qed.

Lemma sims_bare_2 : sims bare 2 = Done (store_after bare 2, rng_after bare 2).
Proof. vm_compute. reflexivity. Qed.

Lemma sims_dealt_2 : sims dealt 2 = Done (store_after dealt 2, rng_after dealt 2).
Proof. vm_compute. reflexivity. Qed.




Lemma init_counts_positive : counts_positive MCTS_init.
Proof. intros k n. cbn. by rewrite lookup_empty. Qed.

(** Two simulations from a fresh object leave the root count at 0. *)
Lemma root_visit_count_witness :
  sims bare 2 = Done (store_after bare 2, rng_after bare 2)
  /\ Ns (store_after bare 2) !! root bare = Some 0
  /\ 0 = 0.
Proof.
  assert (H1 : sims bare 2 = Done (store_after bare 2, rng_after bare 2))
    by (vm_compute; reflexivity).
  assert (H2 : Ns (store_after bare 2) !! root bare = Some 0)
    by (vm_compute; reflexivity).
  split; [exact H1|]. split; [exact H2|].
  exact (root_visit_count_stays_zero demo args2 2 10 bare [] (demo_getState bare)
           (store_after bare 2) (rng_after bare 2) (root bare) 0 H1 H2).
Defined.

(** A win backpropagated once through a new edge is stored as 1/2. *)
Lemma backpropagate_first_visit_witness :
  Es MCTS_init !! second bare = None
  /\ Nsa MCTS_init !! (root bare, Act 19 1) = None
  /\ exists m' q,
       backpropagate MCTS_init bare (second bare) (Some 1%Q)
                     [(root bare, Act 19 1, PlayerA)] = Ret m'
       /\ Nsa m' !! (root bare, Act 19 1) = Some 1
       /\ Qsa m' !! (root bare, Act 19 1) = Some q
       /\ (q == signed PlayerA (player_to_start bare) 1 / 2)%Q.
Proof.
  split; [reflexivity|]. split; [reflexivity|].
  apply (backpropagate_first_visit_halves MCTS_init bare (second bare)
           (root bare) (Act 19 1) PlayerA 1%Q); reflexivity.
Defined.

(** The scan on doubles at a node with three legal actions. The scores of
    (0, 0) and (0, 1) are the same double although the prior of (0, 1) is
    the larger one, and the scan keeps (0, 0), the first of the two; the
    visited (19, 1) scores less. *)
Lemma scan_witness :
  let U := ucb_double Tie.cpuct10 Tie.store Tie.node in
  scan_double Tie.cpuct10 Tie.store Tie.node Tie.legal = (U 0 0, Act 0 0)
  /\ PrimFloat.ltb (Tie.prior 0 0) (Tie.prior 0 1) = true
  /\ PrimFloat.eqb (U 0 0) (U 0 1) = true
  /\ PrimFloat.ltb (U 0 0) (U 0 1) = false
  /\ PrimFloat.ltb (U 0 0) (U 19 1) = false
  /\ PrimFloat.ltb (U 19 1) (U 0 0) = true.
Proof.
  intros U.
  destruct (scan_picks_first_maximum Tie.cpuct10 Tie.store Tie.node Tie.legal)
    as (_ & _ & H).
  destruct (H 19 1) as (a & b & Hscan & _ & _ & Hall).
  { split; [lia|]. split; [lia|reflexivity]. }
  { vm_compute. reflexivity. }
  assert (Heq : scan_double Tie.cpuct10 Tie.store Tie.node Tie.legal
                = (U 0 0, Act 0 0)) by (vm_compute; reflexivity).
  rewrite Heq in Hscan.
  assert (a = 0 /\ b = 0) as [-> ->] by (by inversion Hscan).
  split; [exact Heq|]. split; [vm_compute; reflexivity|].
  split; [vm_compute; reflexivity|]. split; [|split].
  - refine (proj1 (Hall 0 1 _)). split; [lia|]. split; [lia|reflexivity].
  - refine (proj1 (Hall 19 1 _)). split; [lia|]. split; [lia|reflexivity].
  - vm_compute. reflexivity.
Defined.

(** C3, as the claim states it, fails when no legal action has a score
    above [-inf]. With the value [-inf] stored for the only legal action,
    that action has the maximal score and the scan does not pick it; with
    NaN priors the three legal actions have NaN scores and the scan picks
    none. In both cases [best_act] is still [-1] after the scan. *)
Lemma scan_keeps_initial_counterexample :
  (Tie.only_end_turn 19 1 = true
   /\ (forall a b, Tie.only_end_turn a b = true -> a = 19 /\ b = 1)
   /\ ucb_double Tie.cpuct10 Tie.store_inf Tie.node 19 1 = PrimFloat.neg_infinity
   /\ scan_double Tie.cpuct10 Tie.store_inf Tie.node Tie.only_end_turn
      = (PrimFloat.neg_infinity, NoAct))
  /\ (Tie.legal 0 0 = true
      /\ (let u := ucb_double Tie.cpuct10 Tie.store_nan Tie.node 0 0 in
          PrimFloat.eqb u u = false)
      /\ scan_double Tie.cpuct10 Tie.store_nan Tie.node Tie.legal
         = (PrimFloat.neg_infinity, NoAct)).
Proof.
  split; [split; [|split; [|split]]|split; [|split]];
    try (vm_compute; reflexivity).
  intros a b H. unfold Tie.only_end_turn in H.
  apply andb_true_iff in H as [Ha Hb]. split; by apply Z.eqb_eq.
Qed.







Lemma getNextState_witness :
  (1 = 1 \/ 1 = -1)
  /\ exists g1 next_player,
       getNextState demo 1 (Act 19 1) bare = (g1, Ret (getState demo g1, next_player))
       /\ (next_player = - 1 <-> 19 = 19).
Proof.
  split; [by left|].
  destruct (getNextState_next_player demo 1 19 1 bare) as (g1 & np & H1 & _ & H2 & _).
  - by left.
  - intros e. vm_compute. discriminate.
  - exists g1, np. by split.
Defined.

(** On [dealt] the engine refuses the play of the first hand card, and
    [performAction] returns with the turn passed to [PlayerB]; on [bare]
    the hand is empty, the slot raises [IndexError], and the turn is passed
    as well. *)
Lemma performAction_witness :
  (ended dealt = false
   /\ performAction_try demo (current_player dealt) (Act 0 0) dealt
      = (dealt, Raise InvalidAction)
   /\ end_turn demo dealt = (passed, None))
  /\ performAction demo (Act 0 0) dealt = (passed, None)
  /\ (performAction demo (Act 0 0) dealt).1 <> dealt
  /\ turn passed = 2 /\ current_player passed = PlayerB
  /\ py_index (hand (player_of bare (current_player bare))) 0 = None
  /\ performAction_try demo (current_player bare) (Act 0 0) bare
     = (bare, Raise IndexError)
  /\ performAction demo (Act 0 0) bare = ((demo_end_turn bare).1, None).
Proof.
  pose proof (performAction_rejected_ends_turn demo 0 0 dealt eq_refl)
    as (Hrej & _).
  pose proof (performAction_rejected_ends_turn demo 0 0 bare eq_refl)
    as (Hrej' & Hidx & _).
  destruct (Hrej InvalidAction dealt passed None eq_refl (or_introl eq_refl) eq_refl)
    as (_ & Hret & Hne).
  assert (Htry : performAction_try demo (current_player bare) (Act 0 0) bare
                 = (bare, Raise IndexError))
    by (apply Hidx; [lia|reflexivity]).
  destruct (Hrej' IndexError bare (demo_end_turn bare).1 None Htry
              (or_intror eq_refl) eq_refl) as (_ & Hret' & _).
  split; [by repeat split|]. split; [exact (Hret eq_refl)|]. split.
  { apply Hne. intros Heq. apply (f_equal turn) in Heq. discriminate. }
  split; [reflexivity|]. split; [reflexivity|]. split; [reflexivity|].
  split; [exact Htry|]. exact (Hret' eq_refl).
Defined.

(** C9, as the claim states it, fails when the recovering [end_turn] is
    itself refused: with an open choice of the opponent the engine rejects
    the play of the first hand card, [end_turn] raises [InvalidAction], and
    that exception leaves [performAction] with the game as it was. *)
Lemma performAction_reraises_counterexample :
  ended Strict.waiting = false
  /\ performAction_try Strict.strict (current_player Strict.waiting) (Act 0 0)
                       Strict.waiting
     = (Strict.waiting, Raise InvalidAction)
  /\ end_turn Strict.strict Strict.waiting = (Strict.waiting, Some InvalidAction)
  /\ performAction Strict.strict (Act 0 0) Strict.waiting
     = (Strict.waiting, Some InvalidAction).
Proof. repeat split. Qed.

Lemma getGameEnded_witness :
  (180 < turn late
   /\ playstate (player_of late (player_to_start late)) <> 4
   /\ playstate (player_of late (player_to_start late)) <> 5
   /\ playstate (player_of late (player_to_start late)) <> 6
   /\ ended late = false)
  /\ (getGameEnded late).2 = (1 # 10000)%Q
  /\ ~ ((getGameEnded late).2 == 0)%Q
  /\ ended (getGameEnded late).1 = true
  /\ (getGameEnded late).1 <> late
  /\ turn (getGameEnded late).1 = 181.
Proof.
  assert (Ht : 180 < turn late) by reflexivity.
  assert (H4 : playstate (player_of late (player_to_start late)) <> 4) by (cbn; lia).
  assert (H5 : playstate (player_of late (player_to_start late)) <> 5) by (cbn; lia).
  assert (H6 : playstate (player_of late (player_to_start late)) <> 6) by (cbn; lia).
  split; [by repeat split|].
  destruct (proj1 (getGameEnded_frame late) Ht H4 H5 H6)
    as (Hv & Hnz & He & Hne & _ & _ & _ & _ & Hturn & _).
  split; [exact Hv|]. split; [exact Hnz|]. split; [exact He|].
  split; [exact (Hne eq_refl)|]. exact Hturn.
Defined.

End Concrete.

(** * Further properties of the adapter *)

(** ** Fingerprints *)

(** An entry of an int32 array. *)
Definition int32 (z : Z) : Prop := -2147483648 <= z < 2147483648.

Lemma int32_bytes_length z : length (int32_bytes z) = 4%nat.
Proof. reflexivity. Qed.

Lemma int32_bytes_inj z1 z2 :
  int32 z1 -> int32 z2 -> int32_bytes z1 = int32_bytes z2 -> z1 = z2.
Proof.
  unfold int32, int32_bytes. intros H1 H2 [= E0 E1 E2 E3].
  assert (Hu : z1 mod 4294967296 = z2 mod 4294967296).
  { revert E0 E1 E2 E3.
    generalize (Z.mod_pos_bound z1 4294967296 eq_refl).
    generalize (Z.mod_pos_bound z2 4294967296 eq_refl).
    generalize (z1 mod 4294967296) (z2 mod 4294967296). intros u1 u2 Hu2 Hu1.
    intros E0 E1 E2 E3. Z.to_euclidean_division_equations. lia. }
  revert Hu. Z.to_euclidean_division_equations. lia.
Qed.

(** X1: Two int32 vectors with the same fingerprint are the same vector, and the
    fingerprint has four bytes an entry. *)
Theorem stringRepresentation_injective (s1 s2 : state) :
  Forall int32 s1 -> Forall int32 s2 ->
  stringRepresentation s1 = stringRepresentation s2 ->
  s1 = s2 /\ length (stringRepresentation s1) = (4 * length s1)%nat.
Proof.
  intros H1 H2 Heq. split.
  - revert s2 H2 Heq. induction H1 as [|z1 s1 Hz1 _ IH]; intros s2 H2 Heq.
    + destruct s2 as [|z2 s2]; [done|]. discriminate Heq.
    + destruct H2 as [|z2 s2 Hz2 H2]; [discriminate Heq|].
      unfold stringRepresentation in Heq. cbn [mbind list_bind] in Heq.
      apply app_inj_1 in Heq as [Hb Hrest]; [|reflexivity].
      f_equal; [by apply int32_bytes_inj | by apply IH].
  - clear. induction s1 as [|z s IH]; [reflexivity|].
    unfold stringRepresentation in *. cbn [mbind list_bind].
    rewrite length_app, IH, int32_bytes_length. cbn [length]. lia.
Qed.

Lemma stringRepresentation_witness :
  (Forall int32 [1; -1] /\ Forall int32 [1; -1]
   /\ stringRepresentation [1; -1] = stringRepresentation [1; -1])
  /\ [1; -1] = [1; -1]
  /\ length (stringRepresentation [1; -1]) = (4 * length [1%Z; (-1)%Z])%nat.
Proof.
  assert (H : Forall int32 [1; -1]) by (repeat constructor; unfold int32; lia).
  split; [by repeat split|].
  exact (stringRepresentation_injective [1; -1] [1; -1] H H eq_refl).
Defined.

(** ** The terminal signal and the action dispatch *)

Section AdapterMore.

Context {World : Type} (E : Env World).
Local Abbreviation Game := (Game World).

(** X2: A second call of [getGameEnded] changes nothing and returns the same
    value, and the value is 0 exactly while the starting player's playstate
    is undecided and the turn counter is at most 180. *)
Theorem getGameEnded_idempotent (g : Game) :
  let ps := playstate (player_of g (player_to_start g)) in
  getGameEnded (getGameEnded g).1 = ((getGameEnded g).1, (getGameEnded g).2)
  /\ (((getGameEnded g).2 == 0)%Q
      <-> ps <> 4 /\ ps <> 5 /\ ps <> 6 /\ turn g <= 180).
Proof.
  intros ps. unfold getGameEnded. fold ps.
  destruct (Z.eqb_spec ps 4) as [H4|H4].
  { cbn. fold ps. rewrite (proj2 (Z.eqb_eq _ _) H4). split; [done|]. split; [done|lia]. }
  destruct (Z.eqb_spec ps 5) as [H5|H5].
  { cbn. fold ps. rewrite (proj2 (Z.eqb_neq _ _) H4), (proj2 (Z.eqb_eq _ _) H5).
    split; [done|]. split; [done|lia]. }
  destruct (Z.eqb_spec ps 6) as [H6|H6].
  { cbn. fold ps.
    rewrite (proj2 (Z.eqb_neq _ _) H4), (proj2 (Z.eqb_neq _ _) H5),
      (proj2 (Z.eqb_eq _ _) H6).
    split; [done|]. split; [done|lia]. }
  destruct (Z.ltb_spec 180 (turn g)) as [Ht|Ht].
  - cbn [fst snd].
    replace (playstate (player_of (set_ended g true)
                          (player_to_start (set_ended g true)))) with ps
      by (unfold ps, set_ended; cbn; destruct (player_to_start g); reflexivity).
    rewrite (proj2 (Z.eqb_neq _ _) H4), (proj2 (Z.eqb_neq _ _) H5),
      (proj2 (Z.eqb_neq _ _) H6).
    cbn [set_ended turn]. rewrite (proj2 (Z.ltb_lt _ _) Ht).
    split; [done|]. split; [done|lia].
  - cbn [fst snd]. fold ps.
    rewrite (proj2 (Z.eqb_neq _ _) H4), (proj2 (Z.eqb_neq _ _) H5),
      (proj2 (Z.eqb_neq _ _) H6), (proj2 (Z.ltb_ge _ _) Ht).
    split; [done|]. split; [intros _; repeat split; done|reflexivity].
Qed.

(** X3: On a game that is flagged ended [performAction] does nothing, whatever
    it is handed, and [getNextState] still negates the player id for slot
    19. *)
Theorem getNextState_on_ended_game (player a0 a1 : Z) (g : Game) :
  ended g = true ->
  performAction E (Act a0 a1) g = (g, None)
  /\ getNextState E player (Act a0 a1) g
     = (g, Ret (getState E g, if a0 =? 19 then - player else player)).
Proof.
  intros H. assert (Hp : performAction E (Act a0 a1) g = (g, None))
    by (unfold performAction; by rewrite H).
  split; [exact Hp|]. unfold getNextState. rewrite Hp.
  by destruct (a0 =? 19).
Qed.

(** X4: A slot outside 0..20 with no choice pending is refused with
    [UnhandledAction], the game is left as it was, and the exception goes
    through [getNextState]. *)
Theorem performAction_unhandled_slot (player a0 a1 : Z) (g : Game) :
  ended g = false ->
  choice (player_of g (current_player g)) = None ->
  a0 < 0 \/ 20 < a0 ->
  performAction E (Act a0 a1) g = (g, Some UnhandledAction)
  /\ getNextState E player (Act a0 a1) g = (g, Raise UnhandledAction).
Proof.
  intros Hended Hchoice Hslot.
  assert (Htry : performAction_try E (current_player g) (Act a0 a1) g
                 = (g, Raise UnhandledAction)).
  { cbn [performAction_try]. unfold performAction_body, bindM, getM.
    replace ((0 <=? a0) && (a0 <=? 9)) with false
      by (symmetry; apply andb_false_iff; lia).
    replace ((10 <=? a0) && (a0 <=? 16)) with false
      by (symmetry; apply andb_false_iff; lia).
    replace (a0 =? 17) with false by (symmetry; apply Z.eqb_neq; lia).
    replace (a0 =? 18) with false by (symmetry; apply Z.eqb_neq; lia).
    replace (a0 =? 19) with false by (symmetry; apply Z.eqb_neq; lia).
    rewrite Hchoice.
    replace (a0 =? 20) with false by (symmetry; apply Z.eqb_neq; lia).
    reflexivity. }
  assert (Hp : performAction E (Act a0 a1) g = (g, Some UnhandledAction))
    by (unfold performAction; by rewrite Hended, Htry).
  split; [exact Hp|]. unfold getNextState. by rewrite Hp.
Qed.

(** X5: With no choice pending, slot 20 ends the turn exactly as slot 19 does,
    but [getNextState] hands the player id back unchanged for it. *)
Theorem slot_20_ends_turn_without_flip (player a1 b1 : Z) (g : Game) :
  ended g = false ->
  choice (player_of g (current_player g)) = None ->
  performAction E (Act 20 a1) g = performAction E (Act 19 b1) g
  /\ forall g1 next_state next_player,
       getNextState E player (Act 19 b1) g = (g1, Ret (next_state, next_player)) ->
       next_player = - player
       /\ getNextState E player (Act 20 a1) g = (g1, Ret (next_state, player)).
Proof.
  intros Hended Hchoice.
  assert (Htry : performAction_try E (current_player g) (Act 20 a1) g
                 = performAction_try E (current_player g) (Act 19 b1) g).
  { cbn [performAction_try]. unfold performAction_body, bindM, getM.
    cbn [Z.leb Z.eqb Z.compare Pos.compare Pos.compare_cont andb Pos.eqb].
    by rewrite Hchoice. }
  assert (Hp : performAction E (Act 20 a1) g = performAction E (Act 19 b1) g)
    by (unfold performAction; by rewrite Hended, Htry).
  split; [exact Hp|]. intros g1 ns np. unfold getNextState. rewrite Hp.
  destruct (performAction E (Act 19 b1) g) as [g' [e|]]; cbn.
  - destruct e; try discriminate. by intros [= <- <- <-].
  - by intros [= <- <- <-].
Qed.

End AdapterMore.

(** * Further properties of the search *)

(** ** The keys of the statistics *)

(** Edge values and edge counts have the same keys, and so have priors,
    node counts and masks. *)
Definition keys_consistent (m : MCTS) : Prop :=
  dom (Qsa m) = dom (Nsa m) /\ dom (Ps m) = dom (Ns m) /\ dom (Ps m) = dom (Vs m).

(** The number of entries of a path that go through the edge [k]. *)
Definition visits (k : fp * pyact) (path : list (fp * pyact * pid)) : Z :=
  Z.of_nat (length (filter (fun e => (e.1.1, e.1.2) = k) path)).

Section Statistics.

Implicit Types (m : MCTS) (s : fp) (path : path_t).

Lemma backprop_step_dom m e root v :
  dom (Nsa (backprop_step root v m e)) = {[ (e.1.1, e.1.2) ]} ∪ dom (Nsa m)
  /\ dom (Qsa (backprop_step root v m e)) = {[ (e.1.1, e.1.2) ]} ∪ dom (Qsa m).
Proof.
  destruct e as [[s a] p]. cbn [fst snd]. unfold backprop_step.
  destruct (Nsa m !! (s, a)); cbn [Nsa Qsa];
    by rewrite ?insert_insert_eq, !dom_insert_L.
Qed.

Lemma backprop_step_consistent m e root v :
  keys_consistent m -> keys_consistent (backprop_step root v m e).
Proof.
  intros (HQ & HN & HV).
  destruct (backprop_step_dom m e root v) as [H1 H2].
  destruct (backprop_step_frame m e root v) as (H3 & H4 & _ & H5).
  unfold keys_consistent. rewrite H1, H2, H3, H4, H5, HQ. done.
Qed.

Lemma backprop_fold_consistent path m root v :
  keys_consistent m -> keys_consistent (fold_left (backprop_step root v) path m).
Proof.
  revert m. induction path as [|e path IH]; intros m H; [done|].
  cbn [fold_left]. apply IH. by apply backprop_step_consistent.
Qed.

Lemma visits_cons (k : fp * pyact) e path :
  visits k (e :: path)
  = (if decide ((e.1.1, e.1.2) = k) then 1 else 0) + visits k path.
Proof.
  unfold visits. rewrite filter_cons. destruct (decide _); cbn [length]; lia.
Qed.

Lemma backprop_step_count m e root v k :
  default 0 (Nsa (backprop_step root v m e) !! k)
  = default 0 (Nsa m !! k) + visits k [e].
Proof.
  rewrite visits_cons. destruct e as [[s a] p]. cbn [fst snd].
  unfold visits, backprop_step. rewrite filter_nil. cbn [length].
  destruct (decide ((s, a) = k)) as [<-|Hne].
  - destruct (Nsa m !! (s, a)) as [n|] eqn:HN; cbn [Nsa];
      rewrite lookup_insert_eq; cbn; lia.
  - destruct (Nsa m !! (s, a)) as [n|] eqn:HN; cbn [Nsa];
      rewrite lookup_insert_ne by done; cbn; lia.
Qed.

Lemma backprop_fold_count path m root v k :
  default 0 (Nsa (fold_left (backprop_step root v) path m) !! k)
  = default 0 (Nsa m !! k) + visits k path.
Proof.
  revert m. induction path as [|e path IH]; intros m.
  - unfold visits. cbn. lia.
  - cbn [fold_left]. rewrite IH, backprop_step_count, !visits_cons.
    unfold visits. rewrite filter_nil. cbn [length]. lia.
Qed.

Lemma backpropagate_count {World : Type} m (g : Game World) s v path m' k :
  backpropagate m g s v path = Ret m' ->
  default 0 (Nsa m' !! k) = default 0 (Nsa m !! k) + visits k path.
Proof.
  unfold backpropagate. destruct path as [|e path].
  - intros [= <-]. unfold visits. cbn. lia.
  - destruct (match Es m !! s with Some x => Some x | None => v end); [|done].
    intros [= <-]. apply (backprop_fold_count (e :: path)).
Qed.

(** X6: Backpropagation adds to every edge count the number of entries of the
    path that go through the edge (an absent count standing for 0), and
    leaves the counts alone on an empty path. *)
Theorem backpropagate_counts_path {World : Type} m (g : Game World) s v path m' k :
  backpropagate m g s v path = Ret m' ->
  default 0 (Nsa m' !! k) = default 0 (Nsa m !! k) + visits k path
  /\ (path = [] -> m' = m).
Proof.
  intros H. split; [by eapply backpropagate_count|].
  intros ->. unfold backpropagate in H. by injection H as <-.
Qed.

End Statistics.

Section SearchMore.

Context {World : Type} (E : Env World) (args : Args).
Local Abbreviation Game := (Game World).
Implicit Types (m : MCTS) (g : Game) (s : fp) (r : Rng).

(** The phases of a simulation that ended normally, with the value each
    hands to the next. *)
Lemma search_phases fuel m game r state0 create_copy m' r' :
  search E args fuel m game r state0 create_copy = Done (m', r') ->
  exists g1 s1 next_s1 path g3 s2 g4 v1,
    let m1 := (record_end m g1 s1).1 in
    let g2 := (record_end m g1 s1).2 in
    let m2 := (expand E m1 g2 s1 next_s1).1 in
    let v := (expand E m1 g2 s1 next_s1).2 in
    select E args fuel m (cloneAndRandomize game r).1
           (stringRepresentation state0) state0 [] = Done (g1, s1, next_s1, path)
    /\ simulate E fuel m2 g2 s1 (cloneAndRandomize game r).2 = Done (g3, s2, r')
    /\ blend m2 g3 s2 v = Ret (g4, v1)
    /\ backpropagate m2 g4 s2 v1 path = Ret m'.
Proof.
  unfold search. destruct create_copy; [|done].
  destruct (cloneAndRandomize game r) as [game_copy r1].
  destruct (select _ _ _ _ _ _ _ _) as [[[[g1 s1] next_s1] path]| |] eqn:Hsel; try done.
  destruct (record_end m g1 s1) as [m1 g2] eqn:Hrec.
  destruct (expand E m1 g2 s1 next_s1) as [m2 v] eqn:Hexp.
  destruct (simulate _ _ _ _ _ _) as [[[g3 s2] r2]| |] eqn:Hsim; try done.
  destruct (blend m2 g3 s2 v) as [[g4 v1]|] eqn:Hbl; try done.
  destruct (backpropagate m2 g4 s2 v1 path) as [m3|] eqn:Hbp; try done.
  intros [= <- <-]. exists g1, s1, next_s1, path, g3, s2, g4, v1. cbn.
  rewrite Hrec. cbn [fst snd]. rewrite Hexp. cbn [fst snd]. done.
Qed.

Lemma record_end_Es m g s : Es m ⊆ Es (record_end m g s).1 \/ is_Some (Es m !! s).
Proof.
  unfold record_end. destruct (ended g); [|by left].
  destruct (getGameEnded g) as [g1 x]. cbn [fst Es].
  destruct (Es m !! s) eqn:H; [right; eauto|]. left. by apply insert_subseteq.
Qed.

Lemma record_end_dom_Es m g s : dom (Es m) ⊆ dom (Es (record_end m g s).1).
Proof.
  unfold record_end. destruct (ended g); [|done].
  destruct (getGameEnded g) as [g1 x]. cbn [fst Es]. rewrite dom_insert_L.
  set_solver.
Qed.

Lemma record_end_Vs m g s : Vs (record_end m g s).1 = Vs m.
Proof.
  unfold record_end. destruct (ended g); [|done]. by destruct (getGameEnded g).
Qed.

Lemma expand_consistent m g s next_s :
  keys_consistent m -> keys_consistent (expand E m g s next_s).1.
Proof.
  intros (HQ & HN & HV). unfold expand. destruct (_ && _); [|done].
  destruct (predict E next_s) as [P v].
  destruct (negb _); cbn [fst]; unfold keys_consistent; cbn [Qsa Nsa Ns Ps Vs];
    rewrite !dom_insert_L, <- HN, <- HV; done.
Qed.

Lemma expand_Ps_grow m g s next_s :
  Ps m ⊆ Ps (expand E m g s next_s).1 /\ dom (Ns m) ⊆ dom (Ns (expand E m g s next_s).1).
Proof.
  unfold expand. destruct (negb (mem (Es m) s)); cbn [andb]; [|done].
  unfold mem. destruct (Ps m !! s) eqn:HP; cbn [negb]; [done|].
  destruct (predict E next_s) as [P v].
  destruct (negb _); cbn [fst Ps Ns]; rewrite dom_insert_L;
    (split; [by apply insert_subseteq | set_solver]).
Qed.

Lemma search_consistent fuel m game r state0 create_copy m' r' :
  search E args fuel m game r state0 create_copy = Done (m', r') ->
  keys_consistent m -> keys_consistent m'.
Proof.
  intros H Hc. apply search_phases in H
    as (g1 & s1 & next_s1 & path & g3 & s2 & g4 & v1 & _ & _ & _ & Hbp).
  assert (Hc1 : keys_consistent (record_end m g1 s1).1).
  { destruct (record_end_frame m g1 s1) as (H1 & H2 & H3 & H4).
    unfold keys_consistent. rewrite H1, H2, H3, H4, record_end_Vs. exact Hc. }
  apply (expand_consistent _ (record_end m g1 s1).2 s1 next_s1) in Hc1.
  revert Hbp Hc1. generalize (expand E (record_end m g1 s1).1 (record_end m g1 s1).2
                                s1 next_s1).1.
  intros m2 Hbp Hc2. unfold backpropagate in Hbp. destruct path as [|e path].
  - by injection Hbp as <-.
  - destruct (match Es m2 !! s2 with Some x => Some x | None => v1 end); [|done].
    injection Hbp as <-. by apply (backprop_fold_consistent (e :: path)).
Qed.

(** X7: Simulations keep the keys of the dictionaries in step, so the lookups
    of the selection find what they read: an expanded fingerprint has a node
    count and a mask, and an edge with a value has a count. *)
Theorem run_sims_keys_consistent k fuel m game r state0 m' r' :
  run_sims E args k fuel m game r state0 = Done (m', r') ->
  keys_consistent m ->
  keys_consistent m'
  /\ (forall s, is_Some (Ps m' !! s) -> is_Some (Ns m' !! s) /\ is_Some (Vs m' !! s))
  /\ (forall e, is_Some (Qsa m' !! e) -> is_Some (Nsa m' !! e)).
Proof.
  intros H Hc. assert (Hc' : keys_consistent m').
  { revert m r H Hc. induction k as [|k IH]; intros m r; cbn [run_sims].
    - by intros [= <- <-].
    - destruct (search E args fuel m game r state0 true) as [[m1 r1]| |] eqn:Hs;
        try done.
      intros H Hc. eapply IH; [exact H|]. by eapply search_consistent. }
  split; [exact Hc'|]. destruct Hc' as (HQ & HN & HV). split.
  - intros s Hs. apply elem_of_dom in Hs. split; apply elem_of_dom; congruence.
  - intros e He. apply elem_of_dom in He. apply elem_of_dom. congruence.
Qed.

Lemma backprop_fold_dom (path : list (fp * pyact * pid)) m root v :
  dom (Nsa m) ⊆ dom (Nsa (fold_left (backprop_step root v) path m)).
Proof.
  revert m. induction path as [|e path IH]; intros m; [done|].
  cbn [fold_left]. etransitivity; [|apply IH].
  destruct (backprop_step_dom m e root v) as [-> _]. set_solver.
Qed.

(** X8: A simulation never drops or overwrites a cached prior, never drops a
    node count or a terminal value, and never lowers an edge count. *)
Theorem search_statistics_grow fuel m game r state0 create_copy m' r' :
  search E args fuel m game r state0 create_copy = Done (m', r') ->
  Ps m ⊆ Ps m'
  /\ dom (Ns m) ⊆ dom (Ns m')
  /\ dom (Es m) ⊆ dom (Es m')
  /\ forall e n, Nsa m !! e = Some n -> exists n', Nsa m' !! e = Some n' /\ n <= n'.
Proof.
  intros H. apply search_phases in H
    as (g1 & s1 & next_s1 & path & g3 & s2 & g4 & v1 & _ & _ & _ & Hbp).
  destruct (record_end_frame m g1 s1) as (_ & HN1 & HNs1 & HPs1).
  pose proof (record_end_dom_Es m g1 s1) as HEs1.
  destruct (expand_Ps_grow (record_end m g1 s1).1 (record_end m g1 s1).2 s1 next_s1)
    as [HPs2 HNs2].
  destruct (expand_frame E (record_end m g1 s1).1 (record_end m g1 s1).2 s1 next_s1)
    as (_ & HN2 & HEs2 & _).
  revert Hbp HPs2 HNs2 HN2 HEs2.
  generalize (expand E (record_end m g1 s1).1 (record_end m g1 s1).2 s1 next_s1).1.
  intros m2 Hbp HPs2 HNs2 HN2 HEs2.
  destruct (backpropagate_frame m2 g4 s2 v1 path m' Hbp) as (HNs3 & HPs3 & HEs3 & _).
  rewrite HPs3, HNs3, HEs3, HEs2. rewrite HPs1 in HPs2. rewrite HNs1 in HNs2.
  split; [exact HPs2|]. split; [exact HNs2|]. split; [exact HEs1|].
  intros e n He.
  pose proof (backpropagate_count m2 g4 s2 v1 path m' e Hbp) as Hcount.
  rewrite HN2, HN1, He in Hcount. cbn [default from_option id] in Hcount.
  assert (Hv : 0 <= visits e path) by (unfold visits; lia).
  destruct (Nsa m' !! e) as [n'|] eqn:He'.
  - exists n'. split; [done|]. cbn in Hcount. lia.
  - exfalso. assert (Hin : e ∈ dom (Nsa m2))
      by (rewrite HN2, HN1; apply elem_of_dom; eauto).
    assert (Hsub : dom (Nsa m2) ⊆ dom (Nsa m')).
    { clear -Hbp. unfold backpropagate in Hbp. destruct path as [|e0 path].
      - by injection Hbp as <-.
      - destruct (match Es m2 !! s2 with Some x => Some x | None => v1 end); [|done].
        injection Hbp as <-. apply (backprop_fold_dom (e0 :: path)). }
    apply Hsub, elem_of_dom in Hin. rewrite He' in Hin. by destruct Hin.
Qed.

End SearchMore.

(** ** The range of the stored values *)

(** Edge values and terminal values lie in [[-1, 1]]. *)
Definition values_bounded (m : MCTS) : Prop :=
  (forall e q, Qsa m !! e = Some q -> (-1 <= q <= 1)%Q)
  /\ (forall s x, Es m !! s = Some x -> (-1 <= x <= 1)%Q).

(** The oracle's value estimate lies in [[-1, 1]]. *)
Definition oracle_bounded {World : Type} (E : Env World) : Prop :=
  forall st, (-1 <= (predict E st).2 <= 1)%Q.

Definition opt_bounded (v : option Q) : Prop :=
  forall x, v = Some x -> (-1 <= x <= 1)%Q.

Section Bounds.

Context {World : Type} (E : Env World) (args : Args).
Local Abbreviation Game := (Game World).
Implicit Types (m : MCTS) (g : Game) (s : fp) (r : Rng).

Lemma getGameEnded_bounded g : (-1 <= (getGameEnded g).2 <= 1)%Q.
Proof.
  unfold getGameEnded.
  repeat (match goal with |- context [if ?b then _ else _] => destruct b end);
    cbn; unfold draw_value; lra.
Qed.

Lemma mean_update_bounded (n q v : Q) :
  (0 <= n)%Q -> (-1 <= q <= 1)%Q -> (-1 <= v <= 1)%Q ->
  (-1 <= (n * q + v) / (n + 1) <= 1)%Q /\ (-1 <= (n * q - v) / (n + 1) <= 1)%Q.
Proof.
  intros Hn Hq Hv.
  assert (Hlo : (- n <= n * q)%Q) by nra.
  assert (Hhi : (n * q <= n)%Q) by nra.
  assert (Hpos : (0 < n + 1)%Q) by lra.
  repeat split.
  - apply Qle_shift_div_l; [exact Hpos|]. lra.
  - apply Qle_shift_div_r; [exact Hpos|]. lra.
  - apply Qle_shift_div_l; [exact Hpos|]. lra.
  - apply Qle_shift_div_r; [exact Hpos|]. lra.
Qed.

Lemma backprop_step_bounded m e root v :
  counts_positive m -> (-1 <= v <= 1)%Q ->
  values_bounded m -> values_bounded (backprop_step root v m e).
Proof.
  intros Hpos Hv [HQ HE]. destruct e as [[s a] p].
  destruct (backprop_step_frame m (s, a, p) root v) as (_ & _ & HEs & _).
  split; [|by rewrite HEs].
  intros k q'. destruct (decide (k = (s, a))) as [->|Hne].
  - unfold backprop_step.
    destruct (Nsa m !! (s, a)) as [n|] eqn:HN; cbn [Qsa Nsa];
      rewrite !lookup_insert_eq; cbn [default from_option id]; intros [= <-].
    + assert (Hn : (0 <= inject_Z (n + 1))%Q).
      { change 0%Q with (inject_Z 0). rewrite <- Zle_Qle.
        specialize (Hpos _ _ HN). lia. }
      assert (Hq : (-1 <= default 0%Q (Qsa m !! (s, a)) <= 1)%Q).
      { destruct (Qsa m !! (s, a)) as [q|] eqn:Hq; cbn; [by eapply HQ|lra]. }
      destruct (mean_update_bounded _ _ v Hn Hq Hv) as [H1 H2].
      by destruct (pid_eqb p root).
    + assert (Hn : (0 <= inject_Z 1)%Q) by (unfold Qle; cbn; lia).
      assert (Hq : (-1 <= 0 <= 1)%Q) by lra.
      destruct (mean_update_bounded _ _ v Hn Hq Hv) as [H1 H2].
      by destruct (pid_eqb p root).
  - destruct (backprop_step_other m (s, a, p) root v k Hne) as [_ ->]. apply HQ.
Qed.

Lemma backprop_fold_bounded (path : list (fp * pyact * pid)) m root v :
  counts_positive m -> (-1 <= v <= 1)%Q ->
  values_bounded m -> values_bounded (fold_left (backprop_step root v) path m).
Proof.
  revert m. induction path as [|e path IH]; intros m Hpos Hv Hb; [done|].
  cbn [fold_left]. apply IH; [by apply backprop_step_positive|done|].
  by apply backprop_step_bounded.
Qed.

Lemma record_end_bounded m g s :
  values_bounded m -> values_bounded (record_end m g s).1.
Proof.
  intros [HQ HE]. unfold record_end. destruct (ended g); [|done].
  pose proof (getGameEnded_bounded g) as Hv.
  destruct (getGameEnded g) as [g1 x]. cbn [fst snd] in *. split; [exact HQ|].
  intros s' x'. cbn [Es]. destruct (decide (s = s')) as [->|Hne].
  - rewrite lookup_insert_eq. by intros [= <-].
  - rewrite lookup_insert_ne by done. apply HE.
Qed.

Lemma expand_bounded m g s next_s :
  oracle_bounded E -> opt_bounded (expand E m g s next_s).2.
Proof.
  intros Ho x. unfold expand. destruct (_ && _); [|done].
  specialize (Ho next_s). destruct (predict E next_s) as [P v]. cbn [snd] in Ho.
  destruct (negb _); cbn [snd]; intros [= <-]; lra.
Qed.

Lemma blend_bounded m g s v g' v' :
  blend m g s v = Ret (g', v') -> opt_bounded v -> opt_bounded v'.
Proof.
  unfold blend. destruct (_ && _); [|by intros [= <- <-]].
  destruct v as [x|]; [|done]. pose proof (getGameEnded_bounded g) as Hr.
  destruct (getGameEnded g) as [g1 y]. cbn [snd] in Hr.
  intros [= <- <-] Hx z [= <-]. specialize (Hx x eq_refl). lra.
Qed.

(** X9: With an oracle whose value estimate lies in [[-1, 1]], a simulation
    keeps every stored edge value and terminal value in [[-1, 1]]. *)
Theorem search_values_bounded fuel m game r state0 create_copy m' r' :
  oracle_bounded E ->
  search E args fuel m game r state0 create_copy = Done (m', r') ->
  counts_positive m -> values_bounded m -> values_bounded m'.
Proof.
  intros Ho H Hpos Hb. apply search_phases in H
    as (g1 & s1 & next_s1 & path & g3 & s2 & g4 & v1 & _ & _ & Hbl & Hbp).
  apply (record_end_bounded m g1 s1) in Hb.
  assert (Hpos1 : counts_positive (record_end m g1 s1).1).
  { intros e n. destruct (record_end_frame m g1 s1) as (_ & -> & _). apply Hpos. }
  pose proof (expand_bounded (record_end m g1 s1).1 (record_end m g1 s1).2 s1
                next_s1 Ho) as Hv.
  destruct (expand_frame E (record_end m g1 s1).1 (record_end m g1 s1).2 s1 next_s1)
    as (HQ2 & HN2 & HE2 & _).
  revert Hbl Hbp Hv HQ2 HN2 HE2.
  generalize (expand E (record_end m g1 s1).1 (record_end m g1 s1).2 s1 next_s1).2.
  generalize (expand E (record_end m g1 s1).1 (record_end m g1 s1).2 s1 next_s1).1.
  intros m2 v Hbl Hbp Hv HQ2 HN2 HE2.
  assert (Hb2 : values_bounded m2).
  { destruct Hb as [HQ HE]. split; [by rewrite HQ2|by rewrite HE2]. }
  assert (Hpos2 : counts_positive m2) by (intros e n; rewrite HN2; apply Hpos1).
  apply (blend_bounded _ _ _ _ _ _ Hbl) in Hv.
  unfold backpropagate in Hbp. destruct path as [|e path].
  - by injection Hbp as <-.
  - destruct (Es m2 !! s2) as [x|] eqn:HEs.
    + injection Hbp as <-. apply (backprop_fold_bounded (e :: path)); try done.
      destruct Hb2 as [_ HE]. by eapply HE.
    + destruct v1 as [x|]; [|done]. injection Hbp as <-.
      apply (backprop_fold_bounded (e :: path)); try done. by apply Hv.
Qed.

End Bounds.

(** ** The random draws of a determinization *)

Section ShuffleMore.

Context {A : Type}.
Implicit Types (l : list A) (r : Rng).

Lemma shuffle_from_length i l r : length (shuffle_from i l r).1 = length l.
Proof.
  revert l r. induction i as [|i IH]; intros l r; [done|].
  cbn [shuffle_from]. destruct (randbelow (S (S i)) r) as [j r'].
  by rewrite IH, swap_length.
Qed.

Lemma shuffle_from_draws i l r : (shuffle_from i l r).2 = drop i r.
Proof.
  revert l r. induction i as [|i IH]; intros l r; [done|].
  cbn [shuffle_from]. destruct r as [|x r]; cbn [randbelow].
  - rewrite IH. by rewrite !drop_nil.
  - by rewrite IH.
Qed.

Lemma shuffle_short l r : (length l <= 1)%nat -> shuffle l r = (l, r).
Proof.
  intros H. unfold shuffle. by replace (length l - 1)%nat with 0%nat by lia.
Qed.

End ShuffleMore.

Section DeterminizerMore.

Context {World : Type}.
Local Abbreviation Game := (Game World).

Lemma cloneAndRandomize_flags (game : Game) r :
  ended (cloneAndRandomize game r).1 = ended game
  /\ current_player (cloneAndRandomize game r).1 = current_player game
  /\ player_to_start (cloneAndRandomize game r).1 = player_to_start game
  /\ turn (cloneAndRandomize game r).1 = turn game
  /\ forall p, playstate (player_of (cloneAndRandomize game r).1 p)
               = playstate (player_of game p).
Proof.
  unfold cloneAndRandomize.
  destruct (shuffle _ r) as [h r1]. destruct (shuffle _ r1) as [d r2]. cbn [fst].
  destruct (current_player game) eqn:Hc; cbn; rewrite ?Hc;
    repeat split; try done; by intros [].
Qed.

(** X10: A determinization keeps the sizes of the opponent's hand and deck, takes
    one draw for every card but one of the hand and then of the deck, and
    changes nothing when neither holds two cards. *)
Theorem cloneAndRandomize_draws (game : Game) (r : Rng) :
  let opp := player_of game (opponent (current_player game)) in
  let clone := (cloneAndRandomize game r).1 in
  length (hand (player_of clone (opponent (current_player game)))) = length (hand opp)
  /\ length (deck (player_of clone (opponent (current_player game)))) = length (deck opp)
  /\ (cloneAndRandomize game r).2
     = drop ((length (hand opp) - 1) + (length (deck opp) - 1)) r
  /\ ((length (hand opp) <= 1)%nat -> (length (deck opp) <= 1)%nat ->
      cloneAndRandomize game r = (game, r)).
Proof.
  intros opp clone. subst clone. unfold cloneAndRandomize. fold opp.
  split; [|split; [|split]].
  - pose proof (shuffle_from_length (length (hand opp) - 1) (hand opp) r) as Hh.
    fold (shuffle (hand opp) r) in Hh.
    destruct (shuffle (hand opp) r) as [h r1]. destruct (shuffle (deck opp) r1) as [d r2].
    cbn [fst] in *. by destruct (opponent (current_player game)).
  - destruct (shuffle (hand opp) r) as [h r1].
    pose proof (shuffle_from_length (length (deck opp) - 1) (deck opp) r1) as Hd.
    fold (shuffle (deck opp) r1) in Hd.
    destruct (shuffle (deck opp) r1) as [d r2].
    cbn [fst] in *. by destruct (opponent (current_player game)).
  - pose proof (shuffle_from_draws (length (hand opp) - 1) (hand opp) r) as Hh.
    fold (shuffle (hand opp) r) in Hh.
    destruct (shuffle (hand opp) r) as [h r1]. cbn [snd] in Hh. subst r1.
    pose proof (shuffle_from_draws (length (deck opp) - 1) (deck opp)
                  (drop (length (hand opp) - 1) r)) as Hd.
    fold (shuffle (deck opp) (drop (length (hand opp) - 1) r)) in Hd.
    destruct (shuffle (deck opp) _) as [d r2]. cbn [snd] in *. subst r2.
    by rewrite drop_drop.
  - intros Hh Hd. rewrite (shuffle_short (hand opp) r Hh), (shuffle_short (deck opp) r Hd).
    f_equal. subst opp. destruct game as [pa pb cp ps t e d w]. cbn.
    destruct cp; cbn; [by destruct pb | by destruct pa].
Qed.

End DeterminizerMore.

(** ** The first simulations at a root *)

Section Roots.

Context {World : Type} (E : Env World) (args : Args).
Local Abbreviation Game := (Game World).
Implicit Types (m : MCTS) (g : Game) (s : fp) (r : Rng).

Lemma select_stops fuel m g s next_s path :
  negb (mem (Es m) s) && mem (Ps m) s && negb (ended g) = false ->
  select E args fuel m g s next_s path = Done (g, s, next_s, path).
Proof. intros H. destruct fuel; cbn [select]; by rewrite H. Qed.

Lemma simulate_stops fuel m g s r :
  negb (mem (Es m) s) && negb (ended g) = false ->
  simulate E fuel m g s r = Done (g, s, r).
Proof. intros H. destruct fuel; cbn [simulate]; by rewrite H. Qed.

Lemma getGameEnded_clone (game : Game) r :
  (getGameEnded (cloneAndRandomize game r).1).2 = (getGameEnded game).2.
Proof.
  destruct (cloneAndRandomize_flags game r) as (_ & _ & Hs & Ht & Hp).
  unfold getGameEnded. rewrite Hs, Ht, Hp.
  repeat (match goal with |- context [if ?b then _ else _] => destruct b end);
    reflexivity.
Qed.

(** X11: A simulation on a game that is already flagged ended needs no fuel and
    no oracle: it stores the terminal value of the game under the root
    fingerprint and leaves every other dictionary as it was. *)
Theorem search_terminal_root fuel m (game : Game) r state0 :
  ended game = true ->
  search E args fuel m game r state0 true
  = Done (mkMCTS (Qsa m) (Nsa m) (Ns m) (Ps m)
                 (<[stringRepresentation state0 := (getGameEnded game).2]> (Es m))
                 (Vs m),
          (cloneAndRandomize game r).2).
Proof.
  intros Hended. unfold search.
  pose proof (cloneAndRandomize_flags game r) as (He & _).
  pose proof (getGameEnded_clone game r) as Hv.
  destruct (cloneAndRandomize game r) as [game_copy r1]. cbn [fst snd] in *.
  rewrite Hended in He. set (s := stringRepresentation state0).
  rewrite select_stops by (rewrite He; apply andb_false_r).
  unfold record_end. rewrite He.
  destruct (getGameEnded game_copy) as [g1 x] eqn:Hg. cbn [snd] in Hv. subst x.
  unfold expand, mem. cbn [Es]. rewrite lookup_insert_eq. cbn [negb andb].
  rewrite simulate_stops
    by (unfold mem; cbn [Es]; by rewrite lookup_insert_eq).
  unfold blend, mem. cbn [Es]. rewrite lookup_insert_eq. cbn [negb andb].
  reflexivity.
Qed.

(** X12: The simulation that meets a root for the first time only expands it:
    when the root is neither cached nor terminal and the game is not ended,
    a simulation that ends normally has cached a prior for the root, set
    its node count to 0 and left the edge statistics untouched. *)
Theorem search_unexpanded_root fuel m (game : Game) r state0 m' r' :
  let s0 := stringRepresentation state0 in
  mem (Ps m) s0 = false -> mem (Es m) s0 = false -> ended game = false ->
  search E args fuel m game r state0 true = Done (m', r') ->
  Qsa m' = Qsa m /\ Nsa m' = Nsa m
  /\ Ns m' = <[s0 := 0]> (Ns m)
  /\ Ps m' !! s0
     = Some (renormalize
               (masked (predict E state0).1
                       (getValidMoves E (cloneAndRandomize game r).1)
                       (current_decay (cloneAndRandomize game r).1))).
Proof.
  intros s0 HPs HEs Hended H. apply search_phases in H
    as (g1 & s1 & next_s1 & path & g3 & s2 & g4 & v1 & Hsel & _ & _ & Hbp).
  rewrite select_stops in Hsel
    by (fold s0; rewrite HPs, andb_false_r; reflexivity).
  injection Hsel as <- <- <- <-. fold s0 in Hbp.
  destruct (cloneAndRandomize_flags game r) as (He & _). rewrite Hended in He.
  revert Hbp. unfold record_end. rewrite He. cbn [fst snd].
  unfold backpropagate. intros [= <-].
  unfold expand. rewrite HEs, HPs. cbn [negb andb].
  destruct (predict E state0) as [P v]. cbn [fst].
  destruct (negb _); cbn [fst Qsa Nsa Ns Ps]; rewrite lookup_insert_eq; done.
Qed.

End Roots.

(** ** One visited action *)



(** * The legal-move mask ([YEET.getValidMoves]) *)

(** The queries of the rule engine that only [getValidMoves] makes. *)
Record Queries {World : Type} := mkQueries {
  is_playable : Game World -> card -> bool;
  choose_cards : Game World -> card -> list card;
  can_attack : Game World -> card -> bool;
  is_usable : Game World -> card -> bool
}.
Arguments Queries World : clear implicits.
Arguments mkQueries {World}.

(** [np.zeros((21,18))] *)
Definition zeros : Z -> Z -> bool := fun _ _ => false.

(** [actions[i, j] = 1]; numpy raises [IndexError] outside the array. *)
Definition set_entry (m : Z -> Z -> bool) (i j : nat) : res (Z -> Z -> bool) :=
  if (i <? 21)%nat && (j <? 18)%nat then
    Ret (fun a b => if (a =? Z.of_nat i) && (b =? Z.of_nat j) then true else m a b)
  else Raise IndexError.

(** [actions[i] = 1]: the whole row. *)
Definition set_row (m : Z -> Z -> bool) (i : nat) : res (Z -> Z -> bool) :=
  if (i <? 21)%nat then
    Ret (fun a b => if (a =? Z.of_nat i) && (0 <=? b) && (b <? 18) then true else m a b)
  else Raise IndexError.

(** A loop whose body may raise. *)
Fixpoint res_fold {A S : Type} (f : S -> A -> res S) (l : list A) (s : S) : res S :=
  match l with
  | [] => Ret s
  | x :: l' =>
      match f s x with
      | Ret s' => res_fold f l' s'
      | Raise e => Raise e
      end
  end.

(** [for j, _ in enumerate(l): actions[i, j] = 1] *)
Definition set_enumerated {A : Type} (m : Z -> Z -> bool) (i : nat) (l : list A)
  : res (Z -> Z -> bool) :=
  res_fold (fun m j => set_entry m i j) (seq 0 (length l)) m.

Section Mask.

Context {World : Type} (E : Env World) (Qr : Queries World).
Local Abbreviation Game := (Game World).

(** The body of the loop over the hand. *)
Definition hand_step (g : Game) (m : Z -> Z -> bool) (ic : nat * card)
  : res (Z -> Z -> bool) :=
  let '(index, c) := ic in
  if is_playable Qr g c then
    if requires_target E g c then set_enumerated m index (targets E g c)
    else if must_choose_one E g c then set_enumerated m index (choose_cards Qr g c)
    else set_row m index
  else Ret m.

(** The body of the loop over the field. *)
Definition field_step (g : Game) (m : Z -> Z -> bool) (pm : nat * card)
  : res (Z -> Z -> bool) :=
  let '(position, minion) := pm in
  if can_attack Qr g minion then
    set_enumerated m (position + 10) (attack_targets E g minion)
  else Ret m.

(** [YEET.getValidMoves] *)
Definition getValidMoves_model (g : Game) : res (Z -> Z -> bool) :=
  let actions := zeros in
  let player := player_of g (current_player g) in
  match choice player with
  | Some cards => set_enumerated actions 20 cards
  | None =>
      match res_fold (hand_step g) (imap pair (hand player)) actions with
      | Raise e => Raise e
      | Ret m1 =>
          match res_fold (field_step g) (imap pair (field player)) m1 with
          | Raise e => Raise e
          | Ret m2 =>
              match
                (if is_usable Qr g (hero_power player) then
                   if requires_target E g (hero_power player) then
                     set_enumerated m2 17 (targets E g (hero_power player))
                   else set_row m2 17
                 else Ret m2)
              with
              | Raise e => Raise e
              | Ret m3 =>
                  match
                    (if can_attack Qr g (hero player) then
                       set_enumerated m3 18 (attack_targets E g (hero player))
                     else Ret m3)
                  with
                  | Raise e => Raise e
                  | Ret m4 => set_entry m4 19 1
                  end
              end
          end
      end
  end.

End Mask.

Section MaskFacts.

Implicit Types (m : Z -> Z -> bool) (i j : nat).

Lemma set_entry_Ret m i j m' :
  set_entry m i j = Ret m' ->
  (i < 21)%nat /\ (j < 18)%nat
  /\ forall a b, m' a b = true
       <-> (a = Z.of_nat i /\ b = Z.of_nat j) \/ m a b = true.
Proof.
  unfold set_entry. destruct (Nat.ltb_spec i 21); [|done].
  destruct (Nat.ltb_spec j 18); [|done]. cbn [andb]. intros [= <-].
  split; [done|]. split; [done|]. intros a b.
  destruct (Z.eqb_spec a (Z.of_nat i)), (Z.eqb_spec b (Z.of_nat j)); cbn [andb];
    intuition (try lia; try done).
Qed.

Lemma set_row_Ret m i m' :
  set_row m i = Ret m' ->
  (i < 21)%nat
  /\ forall a b, m' a b = true
       <-> (a = Z.of_nat i /\ 0 <= b < 18) \/ m a b = true.
Proof.
  unfold set_row. destruct (Nat.ltb_spec i 21); [|done]. intros [= <-].
  split; [done|]. intros a b.
  destruct (Z.eqb_spec a (Z.of_nat i)), (Z.leb_spec 0 b), (Z.ltb_spec b 18);
    cbn [andb]; intuition (try lia; try done).
Qed.

Lemma set_range_Ret m i start n m' :
  res_fold (fun m j => set_entry m i j) (seq start n) m = Ret m' ->
  forall a b, m' a b = true
    <-> (a = Z.of_nat i /\ Z.of_nat start <= b < Z.of_nat (start + n)) \/ m a b = true.
Proof.
  revert start m. induction n as [|n IH]; intros start m; cbn [seq res_fold].
  - intros [= <-] a b. intuition lia.
  - destruct (set_entry m i start) as [m1|] eqn:Hset; [|done].
    apply set_entry_Ret in Hset as (_ & _ & H1). intros H a b.
    rewrite (IH _ _ H a b), H1. intuition lia.
Qed.

Lemma set_range_total m i start n :
  (i < 21)%nat -> (start + n <= 18)%nat ->
  exists m', res_fold (fun m j => set_entry m i j) (seq start n) m = Ret m'.
Proof.
  intros Hi. revert start m. induction n as [|n IH]; intros start m Hn;
    cbn [seq res_fold]; [eauto|].
  unfold set_entry at 1.
  destruct (Nat.ltb_spec i 21); [|lia]. destruct (Nat.ltb_spec start 18); [|lia].
  cbn [andb]. apply IH. lia.
Qed.

Lemma set_range_overflow m i start n :
  (start <= 18)%nat -> (18 < start + n)%nat ->
  res_fold (fun m j => set_entry m i j) (seq start n) m = Raise IndexError.
Proof.
  revert start m. induction n as [|n IH]; intros start m Hs Hn; [lia|].
  cbn [seq res_fold]. unfold set_entry at 1.
  destruct (Nat.ltb_spec i 21); [|done]. destruct (Nat.ltb_spec start 18); [|done].
  cbn [andb]. apply IH; lia.
Qed.

Lemma set_enumerated_Ret {A} m i (l : list A) m' :
  set_enumerated m i l = Ret m' ->
  forall a b, m' a b = true
    <-> (a = Z.of_nat i /\ 0 <= b < Z.of_nat (length l)) \/ m a b = true.
Proof.
  unfold set_enumerated. intros H a b.
  rewrite (set_range_Ret _ _ _ _ _ H a b). cbn. intuition lia.
Qed.

Lemma set_enumerated_bound {A} m i (l : list A) m' :
  set_enumerated m i l = Ret m' -> (length l <= 18)%nat.
Proof.
  unfold set_enumerated. intros H.
  destruct (le_lt_dec (length l) 18) as [Hle|Hgt]; [done|].
  rewrite set_range_overflow in H by lia. done.
Qed.

Lemma res_fold_invariant {A S} (I : S -> Prop) (f : S -> A -> res S) l s s' :
  I s ->
  (forall s0 x s1, x ∈ l -> I s0 -> f s0 x = Ret s1 -> I s1) ->
  res_fold f l s = Ret s' -> I s'.
Proof.
  revert s. induction l as [|x l IH]; intros s Hs Hstep; cbn [res_fold].
  - by intros [= <-].
  - destruct (f s x) as [s1|] eqn:Hf; [|done]. apply IH.
    + eapply Hstep; [|exact Hs|exact Hf]. apply elem_of_cons. by left.
    + intros s0 y s2 Hy. apply Hstep. apply elem_of_cons. by right.
Qed.

End MaskFacts.

(** Every legal entry lies in a row below [k] and in a column of the
    array. *)
Definition rows_below (k : Z) (m : Z -> Z -> bool) : Prop :=
  forall a b, m a b = true -> 0 <= a < k /\ 0 <= b < 18.

Section MaskTheorems.

Context {World : Type} (E : Env World) (Qr : Queries World).
Local Abbreviation Game := (Game World).

Lemma set_enumerated_rows {A} k m i (l : list A) m' :
  Z.of_nat i < k -> rows_below k m ->
  set_enumerated m i l = Ret m' -> rows_below k m'.
Proof.
  intros Hi Hm H a b Hab. pose proof (set_enumerated_bound _ _ _ _ H) as Hlen.
  apply (set_enumerated_Ret _ _ _ _ H) in Hab as [[-> Hb]|Hab]; [lia|by apply Hm].
Qed.

Lemma set_row_rows k m i m' :
  Z.of_nat i < k -> rows_below k m -> set_row m i = Ret m' -> rows_below k m'.
Proof.
  intros Hi Hm H a b Hab. apply set_row_Ret in H as [_ H].
  apply H in Hab as [[-> Hb]|Hab]; [lia|by apply Hm].
Qed.

(** X14: With a choice pending the mask offers the choices, one entry of row 20
    for each card of the choice, and nothing else; more than 18 cards make
    the call raise [IndexError]. *)
Theorem getValidMoves_pending_choice (g : Game) (cards : list card) :
  choice (player_of g (current_player g)) = Some cards ->
  ((length cards <= 18)%nat ->
   exists mask,
     getValidMoves_model E Qr g = Ret mask
     /\ forall a b, mask a b = true <-> a = 20 /\ 0 <= b < Z.of_nat (length cards))
  /\ ((18 < length cards)%nat -> getValidMoves_model E Qr g = Raise IndexError).
Proof.
  intros Hc. unfold getValidMoves_model. rewrite Hc. split.
  - intros Hlen.
    destruct (set_range_total zeros 20 0 (length cards)) as [mask Hm]; [lia|lia|].
    exists mask. split; [exact Hm|]. intros a b.
    rewrite (set_enumerated_Ret zeros 20 cards mask Hm a b). unfold zeros.
    intuition (try lia; try done).
  - intros Hlen. apply set_range_overflow; lia.
Qed.

(** X15: With no choice pending, a hand of at most 10 cards and a field of at
    most 7 minions, a mask that is returned offers the end of the turn,
    action (19, 1), and has every legal entry in rows 0 to 19 of the 21x18
    array: row 20 is left to the choices. *)
Theorem getValidMoves_offers_end_turn (g : Game) mask :
  let player := player_of g (current_player g) in
  choice player = None ->
  (length (hand player) <= 10)%nat -> (length (field player) <= 7)%nat ->
  getValidMoves_model E Qr g = Ret mask ->
  mask 19 1 = true /\ rows_below 20 mask.
Proof.
  intros player Hc Hhand Hfield. unfold getValidMoves_model. fold player.
  rewrite Hc.
  destruct (res_fold (hand_step E Qr g) _ zeros) as [m1|] eqn:H1; [|done].
  destruct (res_fold (field_step E Qr g) _ m1) as [m2|] eqn:H2; [|done].
  destruct (if is_usable Qr g (hero_power player) then _ else _) as [m3|] eqn:H3;
    [|done].
  destruct (if can_attack Qr g (hero player) then _ else _) as [m4|] eqn:H4;
    [|done].
  intros H5.
  assert (I1 : rows_below 20 m1).
  { eapply (res_fold_invariant (rows_below 20)); [| |exact H1]; [done|].
    intros m0 [index c] m' Hin Hm0.
    apply elem_of_lookup_imap in Hin as (i & c' & [= -> ->] & Hi).
    apply lookup_lt_Some in Hi. unfold hand_step.
    destruct (is_playable Qr g c'); [|by intros [= <-]].
    destruct (requires_target E g c');
      [apply set_enumerated_rows; [lia|done]|].
    destruct (must_choose_one E g c');
      [apply set_enumerated_rows; [lia|done]|].
    apply set_row_rows; [lia|done]. }
  assert (I2 : rows_below 20 m2).
  { eapply (res_fold_invariant (rows_below 20)); [| |exact H2]; [done|].
    intros m0 [position minion] m' Hin Hm0.
    apply elem_of_lookup_imap in Hin as (i & c' & [= -> ->] & Hi).
    apply lookup_lt_Some in Hi. unfold field_step.
    destruct (can_attack Qr g c'); [|by intros [= <-]].
    apply set_enumerated_rows; [lia|done]. }
  assert (I3 : rows_below 20 m3).
  { destruct (is_usable Qr g (hero_power player)); [|by injection H3 as <-].
    destruct (requires_target E g (hero_power player)).
    - eapply set_enumerated_rows; [|exact I2|exact H3]. lia.
    - eapply set_row_rows; [|exact I2|exact H3]. lia. }
  assert (I4 : rows_below 20 m4).
  { destruct (can_attack Qr g (hero player)); [|by injection H4 as <-].
    eapply set_enumerated_rows; [|exact I3|exact H4]. lia. }
  apply set_entry_Ret in H5 as (_ & _ & H5). split.
  - apply H5. by left.
  - intros a b Hab. apply H5 in Hab as [[-> ->]|Hab]; [lia|by apply I4].
Qed.

End MaskTheorems.

(** * What the search never hands to the adapter *)

(** No call of the rule engine raises [UnhandledAction], which is the
    adapter's own exception. *)
Definition engine_quiet {World : Type} (E : Env World) : Prop :=
  (forall c t ch g, (card_play E c t ch g).2 <> Some UnhandledAction)
  /\ (forall c t g, (card_attack E c t g).2 <> Some UnhandledAction)
  /\ (forall c t g, (power_use E c t g).2 <> Some UnhandledAction)
  /\ (forall c g, (choice_choose E c g).2 <> Some UnhandledAction)
  /\ (forall g, (end_turn E g).2 <> Some UnhandledAction).

Section Unhandled.

Context {World : Type} (E : Env World) (args : Args).
Local Abbreviation Game := (Game World).
Implicit Types (m : MCTS) (g : Game) (s : fp) (r : Rng).

(** A step of the adapter that does not raise [UnhandledAction]. *)
Definition quiet {A} (c : M A) : Prop :=
  forall g, (c g).2 <> Raise UnhandledAction.

Lemma quiet_call (f : Game -> Game * option exn) :
  (forall g, (f g).2 <> Some UnhandledAction) -> quiet (call f).
Proof.
  intros H g. unfold call. specialize (H g). destruct (f g) as [g1 [e|]]; cbn in *.
  - congruence.
  - done.
Qed.

Lemma quiet_index {A B} (l : list A) i (k : A -> M B) :
  (forall x, quiet (k x)) -> quiet (bindM (index l i) k).
Proof.
  intros H g. unfold bindM, index. destruct (py_index l i) as [x|]; cbn.
  - apply H.
  - done.
Qed.

Lemma performAction_body_quiet p a0 a1 :
  engine_quiet E -> 0 <= a0 < 21 -> quiet (performAction_body E p a0 a1).
Proof.
  intros (Hplay & Hattack & Huse & Hchoose & Hend) Ha g.
  unfold performAction_body, bindM at 1, getM.
  destruct ((0 <=? a0) && (a0 <=? 9)) eqn:H1.
  { apply quiet_index. intros c.
    destruct (requires_target E g c);
      [apply quiet_index; intros t; by apply quiet_call|].
    destruct (must_choose_one E g c);
      [apply quiet_index; intros t; by apply quiet_call|].
    by apply quiet_call. }
  destruct ((10 <=? a0) && (a0 <=? 16)) eqn:H2.
  { apply quiet_index. intros c. apply quiet_index. intros t. by apply quiet_call. }
  destruct (Z.eqb_spec a0 17).
  { destruct (requires_target E g _);
      [apply quiet_index; intros t; by apply quiet_call|by apply quiet_call]. }
  destruct (Z.eqb_spec a0 18).
  { apply quiet_index. intros t. by apply quiet_call. }
  destruct (Z.eqb_spec a0 19); [by apply quiet_call|].
  destruct (choice (player_of g p)) as [cards|].
  { apply quiet_index. intros c. by apply quiet_call. }
  destruct (Z.eqb_spec a0 20); [by apply quiet_call|].
  exfalso. apply andb_false_iff in H1, H2. lia.
Qed.

Lemma getNextState_grid_quiet player a b g :
  engine_quiet E -> (a, b) ∈ grid ->
  (getNextState E player (Act a b) g).2 <> Raise UnhandledAction.
Proof.
  intros Hq Hin. apply elem_of_grid in Hin as [Ha _].
  assert (Hp : (performAction E (Act a b) g).2 <> Some UnhandledAction).
  { unfold performAction. destruct (ended g); [done|].
    pose proof (performAction_body_quiet (current_player g) a b Hq
                  ltac:(lia) g) as Hbody.
    cbn [performAction_try].
    destruct (performAction_body E (current_player g) a b g) as [g1 [[]|e]];
      [done|]. cbn [snd] in Hbody.
    destruct Hq as (_ & _ & _ & _ & Hend).
    destruct e; try done; try apply Hend.
    unfold recover_index. specialize (Hend g1).
    destruct (end_turn E g1) as [g2 [e|]]; [|done]. by destruct e. }
  unfold getNextState. destruct (performAction E (Act a b) g) as [g1 [e|]].
  - destruct e; cbn in *; try destruct (negb _); done.
  - cbn. by destruct (negb _).
Qed.

Lemma scan_in_grid m s valids :
  (scan E args m s valids).2 = NoAct
  \/ exists a b, (a, b) ∈ grid /\ (scan E args m s valids).2 = Act a b.
Proof.
  destruct (scan_inv_fold E args m s valids grid)
    as [[H _] | (l1 & a & b & l2 & Hg & _ & H & _)].
  - left. unfold scan. by rewrite H.
  - right. exists a, b. split.
    + rewrite Hg. apply elem_of_app. right. apply elem_of_cons. by left.
    + unfold scan. by rewrite H.
Qed.

Lemma argwhere_in_grid valids act :
  act ∈ argwhere valids -> exists a b, (a, b) ∈ grid /\ act = Act a b.
Proof.
  unfold argwhere. intros H. apply list_elem_of_fmap in H as ([a b] & -> & H).
  apply list_elem_of_filter in H as [_ H]. by exists a, b.
Qed.

Lemma random_choice_elem {A} (l : list A) r x r' :
  random_choice l r = Some (x, r') -> x ∈ l.
Proof.
  unfold random_choice. destruct l as [|y l]; [done|].
  destruct (randbelow _ r) as [i r1].
  destruct ((y :: l) !! i) as [z|] eqn:Hz; [|done].
  intros [= <- <-]. by eapply list_elem_of_lookup_2.
Qed.

Lemma select_never_unhandled fuel m g s next_s path :
  engine_quiet E ->
  select E args fuel m g s next_s path <> Failed UnhandledAction.
Proof.
  intros Hq. revert g s next_s path.
  induction fuel as [|fuel IH]; intros g s next_s path; cbn [select].
  - by destruct (_ && _).
  - destruct (_ && _); [|done].
    assert (Hnext : (getNextState E 1 (scan E args m s (getValidMoves E g)).2 g).2
                    <> Raise UnhandledAction).
    { destruct (scan_in_grid m s (getValidMoves E g))
        as [-> | (a & b & Hin & ->)].
      - by rewrite getNextState_NoAct.
      - by apply getNextState_grid_quiet. }
    destruct (getNextState E 1 (scan E args m s (getValidMoves E g)).2 g)
      as [g1 [[ns np]|e']]; [apply IH|].
    cbn in Hnext. destruct e'; congruence.
Qed.

Lemma simulate_never_unhandled fuel m g s r :
  engine_quiet E -> simulate E fuel m g s r <> Failed UnhandledAction.
Proof.
  intros Hq. revert g s r.
  induction fuel as [|fuel IH]; intros g s r; cbn [simulate].
  - by destruct (_ && _).
  - destruct (_ && _); [|done].
    destruct (random_choice _ r) as [[act r1]|] eqn:Hc; [|done].
    apply random_choice_elem, argwhere_in_grid in Hc as (a & b & Hin & ->).
    pose proof (getNextState_grid_quiet 1 a b g Hq Hin) as Hnext.
    destruct (getNextState E 1 (Act a b) g) as [g1 [[ns np]|e']]; [apply IH|].
    cbn in Hnext. destruct e'; congruence.
Qed.

(** X16: The adapter's [UnhandledAction] is unreachable from the search: with an
    engine that never raises it, no simulation fails with it, because every
    action the search applies comes from the 21x18 grid. *)
Theorem search_never_unhandled fuel m (game : Game) r state0 create_copy :
  engine_quiet E ->
  search E args fuel m game r state0 create_copy <> Failed UnhandledAction.
Proof.
  intros Hq. unfold search. destruct create_copy; [|done].
  destruct (cloneAndRandomize game r) as [game_copy r1].
  pose proof (select_never_unhandled fuel m game_copy
                (stringRepresentation state0) state0 [] Hq) as Hsel.
  destruct (select _ _ _ _ _ _ _ _) as [[[[g1 s1] next_s1] path]|e|]; try done;
    [|congruence].
  destruct (record_end m g1 s1) as [m1 g2].
  destruct (expand E m1 g2 s1 next_s1) as [m2 v].
  pose proof (simulate_never_unhandled fuel m2 g2 s1 r1 Hq) as Hsim.
  destruct (simulate _ _ _ _ _ _) as [[[g3 s2] r2]|e|]; try done; [|congruence].
  assert (Hbl : blend m2 g3 s2 v <> Raise UnhandledAction).
  { unfold blend. destruct (_ && _); [|done]. destruct v; [|done].
    by destruct (getGameEnded g3). }
  destruct (blend m2 g3 s2 v) as [[g4 v1]|e1]; [|congruence].
  assert (Hbp : backpropagate m2 g4 s2 v1 path <> Raise UnhandledAction).
  { unfold backpropagate. destruct path; [done|].
    by destruct (match Es m2 !! s2 with Some x => Some x | None => v1 end). }
  destruct (backpropagate m2 g4 s2 v1 path); [done|congruence].
Qed.

End Unhandled.

(** * The mask against the dispatch *)

Section Offered.

Context {World : Type} (E : Env World) (Qr : Queries World).
Local Abbreviation Game := (Game World).

(** What one hand card and one minion add to the mask. *)
Definition hand_sets (g : Game) (ic : nat * card) (a b : Z) : Prop :=
  is_playable Qr g ic.2 = true /\ a = Z.of_nat ic.1
  /\ if requires_target E g ic.2
     then 0 <= b < Z.of_nat (length (targets E g ic.2))
     else if must_choose_one E g ic.2
          then 0 <= b < Z.of_nat (length (choose_cards Qr g ic.2))
          else 0 <= b < 18.

Definition field_sets (g : Game) (pm : nat * card) (a b : Z) : Prop :=
  can_attack Qr g pm.2 = true /\ a = Z.of_nat (pm.1 + 10)
  /\ 0 <= b < Z.of_nat (length (attack_targets E g pm.2)).

Definition power_sets (g : Game) (a b : Z) : Prop :=
  let power := hero_power (player_of g (current_player g)) in
  is_usable Qr g power = true /\ a = 17
  /\ if requires_target E g power
     then 0 <= b < Z.of_nat (length (targets E g power))
     else 0 <= b < 18.

Definition hero_sets (g : Game) (a b : Z) : Prop :=
  let h := hero (player_of g (current_player g)) in
  can_attack Qr g h = true /\ a = 18
  /\ 0 <= b < Z.of_nat (length (attack_targets E g h)).

(** The actions the position offers, read off the branches of
    [getValidMoves]. *)
Definition offered (g : Game) (a b : Z) : Prop :=
  let player := player_of g (current_player g) in
  match choice player with
  | Some cards => a = 20 /\ 0 <= b < Z.of_nat (length cards)
  | None =>
      (exists i c, hand player !! i = Some c /\ hand_sets g (i, c) a b)
      \/ (exists i m, field player !! i = Some m /\ field_sets g (i, m) a b)
      \/ power_sets g a b
      \/ hero_sets g a b
      \/ (a = 19 /\ b = 1)
  end.

(** The sizes the rule engine keeps: a hand of at most 10 cards, at most 7
    minions, and no list of targets or options longer than a row of the
    mask. *)
Definition engine_sizes (g : Game) : Prop :=
  let player := player_of g (current_player g) in
  (length (hand player) <= 10)%nat
  /\ (length (field player) <= 7)%nat
  /\ (forall cards, choice player = Some cards -> (length cards <= 18)%nat)
  /\ (forall c, (length (targets E g c) <= 18)%nat)
  /\ (forall c, (length (choose_cards Qr g c) <= 18)%nat)
  /\ (forall c, (length (attack_targets E g c) <= 18)%nat).

(** The engine call an action of the adapter ends in. *)
Inductive engine_call : (Game -> Game * option exn) -> Prop :=
| call_play c t ch : engine_call (card_play E c t ch)
| call_attack c t : engine_call (card_attack E c t)
| call_use c t : engine_call (power_use E c t)
| call_choose c : engine_call (choice_choose E c)
| call_end_turn : engine_call (end_turn E).

Lemma res_fold_union {A} (f : (Z -> Z -> bool) -> A -> res (Z -> Z -> bool))
    (sets : A -> Z -> Z -> Prop) l m m' :
  (forall m0 x m1, f m0 x = Ret m1 ->
     forall a b, m1 a b = true <-> sets x a b \/ m0 a b = true) ->
  res_fold f l m = Ret m' ->
  forall a b, m' a b = true <-> (exists x, x ∈ l /\ sets x a b) \/ m a b = true.
Proof.
  intros Hstep. revert m. induction l as [|x l IH]; intros m; cbn [res_fold].
  - intros [= <-] a b. split; [by right|]. intros [(x & Hx & _)|H]; [|done].
    by apply elem_of_nil in Hx.
  - destruct (f m x) as [m1|] eqn:Hf; [|done]. intros H a b.
    rewrite (IH _ H a b), (Hstep _ _ _ Hf a b). split.
    + intros [(y & Hy & Hs)|[Hs|Hm]].
      * left. exists y. split; [|done]. apply elem_of_cons. by right.
      * left. exists x. split; [|done]. apply elem_of_cons. by left.
      * by right.
    + intros [(y & Hy & Hs)|Hm]; [|by right; right].
      apply elem_of_cons in Hy as [->|Hy]; [by right; left|].
      left. by exists y.
Qed.

Lemma res_fold_total {A S} (f : S -> A -> res S) l s :
  (forall s0 x, x ∈ l -> exists s1, f s0 x = Ret s1) ->
  exists s', res_fold f l s = Ret s'.
Proof.
  revert s. induction l as [|x l IH]; intros s H; cbn [res_fold]; [eauto|].
  destruct (H s x) as [s1 ->]; [apply elem_of_cons; by left|].
  apply IH. intros s0 y Hy. apply H. apply elem_of_cons. by right.
Qed.

Lemma set_enumerated_total {A} m i (l : list A) :
  (i < 21)%nat -> (length l <= 18)%nat -> exists m', set_enumerated m i l = Ret m'.
Proof. intros Hi Hl. apply set_range_total; [done|lia]. Qed.

Lemma set_row_total m i : (i < 21)%nat -> exists m', set_row m i = Ret m'.
Proof.
  intros Hi. unfold set_row. destruct (Nat.ltb_spec i 21); [eauto|lia].
Qed.

Lemma hand_step_sets g m0 x m1 :
  hand_step E Qr g m0 x = Ret m1 ->
  forall a b, m1 a b = true <-> hand_sets g x a b \/ m0 a b = true.
Proof.
  destruct x as [i c]. unfold hand_step, hand_sets. cbn [fst snd].
  destruct (is_playable Qr g c).
  - destruct (requires_target E g c); [|destruct (must_choose_one E g c)];
      intros H a b.
    + rewrite (set_enumerated_Ret _ _ _ _ H a b). intuition.
    + rewrite (set_enumerated_Ret _ _ _ _ H a b). intuition.
    + apply set_row_Ret in H as [_ H]. rewrite (H a b). intuition.
  - intros [= <-] a b. intuition. done.
Qed.

Lemma field_step_sets g m0 x m1 :
  field_step E Qr g m0 x = Ret m1 ->
  forall a b, m1 a b = true <-> field_sets g x a b \/ m0 a b = true.
Proof.
  destruct x as [i c]. unfold field_step, field_sets. cbn [fst snd].
  destruct (can_attack Qr g c).
  - intros H a b. rewrite (set_enumerated_Ret _ _ _ _ H a b). intuition.
  - intros [= <-] a b. intuition. done.
Qed.

Lemma elem_of_imap_pair {A} (l : list A) (x : nat * A) :
  x ∈ imap pair l <-> l !! x.1 = Some x.2.
Proof.
  destruct x as [i c]. rewrite elem_of_lookup_imap. cbn [fst snd]. split.
  - by intros (j & y & [= -> ->] & H).
  - intros H. by exists i, c.
Qed.

Lemma py_index_nat {A} (l : list A) (i : nat) x :
  l !! i = Some x -> py_index l (Z.of_nat i) = Some x.
Proof.
  intros H. unfold py_index. destruct (Z.leb_spec 0 (Z.of_nat i)); [|lia].
  by rewrite Nat2Z.id.
Qed.

Lemma py_index_in {A} (l : list A) (b : Z) :
  0 <= b < Z.of_nat (length l) -> exists x, py_index l b = Some x.
Proof.
  intros Hb. destruct (lookup_lt_is_Some_2 l (Z.to_nat b)) as [x Hx]; [lia|].
  exists x. rewrite <- (Z2Nat.id b) by lia. by apply py_index_nat.
Qed.

Lemma getValidMoves_Ret_offered (g : Game) mask :
  getValidMoves_model E Qr g = Ret mask ->
  forall a b, mask a b = true <-> offered g a b.
Proof.
  unfold getValidMoves_model, offered.
  set (player := player_of g (current_player g)).
  destruct (choice player) as [cards|].
  { intros H a b. rewrite (set_enumerated_Ret _ _ _ _ H a b). unfold zeros.
    intuition (try lia; try done). }
  destruct (res_fold (hand_step E Qr g) _ zeros) as [m1|] eqn:H1; [|done].
  destruct (res_fold (field_step E Qr g) _ m1) as [m2|] eqn:H2; [|done].
  destruct (if is_usable Qr g (hero_power player) then _ else _) as [m3|] eqn:H3;
    [|done].
  destruct (if can_attack Qr g (hero player) then _ else _) as [m4|] eqn:H4;
    [|done].
  intros H5 a b.
  apply set_entry_Ret in H5 as (_ & _ & H5). rewrite (H5 a b). clear H5.
  assert (I4 : m4 a b = true <-> hero_sets g a b \/ m3 a b = true).
  { unfold hero_sets. fold player. destruct (can_attack Qr g (hero player)).
    - rewrite (set_enumerated_Ret _ _ _ _ H4 a b). intuition.
    - injection H4 as <-. intuition. done. }
  assert (I3 : m3 a b = true <-> power_sets g a b \/ m2 a b = true).
  { unfold power_sets. fold player. destruct (is_usable Qr g (hero_power player)).
    - destruct (requires_target E g (hero_power player)).
      + rewrite (set_enumerated_Ret _ _ _ _ H3 a b). intuition.
      + apply set_row_Ret in H3 as [_ H3]. rewrite (H3 a b). intuition.
    - injection H3 as <-. intuition. done. }
  pose proof (res_fold_union _ (field_sets g) _ _ _ (field_step_sets g) H2 a b) as I2.
  pose proof (res_fold_union _ (hand_sets g) _ _ _ (hand_step_sets g) H1 a b) as I1.
  rewrite I4, I3, I2, I1. unfold zeros. clear.
  split.
  - intros [[-> ->]|[H|[H|[H|[H|H]]]]]; try done.
    + by repeat right.
    + by right; right; right; left.
    + by right; right; left.
    + destruct H as ([i m] & Hin & H). apply elem_of_imap_pair in Hin.
      right; left. by exists i, m.
    + destruct H as ([i c] & Hin & H). apply elem_of_imap_pair in Hin.
      left. by exists i, c.
  - intros [(i & c & Hin & H)|[(i & m & Hin & H)|[H|[H|[-> ->]]]]].
    + right; right; right; right; left. exists (i, c). split; [|done].
      by apply elem_of_imap_pair.
    + right; right; right; left. exists (i, m). split; [|done].
      by apply elem_of_imap_pair.
    + by right; right; left.
    + by right; left.
    + by left.
Qed.

(** X17: [getValidMoves] in full: on a position within the sizes the engine
    keeps it returns a mask, and an entry of the mask is 1 exactly when the
    position offers the action. *)
Theorem getValidMoves_characterised (g : Game) :
  engine_sizes g ->
  exists mask,
    getValidMoves_model E Qr g = Ret mask
    /\ forall a b, mask a b = true <-> offered g a b.
Proof.
  intros (Hhand & Hfield & Hchoice & Htargets & Hchoose & Hattack).
  assert (Hret : exists mask, getValidMoves_model E Qr g = Ret mask).
  { unfold getValidMoves_model. revert Hhand Hfield Hchoice.
    set (player := player_of g (current_player g)). intros Hhand Hfield Hchoice.
    destruct (choice player) as [cards|].
    { apply set_enumerated_total; [lia|by apply Hchoice]. }
    destruct (res_fold_total (hand_step E Qr g) (imap pair (hand player)) zeros)
      as [m1 ->].
    { intros m0 [i c] Hin. apply elem_of_imap_pair, lookup_lt_Some in Hin.
      cbn [fst snd] in Hin. unfold hand_step.
      destruct (is_playable Qr g c); [|eauto].
      destruct (requires_target E g c);
        [apply set_enumerated_total; [lia|apply Htargets]|].
      destruct (must_choose_one E g c);
        [apply set_enumerated_total; [lia|apply Hchoose]|].
      apply set_row_total. lia. }
    destruct (res_fold_total (field_step E Qr g) (imap pair (field player)) m1)
      as [m2 ->].
    { intros m0 [i c] Hin. apply elem_of_imap_pair, lookup_lt_Some in Hin.
      cbn [fst snd] in Hin. unfold field_step.
      destruct (can_attack Qr g c); [|eauto].
      apply set_enumerated_total; [lia|apply Hattack]. }
    assert (H3 : exists m3,
               (if is_usable Qr g (hero_power player) then
                  if requires_target E g (hero_power player) then
                    set_enumerated m2 17 (targets E g (hero_power player))
                  else set_row m2 17
                else Ret m2) = Ret m3).
    { destruct (is_usable Qr g (hero_power player)); [|eauto].
      destruct (requires_target E g (hero_power player)).
      - apply set_enumerated_total; [lia|apply Htargets].
      - apply set_row_total. lia. }
    destruct H3 as [m3 ->].
    assert (H4 : exists m4,
               (if can_attack Qr g (hero player) then
                  set_enumerated m3 18 (attack_targets E g (hero player))
                else Ret m3) = Ret m4).
    { destruct (can_attack Qr g (hero player)); [|eauto].
      apply set_enumerated_total; [lia|apply Hattack]. }
    destruct H4 as [m4 ->]. unfold set_entry. cbn. eauto. }
  destruct Hret as [mask Hmask]. exists mask. split; [exact Hmask|].
  by apply getValidMoves_Ret_offered.
Qed.

(** X18: Every action the mask offers reaches the rule engine: with the hand and
    the field within their sizes, and the two pairs of lists that the mask
    and the dispatch read differently of equal length, [performAction] finds
    every card and target it looks up and makes exactly one engine call. *)
Theorem offered_action_reaches_engine (g : Game) mask (a b : Z) :
  let player := player_of g (current_player g) in
  (length (hand player) <= 10)%nat ->
  (length (field player) <= 7)%nat ->
  (forall c, length (choose_targets E g c) = length (choose_cards Qr g c)) ->
  length (play_targets E g (hero_power player))
    = length (targets E g (hero_power player)) ->
  getValidMoves_model E Qr g = Ret mask ->
  mask a b = true ->
  exists f,
    engine_call f
    /\ performAction_try E (current_player g) (Act a b) g = call f g.
Proof.
  intros player Hhand Hfield Hchoose Hpower Hmask Hab.
  apply (getValidMoves_Ret_offered g mask Hmask) in Hab.
  unfold offered, hand_sets, field_sets, power_sets, hero_sets in Hab.
  fold player in Hab. cbn [performAction_try]. unfold performAction_body, bindM at 1, getM.
  fold player.
  destruct (choice player) as [cards|] eqn:Hc.
  { destruct Hab as [-> Hb]. cbn [Z.leb Z.eqb Z.compare Pos.compare
      Pos.compare_cont andb Pos.eqb].
    destruct (py_index_in cards b Hb) as [c Hx].
    exists (choice_choose E c). split; [constructor|].
    unfold bindM, index. by rewrite Hx. }
  destruct Hab as [(i & c & Hi & Hp & -> & Hb)
                  |[(i & m & Hi & Hp & -> & Hb)
                   |[(Hp & -> & Hb)|[(Hp & -> & Hb)|[-> ->]]]]];
    cbn [fst snd] in *.
  - pose proof (lookup_lt_Some _ _ _ Hi) as Hlt.
    replace ((0 <=? Z.of_nat i) && (Z.of_nat i <=? 9)) with true
      by (symmetry; apply andb_true_iff; split; apply Z.leb_le; lia).
    unfold bindM at 1, index at 1. rewrite (py_index_nat _ _ _ Hi). cbn [retM].
    destruct (requires_target E g c).
    + destruct (py_index_in (targets E g c) b Hb) as [t Ht].
      exists (card_play E c (Some t) None). split; [constructor|].
      unfold bindM, index. by rewrite Ht.
    + destruct (must_choose_one E g c).
      * rewrite <- Hchoose in Hb.
        destruct (py_index_in (choose_targets E g c) b Hb) as [t Ht].
        exists (card_play E c None (Some t)). split; [constructor|].
        unfold bindM, index. by rewrite Ht.
      * exists (card_play E c None None). split; [constructor|done].
  - pose proof (lookup_lt_Some _ _ _ Hi) as Hlt.
    replace ((0 <=? Z.of_nat (i + 10)) && (Z.of_nat (i + 10) <=? 9)) with false
      by (symmetry; apply andb_false_iff; right; apply Z.leb_gt; lia).
    replace ((10 <=? Z.of_nat (i + 10)) && (Z.of_nat (i + 10) <=? 16)) with true
      by (symmetry; apply andb_true_iff; split; apply Z.leb_le; lia).
    replace (Z.of_nat (i + 10) - 10) with (Z.of_nat i) by lia.
    unfold bindM at 1, index at 1. rewrite (py_index_nat _ _ _ Hi). cbn [retM].
    destruct (py_index_in (attack_targets E g m) b Hb) as [t Ht].
    exists (card_attack E m t). split; [constructor|].
    unfold bindM, index. by rewrite Ht.
  - cbn [Z.leb Z.eqb Z.compare Pos.compare Pos.compare_cont andb Pos.eqb].
    destruct (requires_target E g (hero_power player)).
    + rewrite <- Hpower in Hb.
      destruct (py_index_in (play_targets E g (hero_power player)) b Hb)
        as [t Ht].
      exists (power_use E (hero_power player) (Some t)). split; [constructor|].
      unfold bindM, index. by rewrite Ht.
    + exists (power_use E (hero_power player) None). split; [constructor|done].
  - cbn [Z.leb Z.eqb Z.compare Pos.compare Pos.compare_cont andb Pos.eqb].
    destruct (py_index_in (attack_targets E g (hero player)) b Hb) as [t Ht].
    exists (card_attack E (hero player) t). split; [constructor|].
    unfold bindM, index. by rewrite Ht.
  - cbn [Z.leb Z.eqb Z.compare Pos.compare Pos.compare_cont andb Pos.eqb].
    exists (end_turn E). split; [constructor|done].
Qed.

End Offered.

(** * The feature vector ([YEET.getState]) *)

(** The attributes of an entity of the rule engine (a hero, a weapon, a
    minion, a card in hand) that [getState] reads. *)
Record CardView := mkCardView {
  card_class : Z;
  health : Z;
  max_health : Z;
  atk : Z;
  damage : Z;
  durability : Z;
  cost : Z;
  card_type : Z;
  has_deathrattle : bool;
  divine_shield : bool;
  taunt : bool;
  stealthed : bool;
  silenced : bool
}.

(** The attributes of a player that [getState] reads. *)
Record PlayerView := mkPlayerView {
  max_mana : Z;
  mana : Z;
  weapon : option card
}.

(** What the rule engine reports about the entities and the players of a
    game. The values are taken within int32, the element type of the
    vector. *)
Record Readings {World : Type} := mkReadings {
  card_view : Game World -> card -> CardView;
  player_view : Game World -> pid -> PlayerView
}.
Arguments Readings World : clear implicits.
Arguments mkReadings {World}.

(** [s[k] = v] with an index that may be negative or out of range. *)
Definition np_set (s : list Z) (k v : Z) : res (list Z) :=
  let n := Z.of_nat (length s) in
  if (0 <=? k) && (k <? n) then Ret (<[Z.to_nat k := v]> s)
  else if (- n <=? k) && (k <? 0) then Ret (<[Z.to_nat (n + k) := v]> s)
  else Raise IndexError.

(** A run of assignments [s[k] = v] at indices within the vector. *)
Definition stores (s : list Z) (kvs : list (nat * Z)) : list Z :=
  fold_left (fun s kv => <[kv.1 := kv.2]> s) kvs s.

(** [s[k]] at an index within the vector. *)
Definition get (s : list Z) (k : nat) : Z := default 0 (s !! k).

(** [x * 1] on a Python bool. *)
Definition times1 (b : bool) : Z := if b then 1 else 0.

Section State.

Context {World : Type} (R : Readings World) (Qr : Queries World).
Local Abbreviation Game := (Game World).

(** The body of the two loops over the minions of a field, for the minion
    at position [j] and the offset [i]. *)
Definition minion_block (g : Game) (fld : list card) (j i : nat) (s : list Z)
  : list Z :=
  if (j <? length fld)%nat then
    match fld !! j with
    | Some c =>
        let v := card_view R g c in
        stores s [(i, 1); ((i + 1)%nat, atk v); ((i + 2)%nat, max_health v);
                  ((i + 3)%nat, health v);
                  ((i + 4)%nat, times1 (can_attack Qr g c));
                  ((i + 5)%nat, times1 (has_deathrattle v));
                  ((i + 6)%nat, times1 (divine_shield v));
                  ((i + 7)%nat, times1 (taunt v));
                  ((i + 8)%nat, times1 (stealthed v));
                  ((i + 9)%nat, times1 (silenced v))]
    | None => s
    end
  else s.

(** The body of the loop over the hand, for the card at position [j] and
    the offset [i]; the minion flag is read back from the vector. *)
Definition hand_block (g : Game) (h : list card) (j i : nat) (s : list Z)
  : list Z :=
  if (j <? length h)%nat then
    match h !! j with
    | Some c =>
        let v := card_view R g c in
        let s := stores s [(i, 1);
                           ((i + 1)%nat, if card_type v =? 4 then 1 else 0)] in
        let minion := get s (i + 1) =? 1 in
        stores s [((i + 2)%nat, if minion then atk v else 0);
                  ((i + 2)%nat, if minion then health v else 0);
                  ((i + 3)%nat, if minion then times1 (divine_shield v) else 0);
                  ((i + 4)%nat, if minion then times1 (has_deathrattle v) else 0);
                  ((i + 5)%nat, if minion then times1 (taunt v) else 0);
                  ((i + 6)%nat, if card_type v =? 7 then 1 else 0);
                  ((i + 7)%nat, if card_type v =? 5 then 1 else 0);
                  ((i + 8)%nat, cost v)]
    | None => s
    end
  else s.

(** The weapon entries: equipped, damage, durability. *)
Definition weapon_entries (g : Game) (p : pid) (i : nat) : list (nat * Z) :=
  match weapon (player_view R g p) with
  | None => [(i, 0); ((i + 1)%nat, 0); ((i + 2)%nat, 0)]
  | Some w => [(i, 1); ((i + 1)%nat, damage (card_view R g w));
               ((i + 2)%nat, durability (card_view R g w))]
  end.

(** [YEET.getState] *)
Definition getState_model (g : Game) : res state :=
  let s := replicate 263 0 in
  let p1 := current_player g in
  let p2 := opponent p1 in
  let P1 := player_of g p1 in
  let P2 := player_of g p2 in
  match np_set s (card_class (card_view R g (hero P1)) - 1) 1 with
  | Raise e => Raise e
  | Ret s =>
      match np_set s (10 + card_class (card_view R g (hero P2)) - 1) 1 with
      | Raise e => Raise e
      | Ret s =>
          let s := stores s [(20%nat, health (card_view R g (hero P1)));
                             (21%nat, health (card_view R g (hero P2)));
                             (22%nat, times1 (is_usable Qr g (hero_power P1)));
                             (23%nat, max_mana (player_view R g p1));
                             (24%nat, max_mana (player_view R g p2));
                             (25%nat, mana (player_view R g p1))] in
          let s := stores s (weapon_entries g p1 26) in
          let s := stores s (weapon_entries g p2 29) in
          let s := stores s [(32%nat, Z.of_nat (length (hand P2)))] in
          let s := fold_left (fun s j => minion_block g (field P1) j (33 + 10 * j) s)
                             (seq 0 7) s in
          let s := fold_left (fun s j => minion_block g (field P2) j (103 + 10 * j) s)
                             (seq 0 7) s in
          let s := fold_left (fun s j => hand_block g (hand P1) j (173 + 9 * j) s)
                             (seq 0 10) s in
          Ret s
      end
  end.

End State.

(** [v] with another attack value. *)
Definition with_atk (v : CardView) (a : Z) : CardView :=
  mkCardView (card_class v) (health v) (max_health v) a (damage v) (durability v)
             (cost v) (card_type v) (has_deathrattle v) (divine_shield v)
             (taunt v) (stealthed v) (silenced v).

Lemma with_atk_id (v : CardView) : with_atk v (atk v) = v.
Proof. by destruct v. Qed.

Section StoreFacts.

Implicit Types (s : list Z) (kvs : list (nat * Z)) (k : nat).

Lemma stores_length s kvs : length (stores s kvs) = length s.
Proof.
  revert s. induction kvs as [|kv kvs IH]; intros s; [done|].
  cbn [stores fold_left]. etransitivity; [apply IH|]. apply length_insert.
Qed.

Lemma stores_lookup_ne s kvs k :
  (forall kv, kv ∈ kvs -> kv.1 <> k) -> stores s kvs !! k = s !! k.
Proof.
  revert s. induction kvs as [|kv kvs IH]; intros s H; [done|].
  cbn [stores fold_left]. etransitivity.
  - apply IH. intros kv' Hin. apply H. apply elem_of_cons. by right.
  - apply list_lookup_insert_ne. apply H. apply elem_of_cons. by left.
Qed.

Lemma fold_left_length {A} (f : list Z -> A -> list Z) (l : list A) s :
  (forall s x, length (f s x) = length s) ->
  length (fold_left f l s) = length s.
Proof.
  intros H. revert s. induction l as [|x l IH]; intros s; [done|].
  cbn [fold_left]. by rewrite IH.
Qed.

Lemma fold_left_lookup {A} (f : list Z -> A -> list Z) (l : list A) s k :
  (forall s x, x ∈ l -> f s x !! k = s !! k) ->
  fold_left f l s !! k = s !! k.
Proof.
  revert s. induction l as [|x l IH]; intros s H; [done|].
  cbn [fold_left]. rewrite IH.
  - apply H. apply elem_of_cons. by left.
  - intros s0 y Hy. apply H. apply elem_of_cons. by right.
Qed.

Lemma fold_left_pointwise {A B} (f f' : B -> A -> B) (l : list A) (b : B) :
  (forall b0 x, x ∈ l -> f b0 x = f' b0 x) -> fold_left f l b = fold_left f' l b.
Proof.
  revert b. induction l as [|x l IH]; intros b H; [done|].
  cbn [fold_left]. rewrite (H b x) by (apply elem_of_cons; by left).
  apply IH. intros b0 y Hy. apply H. apply elem_of_cons. by right.
Qed.

Lemma np_set_length s (z v : Z) s' : np_set s z v = Ret s' -> length s' = length s.
Proof.
  unfold np_set. destruct (_ && _); [|destruct (_ && _); [|done]];
    intros [= <-]; apply length_insert.
Qed.

End StoreFacts.

Section StateFacts.

Context {World : Type}.
Local Abbreviation Game := (Game World).
Implicit Types (R : Readings World) (Qr : Queries World) (g : Game)
  (s : list Z) (k i j : nat).

Lemma minion_block_length R Qr g fld j i s :
  length (minion_block R Qr g fld j i s) = length s.
Proof.
  unfold minion_block. destruct (j <? length fld)%nat; [|done].
  destruct (fld !! j); [|done]. apply stores_length.
Qed.

Lemma hand_block_length R g h j i s : length (hand_block R g h j i s) = length s.
Proof.
  unfold hand_block. destruct (j <? length h)%nat; [|done].
  destruct (h !! j); [|done]. by rewrite !stores_length.
Qed.

Lemma minion_block_below R Qr g fld j i s k :
  (k < i)%nat -> minion_block R Qr g fld j i s !! k = s !! k.
Proof.
  intros Hk. unfold minion_block. destruct (j <? length fld)%nat; [|done].
  destruct (fld !! j); [|done]. apply stores_lookup_ne.
  intros kv Hin. repeat (apply elem_of_cons in Hin as [->|Hin]; [cbn; lia|]).
  by apply elem_of_nil in Hin.
Qed.

Lemma hand_block_below R g h j i s k :
  (k < i)%nat -> hand_block R g h j i s !! k = s !! k.
Proof.
  intros Hk. unfold hand_block. destruct (j <? length h)%nat; [|done].
  destruct (h !! j); [|done].
  rewrite stores_lookup_ne.
  - apply stores_lookup_ne.
    intros kv Hin. repeat (apply elem_of_cons in Hin as [->|Hin]; [cbn; lia|]).
    by apply elem_of_nil in Hin.
  - intros kv Hin. repeat (apply elem_of_cons in Hin as [->|Hin]; [cbn; lia|]).
    by apply elem_of_nil in Hin.
Qed.

Lemma minion_block_agree R R' Qr Qr' g g' fld j i s :
  (forall c, c ∈ fld -> card_view R' g' c = card_view R g c) ->
  (forall c, can_attack Qr' g' c = can_attack Qr g c) ->
  minion_block R' Qr' g' fld j i s = minion_block R Qr g fld j i s.
Proof.
  intros Hv Hc. unfold minion_block. destruct (j <? length fld)%nat; [|done].
  destruct (fld !! j) as [c|] eqn:Hj; [|done].
  rewrite Hv by (by eapply list_elem_of_lookup_2). by rewrite Hc.
Qed.

Lemma hand_block_agree R R' g g' h j i s :
  (forall c, exists a, card_view R' g' c = with_atk (card_view R g c) a) ->
  hand_block R' g' h j i s = hand_block R g h j i s.
Proof.
  intros Hv. unfold hand_block. destruct (j <? length h)%nat; [|done].
  destruct (h !! j) as [c|]; [|done]. destruct (Hv c) as [a ->].
  cbn [with_atk card_type atk health divine_shield has_deathrattle taunt cost].
  set (s1 := stores s _). generalize (get s1 (i + 1) =? 1). intros minion.
  cbn [stores fold_left fst snd]. by rewrite !list_insert_insert_eq.
Qed.

Lemma weapon_entries_agree R R' g g' p i :
  player_view R' g' p = player_view R g p ->
  (forall c, exists a, card_view R' g' c = with_atk (card_view R g c) a) ->
  weapon_entries R' g' p i = weapon_entries R g p i.
Proof.
  intros Hp Hv. unfold weapon_entries. rewrite Hp.
  destruct (weapon (player_view R g p)) as [w|]; [|done].
  by destruct (Hv w) as [a ->].
Qed.

(** What [getState] reads of a game: two games that agree on it, up to the
    attack of the cards that are on neither field, have the same feature
    vector. *)
Lemma getState_agree R R' Qr Qr' g g' :
  let P1 := player_of g (current_player g) in
  let P2 := player_of g (opponent (current_player g)) in
  let P1' := player_of g' (current_player g') in
  let P2' := player_of g' (opponent (current_player g')) in
  current_player g' = current_player g ->
  hero P1' = hero P1 -> hero_power P1' = hero_power P1 ->
  field P1' = field P1 -> hand P1' = hand P1 ->
  hero P2' = hero P2 -> field P2' = field P2 ->
  length (hand P2') = length (hand P2) ->
  (forall p, player_view R' g' p = player_view R g p) ->
  (forall c, exists a, card_view R' g' c = with_atk (card_view R g c) a) ->
  (forall c, c ∈ field P1 ++ field P2 ->
     atk (card_view R' g' c) = atk (card_view R g c)) ->
  (forall c, can_attack Qr' g' c = can_attack Qr g c) ->
  (forall c, is_usable Qr' g' c = is_usable Qr g c) ->
  getState_model R' Qr' g' = getState_model R Qr g.
Proof.
  intros P1 P2 P1' P2' Hcp Hh1 Hhp1 Hf1 Hhand1 Hh2 Hf2 Hlen2 Hpv Hcv Hatk Hca Hus.
  assert (Hfield : forall c, c ∈ field P1 ++ field P2 ->
                     card_view R' g' c = card_view R g c).
  { intros c Hin. specialize (Hatk c Hin). destruct (Hcv c) as [a Ha].
    rewrite Ha in Hatk |- *. cbn [with_atk atk] in Hatk. subst a.
    apply with_atk_id. }
  unfold getState_model. fold P1 P2 P1' P2'.
  rewrite Hh1, Hhp1, Hf1, Hhand1, Hh2, Hf2, Hlen2, Hcp, Hus, !Hpv.
  rewrite !(weapon_entries_agree R R' g g') by done.
  destruct (Hcv (hero P1)) as [a1 ->]. destruct (Hcv (hero P2)) as [a2 ->].
  cbn [with_atk card_class health].
  destruct (np_set _ _ _) as [s1|]; [|done].
  destruct (np_set s1 _ _) as [s2|]; [|done].
  f_equal.
  rewrite (fold_left_pointwise
             (fun s j => hand_block R' g' (hand P1) j (173 + 9 * j) s)
             (fun s j => hand_block R g (hand P1) j (173 + 9 * j) s))
    by (intros; by apply hand_block_agree).
  f_equal.
  rewrite (fold_left_pointwise
             (fun s j => minion_block R' Qr' g' (field P2) j (103 + 10 * j) s)
             (fun s j => minion_block R Qr g (field P2) j (103 + 10 * j) s)).
  2:{ intros. apply minion_block_agree; [|done].
      intros c Hc. apply Hfield. apply elem_of_app. by right. }
  f_equal.
  apply fold_left_pointwise.
  intros. apply minion_block_agree; [|done].
  intros c Hc. apply Hfield. apply elem_of_app. by left.
Qed.

Lemma cloneAndRandomize_view (game : Game) r :
  let clone := (cloneAndRandomize game r).1 in
  let p1 := current_player game in
  current_player clone = p1
  /\ player_of clone p1 = player_of game p1
  /\ hero (player_of clone (opponent p1)) = hero (player_of game (opponent p1))
  /\ field (player_of clone (opponent p1)) = field (player_of game (opponent p1))
  /\ length (hand (player_of clone (opponent p1)))
     = length (hand (player_of game (opponent p1))).
Proof.
  unfold cloneAndRandomize.
  pose proof (shuffle_from_length
                (length (hand (player_of game (opponent (current_player game)))) - 1)
                (hand (player_of game (opponent (current_player game)))) r) as Hlen.
  fold (shuffle (hand (player_of game (opponent (current_player game)))) r) in Hlen.
  destruct (shuffle _ r) as [h r1]. destruct (shuffle _ r1) as [d r2].
  cbn [fst] in *. destruct (current_player game) eqn:Hc; cbn in *; rewrite ?Hc; done.
Qed.

End StateFacts.

Section StateTheorems.

Context {World : Type} (R : Readings World) (Qr : Queries World).
Local Abbreviation Game := (Game World).

(** X19: With both hero classes among the ten classes 1 to 10, [getState]
    returns a vector of 263 entries whose entries 0 to 9 mark the class of
    the player to move and whose entries 10 to 19 mark the class of the
    opponent. *)
Theorem getState_returns_classes (g : Game) :
  let c1 := card_class (card_view R g (hero (player_of g (current_player g)))) in
  let c2 := card_class
              (card_view R g (hero (player_of g (opponent (current_player g))))) in
  1 <= c1 <= 10 -> 1 <= c2 <= 10 ->
  exists s,
    getState_model R Qr g = Ret s
    /\ length s = 263%nat
    /\ forall k, 0 <= k < 10 ->
         s !! Z.to_nat k = Some (if k =? c1 - 1 then 1 else 0)
         /\ s !! Z.to_nat (10 + k) = Some (if k =? c2 - 1 then 1 else 0).
Proof.
  intros c1 c2 H1 H2. unfold getState_model. fold c1 c2.
  set (s0 := replicate 263 0).
  assert (Hs0 : length s0 = 263%nat) by apply length_replicate.
  assert (Hset1 : np_set s0 (c1 - 1) 1 = Ret (<[Z.to_nat (c1 - 1) := 1]> s0)).
  { unfold np_set. rewrite Hs0.
    replace ((0 <=? c1 - 1) && (c1 - 1 <? Z.of_nat 263)) with true; [done|].
    symmetry. apply andb_true_iff. split; [apply Z.leb_le|apply Z.ltb_lt]; lia. }
  rewrite Hset1. set (s1 := <[Z.to_nat (c1 - 1) := 1]> s0).
  assert (Hs1 : length s1 = 263%nat) by (unfold s1; by rewrite length_insert).
  assert (Hset2 : np_set s1 (10 + c2 - 1) 1
                  = Ret (<[Z.to_nat (10 + c2 - 1) := 1]> s1)).
  { unfold np_set. rewrite Hs1.
    replace ((0 <=? 10 + c2 - 1) && (10 + c2 - 1 <? Z.of_nat 263)) with true;
      [done|].
    symmetry. apply andb_true_iff. split; [apply Z.leb_le|apply Z.ltb_lt]; lia. }
  rewrite Hset2. set (s2 := <[Z.to_nat (10 + c2 - 1) := 1]> s1).
  assert (Hs2 : length s2 = 263%nat) by (unfold s2; by rewrite length_insert).
  eexists. split; [reflexivity|]. split.
  { rewrite !fold_left_length
      by (intros; first [apply hand_block_length|apply minion_block_length]).
    by rewrite !stores_length. }
  assert (Hframe : forall s k, (k < 20)%nat ->
            fold_left (fun s j => hand_block R g
                         (hand (player_of g (current_player g))) j (173 + 9 * j) s)
              (seq 0 10)
              (fold_left (fun s j => minion_block R Qr g
                            (field (player_of g (opponent (current_player g))))
                            j (103 + 10 * j) s)
                 (seq 0 7)
                 (fold_left (fun s j => minion_block R Qr g
                               (field (player_of g (current_player g)))
                               j (33 + 10 * j) s)
                    (seq 0 7) s)) !! k = s !! k).
  { intros s k Hk.
    rewrite fold_left_lookup by (intros; apply hand_block_below; lia).
    rewrite fold_left_lookup by (intros; apply minion_block_below; lia).
    by rewrite fold_left_lookup by (intros; apply minion_block_below; lia). }
  assert (Hkeys : forall k, (k < 20)%nat ->
            (forall kvs,
               (forall kv, kv ∈ kvs -> (20 <= kv.1)%nat) ->
               forall s, stores s kvs !! k = s !! k)).
  { intros k Hk kvs Hkvs s. apply stores_lookup_ne.
    intros kv Hin. specialize (Hkvs kv Hin). lia. }
  assert (Hweapon : forall p i kv,
            (20 <= i)%nat -> kv ∈ weapon_entries R g p i -> (20 <= kv.1)%nat).
  { intros p i kv Hi Hin. unfold weapon_entries in Hin.
    destruct (weapon _);
      repeat (apply elem_of_cons in Hin as [->|Hin]; [cbn; lia|]);
      by apply elem_of_nil in Hin. }
  intros k Hk. rewrite !Hframe by lia.
  rewrite !(Hkeys (Z.to_nat k)), !(Hkeys (Z.to_nat (10 + k)));
    try lia; try (intros kv Hin; eapply Hweapon; [|exact Hin]; lia);
    try (intros kv Hin;
         repeat (apply elem_of_cons in Hin as [->|Hin]; [cbn; lia|]);
         by apply elem_of_nil in Hin).
  unfold s2, s1. split.
  - rewrite list_lookup_insert_ne by lia.
    destruct (Z.eqb_spec k (c1 - 1)) as [->|Hne].
    + apply list_lookup_insert_eq. lia.
    + rewrite list_lookup_insert_ne by lia. apply lookup_replicate_2. lia.
  - destruct (Z.eqb_spec k (c2 - 1)) as [->|Hne].
    + replace (10 + (c2 - 1)) with (10 + c2 - 1) by lia.
      apply list_lookup_insert_eq. rewrite length_insert. lia.
    + rewrite !list_lookup_insert_ne by lia. apply lookup_replicate_2. lia.
Qed.

(** X20: The attack of a card in hand is written to the vector and overwritten
    by its health on the next line: two readings of the engine that differ
    only in the attack of cards that are on neither field give the same
    feature vector. *)
Theorem getState_ignores_hand_attack (R' : Readings World) (g : Game) :
  (forall p, player_view R' g p = player_view R g p) ->
  (forall c, exists a, card_view R' g c = with_atk (card_view R g c) a) ->
  (forall c, c ∈ field (player_of g (current_player g))
                 ++ field (player_of g (opponent (current_player g))) ->
     atk (card_view R' g c) = atk (card_view R g c)) ->
  getState_model R' Qr g = getState_model R Qr g.
Proof.
  intros Hpv Hcv Hatk. by apply getState_agree.
Qed.

(** X21: The feature vector does not see what the determinization shuffles: when
    the engine reports the same attributes on the clone, the clone has the
    feature vector of the game it was cloned from. *)
Theorem getState_of_clone (game : Game) (r : Rng) :
  let clone := (cloneAndRandomize game r).1 in
  (forall p, player_view R clone p = player_view R game p) ->
  (forall c, card_view R clone c = card_view R game c) ->
  (forall c, can_attack Qr clone c = can_attack Qr game c) ->
  (forall c, is_usable Qr clone c = is_usable Qr game c) ->
  getState_model R Qr clone = getState_model R Qr game.
Proof.
  intros clone Hpv Hcv Hca Hus.
  destruct (cloneAndRandomize_view game r) as (Hcp & Hp1 & Hh2 & Hf2 & Hlen).
  fold clone in Hcp, Hp1, Hh2, Hf2, Hlen.
  apply getState_agree; rewrite ?Hcp, ?Hp1; try done.
  - intros c. exists (atk (card_view R game c)). by rewrite with_atk_id.
  - intros c _. by rewrite Hcv.
Qed.

End StateTheorems.

(** ** The range of the entries *)

(** The attributes that [getState] copies into the vector are int32. *)
Definition view_int32 (v : CardView) : Prop :=
  int32 (health v) /\ int32 (max_health v) /\ int32 (atk v)
  /\ int32 (damage v) /\ int32 (durability v) /\ int32 (cost v).

Definition readings_int32 {World : Type} (R : Readings World) (g : Game World)
  : Prop :=
  (forall c, view_int32 (card_view R g c))
  /\ (forall p, int32 (max_mana (player_view R g p))
                /\ int32 (mana (player_view R g p))).

Section StateRange.

Context {World : Type} (R : Readings World) (Qr : Queries World).
Local Abbreviation Game := (Game World).

Lemma Ret_inj {A} (x y : A) : Ret x = Ret y -> x = y.
Proof. congruence. Qed.

Lemma int32_flag (b : bool) : int32 (times1 b).
Proof. unfold int32. destruct b; cbn; lia. Qed.

Lemma int32_0 : int32 0.
Proof. unfold int32. lia. Qed.

Lemma int32_1 : int32 1.
Proof. unfold int32. lia. Qed.

Lemma stores_int32 (s : list Z) kvs :
  Forall int32 s -> Forall (fun kv => int32 kv.2) kvs -> Forall int32 (stores s kvs).
Proof.
  intros Hs Hkvs. revert s Hs. induction Hkvs as [|kv kvs Hkv _ IH]; intros s Hs;
    [done|].
  cbn [stores fold_left]. apply IH. by apply Forall_insert.
Qed.

Lemma np_set_int32 (s : list Z) k v s' :
  Forall int32 s -> int32 v -> np_set s k v = Ret s' -> Forall int32 s'.
Proof.
  intros Hs Hv. unfold np_set.
  destruct (_ && _); [|destruct (_ && _); [|done]];
    intros [= <-]; by apply Forall_insert.
Qed.

Lemma fold_left_int32 (f : list Z -> nat -> list Z) (l : list nat) (s : list Z) :
  (forall s j, Forall int32 s -> Forall int32 (f s j)) ->
  Forall int32 s -> Forall int32 (fold_left f l s).
Proof.
  intros Hf. revert s. induction l as [|j l IH]; intros s Hs; [done|].
  cbn [fold_left]. apply IH. by apply Hf.
Qed.

Lemma minion_block_int32 (g : Game) fld j i s :
  readings_int32 R g -> Forall int32 s ->
  Forall int32 (minion_block R Qr g fld j i s).
Proof.
  intros [Hv _] Hs. unfold minion_block. destruct (j <? length fld)%nat; [|done].
  destruct (fld !! j) as [c|]; [|done].
  destruct (Hv c) as (Hh & Hm & Ha & _).
  apply stores_int32; [done|].
  repeat (apply Forall_cons; split;
          [first [exact int32_1|apply int32_flag|assumption]|]).
  apply Forall_nil_2.
Qed.

Lemma hand_block_int32 (g : Game) h j i s :
  readings_int32 R g -> Forall int32 s -> Forall int32 (hand_block R g h j i s).
Proof.
  intros [Hv _] Hs. unfold hand_block. destruct (j <? length h)%nat; [|done].
  destruct (h !! j) as [c|]; [|done].
  destruct (Hv c) as (Hh & _ & Ha & _ & _ & Hc).
  apply stores_int32.
  - apply stores_int32; [done|].
    apply Forall_cons; split; [exact int32_1|].
    apply Forall_cons; split; [|apply Forall_nil_2].
    cbn [snd]. destruct (_ =? 4); [exact int32_1|exact int32_0].
  - generalize (get (stores s [(i, 1);
                               ((i + 1)%nat,
                                if card_type (card_view R g c) =? 4 then 1 else 0)])
                    (i + 1) =? 1).
    intros minion.
    repeat (apply Forall_cons; split;
            [cbn [snd];
             first [assumption
                   |destruct minion;
                    first [assumption|apply int32_flag|exact int32_0]
                   |destruct (_ =? _); [exact int32_1|exact int32_0]]|]).
    apply Forall_nil_2.
Qed.

Lemma weapon_entries_int32 (g : Game) p i :
  readings_int32 R g -> Forall (fun kv => int32 kv.2) (weapon_entries R g p i).
Proof.
  intros [Hv _]. unfold weapon_entries. destruct (weapon _) as [w|].
  - destruct (Hv w) as (_ & _ & _ & Hd & Hu & _).
    repeat (apply Forall_cons; split; [first [exact int32_1|assumption]|]).
    apply Forall_nil_2.
  - repeat (apply Forall_cons; split; [exact int32_0|]). apply Forall_nil_2.
Qed.

(** X23: When the attributes the engine reports are int32 values, every
    vector [getState] returns is a vector of 263 int32 entries: the vectors
    on which the fingerprint is injective. *)
Theorem getState_int32 (g : Game) (s : state) :
  readings_int32 R g ->
  Z.of_nat (length (hand (player_of g (opponent (current_player g))))) < 2147483648 ->
  getState_model R Qr g = Ret s ->
  length s = 263%nat /\ Forall int32 s.
Proof.
  intros HR Hlen. pose proof HR as [Hv Hp]. unfold getState_model.
  destruct (np_set (replicate 263 0) _ 1) as [s1|] eqn:H1; [|done].
  destruct (np_set s1 _ 1) as [s2|] eqn:H2; [|done].
  intros Hs. apply Ret_inj in Hs. subst s. split.
  - rewrite !fold_left_length
      by (intros; first [apply hand_block_length|apply minion_block_length]).
    rewrite !stores_length. rewrite (np_set_length _ _ _ _ H2).
    rewrite (np_set_length _ _ _ _ H1). apply length_replicate.
  - assert (Hs2 : Forall int32 s2).
    { eapply np_set_int32; [|exact int32_1|exact H2].
      eapply np_set_int32; [|exact int32_1|exact H1].
      apply Forall_replicate. exact int32_0. }
    apply fold_left_int32; [intros; by apply hand_block_int32|].
    apply fold_left_int32; [intros; by apply minion_block_int32|].
    apply fold_left_int32; [intros; by apply minion_block_int32|].
    apply stores_int32.
    2:{ apply Forall_cons; split; [|apply Forall_nil_2]. cbn [snd].
        unfold int32. lia. }
    apply stores_int32; [|by apply weapon_entries_int32].
    apply stores_int32; [|by apply weapon_entries_int32].
    apply stores_int32; [done|].
    destruct (Hv (hero (player_of g (current_player g)))) as (Hh1 & _).
    destruct (Hv (hero (player_of g (opponent (current_player g))))) as (Hh2 & _).
    destruct (Hp (current_player g)) as [Hm1 Hn1].
    destruct (Hp (opponent (current_player g))) as [Hm2 _].
    repeat (apply Forall_cons; split; [first [assumption|apply int32_flag]|]).
    apply Forall_nil_2.
Qed.

End StateRange.

(** * The symmetries of a training example ([YEET.getSymmetries]) *)

(** What [getSymmetries] raises: the failed [assert] and numpy's refusal to
    reshape. *)
Inductive sym_exn :=
| AssertionError
| ValueError.

(** [np.reshape(l, (rows, cols))] on a flat vector. *)
Definition np_reshape {A} (l : list A) (rows cols : nat) : sym_exn + list (list A) :=
  if (length l =? rows * cols)%nat then inr (reshape (replicate rows cols) l)
  else inl ValueError.

(** [YEET.getSymmetries] on a policy vector [pi], with assertions enabled;
    [rest] is the double loop over the rotations and the flips, which
    receives the reshaped vector. *)
Definition getSymmetries_model {A B} (rest : list (list A) -> B) (pi : list A)
  : sym_exn + B :=
  if negb (length pi =? 168)%nat then inl AssertionError
  else
    match np_reshape pi 21 9 with
    | inl e => inl e
    | inr pi_reshape => inr (rest pi_reshape)
    end.

(** X22: [getSymmetries] never returns: a vector that is not of length 168 fails
    the assertion, and one of length 168 cannot be reshaped to 21 rows of
    9. *)
Theorem getSymmetries_never_returns {A B} (rest : list (list A) -> B)
    (pi : list A) :
  getSymmetries_model rest pi
  = inl (if (length pi =? 168)%nat then ValueError else AssertionError).
Proof.
  unfold getSymmetries_model, np_reshape.
  destruct (Nat.eqb_spec (length pi) 168) as [->|]; reflexivity.
Qed.

(** * The added properties on the small engine *)

Module DemoMore.

Import Demo.

(** [bare] after its end has been recorded. *)
Definition finished : G := set_ended bare true.

(** A position in which the player to move has a choice of two cards
    pending. *)
Definition choosing : G :=
  mkGame (mkPlayer [] [] [] 100 101 (Some [5; 6]) 1) (player0 [] [])
         PlayerA PlayerA 1 false 1%Q tt.

(** Every card of the hand is playable, nothing can attack and the hero
    power is spent. *)
Definition demo_queries : Queries unit :=
  mkQueries (fun _ _ => true) (fun _ _ => []) (fun _ _ => false) (fun _ _ => false).

Definition mask_of (g : G) : Z -> Z -> bool :=
  match getValidMoves_model demo demo_queries g with
  | Ret mask => mask
  | Raise _ => zeros
  end.

(** The edge that ends the first turn, and a path through it and the edge
    that ends the second. *)
Definition first_edge : fp * pyact := (root bare, Act 19 1).

Definition two_turns : list (fp * pyact * pid) :=
  [(root bare, Act 19 1, PlayerA); (second bare, Act 19 1, PlayerB)].

Definition after_two_turns : MCTS :=
  match backpropagate MCTS_init bare (second bare) (Some 1%Q) two_turns with
  | Ret m => m
  | Raise _ => MCTS_init
  end.

(** Every entity is a priest minion with 30 health and no attack, and no
    player has a weapon. *)
Definition demo_view (a : Z) : CardView :=
  mkCardView 6 30 30 a 0 0 2 4 false false true false false.

Definition demo_readings : Readings unit :=
  mkReadings (fun _ _ => demo_view 0) (fun _ _ => mkPlayerView 1 1 None).

(** The same with attack 5. *)
Definition demo_readings_atk : Readings unit :=
  mkReadings (fun _ _ => demo_view 5) (fun _ _ => mkPlayerView 1 1 None).

Definition state_of (g : G) : state :=
  match getState_model demo_readings demo_queries g with
  | Ret s => s
  | Raise _ => []
  end.

End DemoMore.

Section ConcreteMore.

Import Demo DemoMore.

Lemma search_bare_first :
  search demo args2 10 MCTS_init bare [] (demo_getState bare) true
  = Done (store_after bare 1, rng_after bare 1).
Proof. vm_compute. reflexivity. Qed.

Lemma search_bare_second :
  search demo args2 10 (store_after bare 1) bare (rng_after bare 1)
         (demo_getState bare) true
  = Done (store_after bare 2, rng_after bare 2).
Proof. vm_compute. reflexivity. Qed.

Lemma init_keys_consistent : keys_consistent MCTS_init.
Proof. repeat split. Qed.

Lemma init_values_bounded : values_bounded MCTS_init.
Proof. split; intros k x H; cbn in H; by rewrite lookup_empty in H. Qed.

Lemma demo_oracle_bounded : oracle_bounded demo.
Proof. intros st. cbn. split; unfold Qle; cbn; lia. Qed.

Lemma demo_engine_quiet : engine_quiet demo.
Proof.
  repeat split; try done.
  intros g. cbn. unfold demo_end_turn. by destruct (3 <=? turn g + 1).
Qed.

Lemma getNextState_on_ended_game_witness :
  ended finished = true
  /\ performAction demo (Act 0 0) finished = (finished, None)
  /\ getNextState demo 1 (Act 0 0) finished
     = (finished, Ret (getState demo finished, if 0 =? 19 then - 1 else 1)).
Proof.
  split; [reflexivity|].
  exact (getNextState_on_ended_game demo 1 0 0 finished eq_refl).
Defined.

Lemma performAction_unhandled_slot_witness :
  (ended bare = false
   /\ choice (player_of bare (current_player bare)) = None
   /\ (21 < 0 \/ 20 < 21))
  /\ performAction demo (Act 21 0) bare = (bare, Some UnhandledAction)
  /\ getNextState demo 1 (Act 21 0) bare = (bare, Raise UnhandledAction).
Proof.
  assert (H : 21 < 0 \/ 20 < 21) by lia.
  split; [by repeat split|].
  exact (performAction_unhandled_slot demo 1 21 0 bare eq_refl eq_refl H).
Defined.

Lemma slot_20_witness :
  (ended bare = false /\ choice (player_of bare (current_player bare)) = None)
  /\ performAction demo (Act 20 0) bare = performAction demo (Act 19 1) bare
  /\ getNextState demo 1 (Act 19 1) bare
     = ((demo_end_turn bare).1, Ret (demo_getState (demo_end_turn bare).1, - 1))
  /\ getNextState demo 1 (Act 20 0) bare
     = ((demo_end_turn bare).1, Ret (demo_getState (demo_end_turn bare).1, 1)).
Proof.
  destruct (slot_20_ends_turn_without_flip demo 1 0 1 bare eq_refl eq_refl)
    as [Hsame Hflip].
  split; [by split|]. split; [exact Hsame|]. split; [reflexivity|].
  exact (proj2 (Hflip _ _ _ eq_refl)).
Defined.

Lemma backpropagate_counts_path_witness :
  backpropagate MCTS_init bare (second bare) (Some 1%Q) two_turns
  = Ret after_two_turns
  /\ default 0 (Nsa after_two_turns !! first_edge)
     = default 0 (Nsa MCTS_init !! first_edge) + visits first_edge two_turns
  /\ visits first_edge two_turns = 1.
Proof.
  assert (H : backpropagate MCTS_init bare (second bare) (Some 1%Q) two_turns
              = Ret after_two_turns) by (vm_compute; reflexivity).
  split; [exact H|]. split; [|vm_compute; reflexivity].
  exact (proj1 (backpropagate_counts_path MCTS_init bare (second bare) (Some 1%Q)
                  two_turns after_two_turns first_edge H)).
Defined.

Lemma run_sims_keys_consistent_witness :
  (sims bare 2 = Done (store_after bare 2, rng_after bare 2)
   /\ keys_consistent MCTS_init)
  /\ keys_consistent (store_after bare 2)
  /\ (forall s, is_Some (Ps (store_after bare 2) !! s) ->
        is_Some (Ns (store_after bare 2) !! s)
        /\ is_Some (Vs (store_after bare 2) !! s))
  /\ (forall e, is_Some (Qsa (store_after bare 2) !! e) ->
        is_Some (Nsa (store_after bare 2) !! e)).
Proof.
  split; [split; [exact sims_bare_2|exact init_keys_consistent]|].
  exact (run_sims_keys_consistent demo args2 2 10 MCTS_init bare []
           (demo_getState bare) (store_after bare 2) (rng_after bare 2)
           sims_bare_2 init_keys_consistent).
Defined.

Lemma search_statistics_grow_witness :
  search demo args2 10 (store_after bare 1) bare (rng_after bare 1)
         (demo_getState bare) true
  = Done (store_after bare 2, rng_after bare 2)
  /\ Ps (store_after bare 1) ⊆ Ps (store_after bare 2)
  /\ dom (Ns (store_after bare 1)) ⊆ dom (Ns (store_after bare 2))
  /\ dom (Es (store_after bare 1)) ⊆ dom (Es (store_after bare 2))
  /\ forall e n, Nsa (store_after bare 1) !! e = Some n ->
       exists n', Nsa (store_after bare 2) !! e = Some n' /\ n <= n'.
Proof.
  split; [exact search_bare_second|].
  exact (search_statistics_grow demo args2 10 (store_after bare 1) bare
           (rng_after bare 1) (demo_getState bare) true (store_after bare 2)
           (rng_after bare 2) search_bare_second).
Defined.

Lemma search_values_bounded_witness :
  (oracle_bounded demo
   /\ search demo args2 10 (store_after bare 1) bare (rng_after bare 1)
             (demo_getState bare) true
      = Done (store_after bare 2, rng_after bare 2)
   /\ counts_positive (store_after bare 1)
   /\ values_bounded (store_after bare 1))
  /\ values_bounded (store_after bare 2).
Proof.
  assert (Hpos : counts_positive (store_after bare 1))
    by exact (search_positive demo args2 10 MCTS_init bare [] (demo_getState bare)
                true _ _ search_bare_first init_counts_positive).
  assert (Hb : values_bounded (store_after bare 1))
    by exact (search_values_bounded demo args2 10 MCTS_init bare []
                (demo_getState bare) true _ _ demo_oracle_bounded
                search_bare_first init_counts_positive init_values_bounded).
  split; [split; [exact demo_oracle_bounded|split; [exact search_bare_second|by split]]|].
  exact (search_values_bounded demo args2 10 (store_after bare 1) bare
           (rng_after bare 1) (demo_getState bare) true _ _ demo_oracle_bounded
           search_bare_second Hpos Hb).
Defined.

Lemma search_terminal_root_witness :
  ended finished = true
  /\ search demo args2 0 MCTS_init finished [] (demo_getState finished) true
     = Done (mkMCTS ∅ ∅ ∅ ∅ {[ root finished := 0%Q ]} ∅, []).
Proof.
  split; [reflexivity|].
  exact (search_terminal_root demo args2 0 MCTS_init finished []
           (demo_getState finished) eq_refl).
Defined.

Lemma search_unexpanded_root_witness :
  (mem (Ps MCTS_init) (root bare) = false
   /\ mem (Es MCTS_init) (root bare) = false
   /\ ended bare = false
   /\ search demo args2 10 MCTS_init bare [] (demo_getState bare) true
      = Done (store_after bare 1, rng_after bare 1))
  /\ Qsa (store_after bare 1) = Qsa MCTS_init
  /\ Nsa (store_after bare 1) = Nsa MCTS_init
  /\ Ns (store_after bare 1) = <[root bare := 0]> (Ns MCTS_init)
  /\ Ps (store_after bare 1) !! root bare
     = Some (renormalize
               (masked (predict demo (demo_getState bare)).1
                       (getValidMoves demo (cloneAndRandomize bare []).1)
                       (current_decay (cloneAndRandomize bare []).1))).
Proof.
  split; [split; [reflexivity|split; [reflexivity|split;
    [reflexivity|exact search_bare_first]]]|].
  exact (search_unexpanded_root demo args2 10 MCTS_init bare [] (demo_getState bare)
           (store_after bare 1) (rng_after bare 1) eq_refl eq_refl eq_refl
           search_bare_first).
Defined.


Lemma getValidMoves_pending_choice_witness :
  choice (player_of choosing (current_player choosing)) = Some [5; 6]
  /\ exists mask,
       getValidMoves_model demo demo_queries choosing = Ret mask
       /\ forall a b, mask a b = true <-> a = 20 /\ 0 <= b < 2.
Proof.
  split; [reflexivity|].
  assert (Hlen : (length [5; 6] <= 18)%nat) by (cbn; lia).
  exact (proj1 (getValidMoves_pending_choice demo demo_queries choosing [5; 6]
                  eq_refl) Hlen).
Defined.

Lemma getValidMoves_offers_end_turn_witness :
  (choice (player_of dealt (current_player dealt)) = None
   /\ (length (hand (player_of dealt (current_player dealt))) <= 10)%nat
   /\ (length (field (player_of dealt (current_player dealt))) <= 7)%nat
   /\ getValidMoves_model demo demo_queries dealt = Ret (mask_of dealt))
  /\ mask_of dealt 19 1 = true
  /\ rows_below 20 (mask_of dealt).
Proof.
  assert (Hh : (length (hand (player_of dealt (current_player dealt))) <= 10)%nat)
    by (cbn; lia).
  assert (Hf : (length (field (player_of dealt (current_player dealt))) <= 7)%nat)
    by (cbn; lia).
  split; [split; [reflexivity|split; [exact Hh|split; [exact Hf|reflexivity]]]|].
  exact (getValidMoves_offers_end_turn demo demo_queries dealt (mask_of dealt)
           eq_refl Hh Hf eq_refl).
Defined.

Lemma search_never_unhandled_witness :
  engine_quiet demo
  /\ search demo args2 10 MCTS_init bare [] (demo_getState bare) true
     <> Failed UnhandledAction.
Proof.
  split; [exact demo_engine_quiet|].
  exact (search_never_unhandled demo args2 10 MCTS_init bare [] (demo_getState bare)
           true demo_engine_quiet).
Defined.

Lemma demo_engine_sizes : engine_sizes demo demo_queries dealt.
Proof.
  unfold engine_sizes. cbn.
  split; [lia|]. split; [lia|]. split; [done|]. repeat split; lia.
Qed.

Lemma getValidMoves_characterised_witness :
  engine_sizes demo demo_queries dealt
  /\ exists mask,
       getValidMoves_model demo demo_queries dealt = Ret mask
       /\ forall a b, mask a b = true <-> offered demo demo_queries dealt a b.
Proof.
  split; [exact demo_engine_sizes|].
  exact (getValidMoves_characterised demo demo_queries dealt demo_engine_sizes).
Defined.

Lemma offered_action_witness :
  ((length (hand (player_of dealt (current_player dealt))) <= 10)%nat
   /\ (length (field (player_of dealt (current_player dealt))) <= 7)%nat
   /\ (forall c, length (choose_targets demo dealt c)
                 = length (choose_cards demo_queries dealt c))
   /\ length (play_targets demo dealt
                (hero_power (player_of dealt (current_player dealt))))
      = length (targets demo dealt
                  (hero_power (player_of dealt (current_player dealt))))
   /\ getValidMoves_model demo demo_queries dealt = Ret (mask_of dealt)
   /\ mask_of dealt 0 0 = true)
  /\ exists f,
       engine_call demo f
       /\ performAction_try demo (current_player dealt) (Act 0 0) dealt
          = call f dealt.
Proof.
  assert (Hh : (length (hand (player_of dealt (current_player dealt))) <= 10)%nat)
    by (cbn; lia).
  assert (Hf : (length (field (player_of dealt (current_player dealt))) <= 7)%nat)
    by (cbn; lia).
  assert (Hc : forall c, length (choose_targets demo dealt c)
                         = length (choose_cards demo_queries dealt c))
    by reflexivity.
  split; [by repeat split|].
  exact (offered_action_reaches_engine demo demo_queries dealt (mask_of dealt) 0 0
           Hh Hf Hc eq_refl eq_refl eq_refl).
Defined.

Lemma getState_returns_classes_witness :
  (1 <= 6 <= 10 /\ 1 <= 6 <= 10)
  /\ exists s,
       getState_model demo_readings demo_queries dealt = Ret s
       /\ length s = 263%nat
       /\ forall k, 0 <= k < 10 ->
            s !! Z.to_nat k = Some (if k =? 6 - 1 then 1 else 0)
            /\ s !! Z.to_nat (10 + k) = Some (if k =? 6 - 1 then 1 else 0).
Proof.
  assert (H : 1 <= 6 <= 10) by lia.
  split; [by split|].
  exact (getState_returns_classes demo_readings demo_queries dealt H H).
Defined.

Lemma getState_ignores_hand_attack_witness :
  ((forall p, player_view demo_readings_atk dealt p = player_view demo_readings dealt p)
   /\ (forall c, exists a,
         card_view demo_readings_atk dealt c
         = with_atk (card_view demo_readings dealt c) a)
   /\ (forall c,
         c ∈ field (player_of dealt (current_player dealt))
             ++ field (player_of dealt (opponent (current_player dealt))) ->
         atk (card_view demo_readings_atk dealt c)
         = atk (card_view demo_readings dealt c)))
  /\ getState_model demo_readings_atk demo_queries dealt
     = getState_model demo_readings demo_queries dealt.
Proof.
  assert (Hp : forall p, player_view demo_readings_atk dealt p
                         = player_view demo_readings dealt p) by reflexivity.
  assert (Hc : forall c, exists a,
             card_view demo_readings_atk dealt c
             = with_atk (card_view demo_readings dealt c) a)
    by (intros c; exists 5; reflexivity).
  assert (Hf : forall c,
             c ∈ field (player_of dealt (current_player dealt))
                 ++ field (player_of dealt (opponent (current_player dealt))) ->
             atk (card_view demo_readings_atk dealt c)
             = atk (card_view demo_readings dealt c))
    by (intros c Hin; by apply elem_of_nil in Hin).
  split; [by repeat split|].
  exact (getState_ignores_hand_attack demo_readings demo_queries demo_readings_atk
           dealt Hp Hc Hf).
Defined.

Lemma getState_of_clone_witness :
  ((forall p, player_view demo_readings (cloneAndRandomize dealt [1%nat]).1 p
              = player_view demo_readings dealt p)
   /\ (forall c, card_view demo_readings (cloneAndRandomize dealt [1%nat]).1 c
                 = card_view demo_readings dealt c)
   /\ (forall c, can_attack demo_queries (cloneAndRandomize dealt [1%nat]).1 c
                 = can_attack demo_queries dealt c)
   /\ (forall c, is_usable demo_queries (cloneAndRandomize dealt [1%nat]).1 c
                 = is_usable demo_queries dealt c))
  /\ (cloneAndRandomize dealt [1%nat]).1 <> dealt
  /\ getState_model demo_readings demo_queries (cloneAndRandomize dealt [1%nat]).1
     = getState_model demo_readings demo_queries dealt.
Proof.
  split; [by repeat split|]. split; [by vm_compute|].
  apply (getState_of_clone demo_readings demo_queries dealt [1%nat]); reflexivity.
Defined.

Lemma demo_readings_int32 : readings_int32 demo_readings dealt.
Proof.
  split; intros; cbn; unfold view_int32, int32; cbn; lia.
Qed.

Lemma getState_int32_witness :
  (readings_int32 demo_readings dealt
   /\ Z.of_nat (length (hand (player_of dealt (opponent (current_player dealt)))))
      < 2147483648
   /\ getState_model demo_readings demo_queries dealt = Ret (state_of dealt))
  /\ length (state_of dealt) = 263%nat
  /\ Forall int32 (state_of dealt).
Proof.
  assert (Hlen : Z.of_nat (length (hand (player_of dealt
                                           (opponent (current_player dealt)))))
                 < 2147483648) by (cbn; lia).
  assert (Hs : getState_model demo_readings demo_queries dealt
               = Ret (state_of dealt)) by (vm_compute; reflexivity).
  split; [split; [exact demo_readings_int32|by split]|].
  exact (getState_int32 demo_readings demo_queries dealt (state_of dealt)
           demo_readings_int32 Hlen Hs).
Defined.

End ConcreteMore.
